(** * FinStack: the order book and the matching engine

    A shallow embedding of [order_book.hpp], [order_book.cpp] and
    [matching_engine.cpp], and the properties of the matching subsystem
    proved about it.

    Conventions of the embedding.
    - [uint64_t] is a [Z] with the wrap-around modulo [2^64] written out
      at every arithmetic operation.
    - [double] prices are only ever copied and compared, never computed
      with; a finite price is the rational number it denotes, so prices
      are [Q] and the comparisons are those of [Q].
    - [std::shared_ptr<Order>] is an address into a store of orders; the
      two sides of a book and its id index hold addresses, so that a fill
      applied through one of them is seen through the other.
    - the clocks are a stream of readings consumed one at a time.

    The sources hold two revisions of [order_book.cpp].  The properties
    are about the later one, whose id index is a [std::unordered_multimap]
    and which goes with the engine that appends the unfilled rest of a
    limit order itself; the earlier one is [Module Legacy]. *)

From Stdlib Require Import ZArith QArith Lia Lqa Ascii.
From stdpp Require Import base list sorting gmap strings pretty.

Local Open Scope Z_scope.

(** ** Machine integers *)

Definition two64 : Z := 2 ^ 64.

Definition wrap64 (z : Z) : Z := z mod two64.

Definition u64 (z : Z) : Prop := 0 <= z < two64.

(** ** Prices *)

Definition price_eq (a b : Q) : bool := Qeq_bool a b.

Definition price_le (a b : Q) : bool := Qle_bool a b.

Definition price_lt (a b : Q) : bool := negb (Qle_bool b a).

(** [std::numeric_limits<double>::max()]. *)
Definition DBL_MAX : Q := inject_Z (2 ^ 1024 - 2 ^ 971).

(** ** order_book.hpp: the data model *)

Inductive OrderSide : Type := Buy | Sell.

Inductive OrderType : Type := Limit | Market.

Inductive OrderStatus : Type :=
  New | PartiallyFilled | Filled | Cancelled | Rejected.

#[global] Instance OrderSide_eq_dec : EqDecision OrderSide.
Proof. solve_decision. Defined.

#[global] Instance OrderType_eq_dec : EqDecision OrderType.
Proof. solve_decision. Defined.

#[global] Instance OrderStatus_eq_dec : EqDecision OrderStatus.
Proof. solve_decision. Defined.

(** The fields [size], [price] and [timestamp] of [Trade] carry the
    prefix [trade_]: [Order] has fields of the same names. *)
Record Trade : Type := mkTrade {
  order_id_buy : string;
  order_id_sell : string;
  trade_size : Z;
  trade_price : Q;
  trade_timestamp : Z
}.

Record Order : Type := mkOrder {
  order_id : string;
  side : OrderSide;
  type : OrderType;
  symbol : string;
  size : Z;
  filled_size : Z;
  price : Q;
  timestamp : Z;
  status : OrderStatus
}.

(** The two constructors of [Order]. *)
Definition limit_order (id : string) (s : OrderSide) (sym : string)
    (sz : Z) (prc : Q) (time : Z) : Order :=
  mkOrder id s Limit sym sz 0 prc time New.

Definition market_order (id : string) (s : OrderSide) (sym : string)
    (sz : Z) (time : Z) : Order :=
  mkOrder id s Market sym sz 0
    (match s with Buy => DBL_MAX | Sell => 0%Q end) time New.

Definition set_filled_size (o : Order) (f : Z) : Order :=
  mkOrder (order_id o) (side o) (type o) (symbol o) (size o) f
    (price o) (timestamp o) (status o).

Definition set_status (o : Order) (s : OrderStatus) : Order :=
  mkOrder (order_id o) (side o) (type o) (symbol o) (size o)
    (filled_size o) (price o) (timestamp o) s.

(** [Order::remaining_size]: an unsigned subtraction. *)
Definition remaining_size (o : Order) : Z :=
  wrap64 (size o - filled_size o).

(** [Order::is_filled]: [filled_size >= size]. *)
Definition is_filled (o : Order) : bool := size o <=? filled_size o.

(** [Order::fill]: adds to [filled_size] with no test of the amount, then
    recomputes the status. *)
Definition fill (o : Order) (fill_size : Z) : Order :=
  let o1 := set_filled_size o (wrap64 (filled_size o + fill_size)) in
  if is_filled o1 then set_status o1 Filled
  else set_status o1 PartiallyFilled.

(** The values an [Order] object can hold: its three [uint64_t] fields. *)
Definition order_ok (o : Order) : Prop :=
  u64 (size o) /\ u64 (filled_size o) /\ u64 (timestamp o).

(** ** The store of orders and the clock *)

Definition ptr : Type := nat.

(** [heap] gives the object behind every address, [brk] is the next
    address [std::make_shared] hands out, [clock] is the stream of clock
    readings and [ticks] the number of readings consumed so far. *)
Record World : Type := mkWorld {
  heap : ptr -> Order;
  brk : ptr;
  clock : nat -> Z;
  ticks : nat
}.

Definition upd (h : ptr -> Order) (p : ptr) (o : Order) : ptr -> Order :=
  fun q => if decide (q = p) then o else h q.

Definition store (w : World) (p : ptr) (o : Order) : World :=
  mkWorld (upd (heap w) p o) (brk w) (clock w) (ticks w).

Definition make_shared (w : World) (o : Order) : ptr * World :=
  (brk w, mkWorld (upd (heap w) (brk w) o) (S (brk w)) (clock w) (ticks w)).

(** One reading of a clock, converted to [uint64_t]. *)
Definition now (w : World) : Z * World :=
  (wrap64 (clock w (ticks w)),
   mkWorld (heap w) (brk w) (clock w) (S (ticks w))).

(** ** std::unordered_multimap

    The id index of a book and the id-to-symbol index of the engine are
    multimaps that are only ever searched by key, so a multimap is the
    list of its entries, in which only the relative order of the entries
    of one key matters.  ISO C++ keeps the entries of a key adjacent and
    keeps their relative order on rehash, but leaves open where [insert]
    puts a new entry among those of its key.  Three choices are modelled.
    - [InsertionOrder] appends it after them, which is what the comments
      of [cancel_order] take for granted.
    - [NewestFirst] puts it in front of them, which is what
      [_M_insert_multi_node] of libstdc++ does when it is given no hint
      ("Insert after the node before the equivalent one").
    - [Libstdcxx] is libstdc++ 12 for a key of type [std::string]: in a
      table of at most 20 entries [_M_compute_hash_code] looks the key up
      and passes the first entry of the key as the hint, after which
      [_M_insert_multi_node] puts the new entry, second in the range; in
      a larger table there is no hint and the new entry goes in front. *)

Inductive EqualKeyOrder : Type := InsertionOrder | NewestFirst | Libstdcxx.

Section multimap.
Context {K V : Type} `{EqDecision K} `{EqDecision V}.

(** The new entry right after the first entry of its key (anywhere when
    there is none). *)
Fixpoint insert_after_first (k : K) (v : V) (m : list (K * V))
    : list (K * V) :=
  match m with
  | [] => [(k, v)]
  | (k', v') :: m' =>
      if decide (k' = k) then (k', v') :: (k, v) :: m'
      else (k', v') :: insert_after_first k v m'
  end.

(** [insert]. *)
Definition mm_insert (pol : EqualKeyOrder) (k : K) (v : V)
    (m : list (K * V)) : list (K * V) :=
  match pol with
  | InsertionOrder => m ++ [(k, v)]
  | NewestFirst => (k, v) :: m
  | Libstdcxx =>
      if (length m <=? 20)%nat then insert_after_first k v m
      else (k, v) :: m
  end.

(** [equal_range(k)], as the list of the values it runs over. *)
Fixpoint mm_equal_range (k : K) (m : list (K * V)) : list V :=
  match m with
  | [] => []
  | (k', v) :: m' =>
      if decide (k' = k) then v :: mm_equal_range k m'
      else mm_equal_range k m'
  end.

(** [erase(it)] for the entry of key [k] holding [v] that comes first in
    [equal_range(k)]. *)
Fixpoint mm_erase (k : K) (v : V) (m : list (K * V)) : list (K * V) :=
  match m with
  | [] => []
  | (k', v') :: m' =>
      if decide (k' = k) then
        if decide (v' = v) then m' else (k', v') :: mm_erase k v m'
      else (k', v') :: mm_erase k v m'
  end.
End multimap.

(** ** std::sort

    [std::sort] with the comparison [before].  It leaves the relative
    order of elements that compare equivalent unspecified; the model is
    the insertion sort that keeps it (the one libstdc++ runs on up to 16
    elements).  Where no two elements compare equivalent the result is
    the same for every sorting algorithm. *)

Section sorting.
Context {A : Type} (before : A -> A -> bool).

Fixpoint sort_insert (a : A) (l : list A) : list A :=
  match l with
  | [] => [a]
  | y :: t => if before y a then y :: sort_insert a t else a :: y :: t
  end.

Definition sort (l : list A) : list A := foldr sort_insert [] l.
End sorting.

(** [vector::erase] of the first element equal to [p], if there is one:
    [std::find_if] on the address followed by [erase]. *)
Fixpoint erase_first (p : ptr) (l : list ptr) : list ptr :=
  match l with
  | [] => []
  | q :: t => if decide (q = p) then t else q :: erase_first p t
  end.

(** ** OrderBook *)

Record OrderBook : Type := mkBook {
  symbol_ : string;
  buy_orders_ : list ptr;
  sell_orders_ : list ptr;
  order_map_ : list (string * ptr);
  last_update_time_ : Z
}.

(** [OrderBook::OrderBook]. *)
Definition new_book (sym : string) : OrderBook := mkBook sym [] [] [] 0.

(** The comparison of [sort_buy_orders]: price descending, then
    timestamp ascending. *)
Definition buy_before (h : ptr -> Order) (a b : ptr) : bool :=
  if negb (price_eq (price (h a)) (price (h b)))
  then price_lt (price (h b)) (price (h a))
  else timestamp (h a) <? timestamp (h b).

(** The comparison of [sort_sell_orders]: price ascending, then
    timestamp ascending. *)
Definition sell_before (h : ptr -> Order) (a b : ptr) : bool :=
  if negb (price_eq (price (h a)) (price (h b)))
  then price_lt (price (h a)) (price (h b))
  else timestamp (h a) <? timestamp (h b).

Definition side_before (s : OrderSide) : (ptr -> Order) -> ptr -> ptr -> bool :=
  match s with Buy => buy_before | Sell => sell_before end.

Definition side_orders (s : OrderSide) (b : OrderBook) : list ptr :=
  match s with Buy => buy_orders_ b | Sell => sell_orders_ b end.

Definition set_side_orders (s : OrderSide) (l : list ptr) (b : OrderBook)
    : OrderBook :=
  match s with
  | Buy => mkBook (symbol_ b) l (sell_orders_ b) (order_map_ b)
             (last_update_time_ b)
  | Sell => mkBook (symbol_ b) (buy_orders_ b) l (order_map_ b)
              (last_update_time_ b)
  end.

Definition set_order_map (m : list (string * ptr)) (b : OrderBook)
    : OrderBook :=
  mkBook (symbol_ b) (buy_orders_ b) (sell_orders_ b) m (last_update_time_ b).

Definition set_last_update_time (t : Z) (b : OrderBook) : OrderBook :=
  mkBook (symbol_ b) (buy_orders_ b) (sell_orders_ b) (order_map_ b) t.

Definition opposite (s : OrderSide) : OrderSide :=
  match s with Buy => Sell | Sell => Buy end.

(** All the orders resting in the book. *)
Definition resting (b : OrderBook) : list ptr :=
  buy_orders_ b ++ sell_orders_ b.

Section book.
Variable pol : EqualKeyOrder.

(** [OrderBook::add_order]. *)
Definition add_order (p : ptr) (w : World) (b : OrderBook)
    : World * OrderBook :=
  let o := heap w p in
  let b1 := set_order_map (mm_insert pol (order_id o) p (order_map_ b)) b in
  let b2 :=
    set_side_orders (side o)
      (sort (side_before (side o) (heap w))
         (side_orders (side o) b1 ++ [p])) b1 in
  let '(t, w1) := now w in
  (w1, set_last_update_time t b2).

(** [OrderBook::cancel_order]. *)
Definition cancel_order (id : string) (w : World) (b : OrderBook)
    : bool * World * OrderBook :=
  match mm_equal_range id (order_map_ b) with
  | [] => (false, w, b)
  | p :: _ =>
      let w1 := store w p (set_status (heap w p) Cancelled) in
      let s := side (heap w1 p) in
      let b1 := set_side_orders s (erase_first p (side_orders s b)) b in
      let b2 := set_order_map (mm_erase id p (order_map_ b1)) b1 in
      let '(t, w2) := now w1 in
      (true, w2, set_last_update_time t b2)
  end.

(** The state of the loop of [OrderBook::match_order]. *)
Record MatchState : Type := mkMatch {
  m_world : World;
  m_book : OrderBook;
  m_trades : list Trade
}.

(** One turn of the loop of [match_order] for the incoming order [p]:
    [None] when the loop condition fails or the [break] is taken,
    otherwise the state after the body. *)
Definition match_body (p : ptr) (st : MatchState) : option MatchState :=
  let w := m_world st in
  let b := m_book st in
  let order := heap w p in
  let opp := opposite (side order) in
  match side_orders opp b with
  | [] => None
  | m :: rest =>
      if is_filled order then None
      else
        let maker := heap w m in
        let price_matches :=
          match side order with
          | Buy => price_le (price maker) (price order)
          | Sell => price_le (price order) (price maker)
          end in
        if bool_decide (type order = Market) || price_matches then
          let fill_size :=
            Z.min (remaining_size order) (remaining_size maker) in
          let trade_price := price maker in
          let w1 := store w p (fill (heap w p) fill_size) in
          let w2 := store w1 m (fill (heap w1 m) fill_size) in
          let '(t, w3) := now w2 in
          let trade :=
            match side (heap w3 p) with
            | Buy => mkTrade (order_id (heap w3 p)) (order_id (heap w3 m))
                       fill_size trade_price t
            | Sell => mkTrade (order_id (heap w3 m)) (order_id (heap w3 p))
                        fill_size trade_price t
            end in
          let b1 :=
            if is_filled (heap w3 m) then
              set_order_map
                (mm_erase (order_id (heap w3 m)) m (order_map_ b))
                (set_side_orders opp rest b)
            else b in
          Some (mkMatch w3 b1 (m_trades st ++ [trade]))
        else None
  end.

Fixpoint match_loop (fuel : nat) (p : ptr) (st : MatchState)
    : MatchState :=
  match fuel with
  | O => st
  | S n =>
      match match_body p st with
      | None => st
      | Some st' => match_loop n p st'
      end
  end.

(** The turns of the loop that execute, each as the state before it and
    the state after it. *)
Fixpoint match_turns (fuel : nat) (p : ptr) (st : MatchState)
    : list (MatchState * MatchState) :=
  match fuel with
  | O => []
  | S n =>
      match match_body p st with
      | None => []
      | Some st' => (st, st') :: match_turns n p st'
      end
  end.

(** [OrderBook::match_order].  Every turn of the loop but the last one
    takes the head off the contra side, so one turn more than its
    length is enough (see [match_loop_done]). *)
Definition match_order (p : ptr) (w : World) (b : OrderBook)
    : list Trade * World * OrderBook :=
  let opp := opposite (side (heap w p)) in
  let st :=
    match_loop (S (length (side_orders opp b))) p (mkMatch w b []) in
  let '(t, w1) := now (m_world st) in
  (m_trades st, w1, set_last_update_time t (m_book st)).
End book.

(** ** MatchingEngine *)

(** A registered callback is known by a handle; calling it is recorded as
    the pair of the handle and the trade it was called with. *)
Definition TradeCallback : Type := nat.

Record MatchingEngine : Type := mkEngine {
  order_books_ : gmap string OrderBook;
  order_id_to_symbol_ : list (string * string);
  trade_callbacks_ : list TradeCallback
}.

(** What a [place_*] call hands back and leaves behind: the trades it
    returns, the callback invocations it made, in order, and the state. *)
Record Reply : Type := mkReply {
  r_trades : list Trade;
  r_notified : list (TradeCallback * Trade);
  r_world : World;
  r_engine : MatchingEngine
}.

(** [MatchingEngine::MatchingEngine]. *)
Definition new_engine : MatchingEngine := mkEngine ∅ [] [].

(** [MatchingEngine::add_order_book]. *)
Definition add_order_book (sym : string) (e : MatchingEngine)
    : MatchingEngine :=
  match order_books_ e !! sym with
  | Some _ => e
  | None =>
      mkEngine (<[sym := new_book sym]> (order_books_ e))
        (order_id_to_symbol_ e) (trade_callbacks_ e)
  end.

(** [MatchingEngine::register_trade_callback]. *)
Definition register_trade_callback (cb : TradeCallback) (e : MatchingEngine)
    : MatchingEngine :=
  mkEngine (order_books_ e) (order_id_to_symbol_ e)
    (trade_callbacks_ e ++ [cb]).

(** [MatchingEngine::generate_timestamp]. *)
Definition generate_timestamp (w : World) : Z * World := now w.

(** [MatchingEngine::notify_trade]. *)
Definition notify_trade (e : MatchingEngine) (t : Trade)
    : list (TradeCallback * Trade) :=
  map (fun cb => (cb, t)) (trade_callbacks_ e).

Definition notify_trades (e : MatchingEngine) (ts : list Trade)
    : list (TradeCallback * Trade) :=
  flat_map (notify_trade e) ts.

Section engine.
Variable pol : EqualKeyOrder.

(** [MatchingEngine::place_limit_order]. *)
Definition place_limit_order (sym id : string) (s : OrderSide)
    (sz : Z) (prc : Q) (w : World) (e : MatchingEngine) : Reply :=
  match order_books_ e !! sym with
  | None => mkReply [] [] w e
  | Some book =>
      let '(time, w1) := generate_timestamp w in
      let '(p, w2) := make_shared w1 (limit_order id s sym sz prc time) in
      let index := mm_insert pol id sym (order_id_to_symbol_ e) in
      let '(trades, w3, book1) := match_order p w2 book in
      let '(w4, book2) :=
        if is_filled (heap w3 p) then (w3, book1)
        else add_order pol p w3 book1 in
      mkReply trades (notify_trades e trades) w4
        (mkEngine (<[sym := book2]> (order_books_ e)) index
           (trade_callbacks_ e))
  end.

(** [MatchingEngine::place_market_order]. *)
Definition place_market_order (sym id : string) (s : OrderSide)
    (sz : Z) (w : World) (e : MatchingEngine) : Reply :=
  match order_books_ e !! sym with
  | None => mkReply [] [] w e
  | Some book =>
      let '(time, w1) := generate_timestamp w in
      let '(p, w2) := make_shared w1 (market_order id s sym sz time) in
      let '(trades, w3, book1) := match_order p w2 book in
      mkReply trades (notify_trades e trades) w3
        (mkEngine (<[sym := book1]> (order_books_ e))
           (order_id_to_symbol_ e) (trade_callbacks_ e))
  end.

(** [MatchingEngine::cancel_order]; the name [cancel_order] is taken by
    the operation of the book. *)
Definition engine_cancel_order (id : string) (w : World)
    (e : MatchingEngine) : bool * World * MatchingEngine :=
  match mm_equal_range id (order_id_to_symbol_ e) with
  | [] => (false, w, e)
  | sym :: _ =>
      match order_books_ e !! sym with
      | None => (false, w, e)
      | Some book =>
          let '(success, w1, book1) := cancel_order id w book in
          let index :=
            if success then mm_erase id sym (order_id_to_symbol_ e)
            else order_id_to_symbol_ e in
          (success, w1,
           mkEngine (<[sym := book1]> (order_books_ e)) index
             (trade_callbacks_ e))
      end
  end.
End engine.

(** [MatchingEngine::get_order_book]. *)
Definition get_order_book (sym : string) (e : MatchingEngine)
    : option OrderBook :=
  order_books_ e !! sym.

(** [OrderBook::best_bid] and [OrderBook::best_ask]. *)
Definition best_bid (w : World) (b : OrderBook) : Q :=
  match buy_orders_ b with
  | [] => 0%Q
  | p :: _ => price (heap w p)
  end.


(** A store with nothing allocated yet, for the examples. *)
Definition empty_world (clk : nat -> Z) : World :=
  mkWorld (fun _ => limit_order "" Buy "" 0 0%Q 0) 0%nat clk 0%nat.


(** ** Well-formed books and the states a book can reach *)

(** Every object of the store holds values of its field types. *)
Definition world_ok (w : World) : Prop := forall q, order_ok (heap w q).

(** [a] has strictly higher price-time priority than [b] on side [s]:
    the comparison the side is sorted with. *)
Definition higher_priority (s : OrderSide) (h : ptr -> Order) (a b : ptr)
    : bool :=
  side_before s h a b.

(** No order of [l] is preceded by one of strictly lower priority. *)
Definition sorted_side (s : OrderSide) (h : ptr -> Order) (l : list ptr)
    : Prop :=
  StronglySorted (fun a b => higher_priority s h b a = false) l.

Record book_inv (w : World) (b : OrderBook) : Prop := mk_book_inv {
  inv_nodup : NoDup (resting b);
  inv_index : map snd (order_map_ b) ≡ₚ resting b;
  inv_keys : forall k p, (k, p) ∈ order_map_ b -> k = order_id (heap w p);
  inv_side : forall s p, p ∈ side_orders s b -> side (heap w p) = s;
  inv_open : forall p, p ∈ resting b -> is_filled (heap w p) = false;
  inv_sorted : forall s, sorted_side s (heap w) (side_orders s b)
}.

(** The states of a book and of the store of its orders after any
    sequence of operations on the book: it starts empty; between two
    operations the caller may create orders and time may pass, which
    leaves the resting orders alone; [add_order] is given an order that
    is not resting yet and has something left to fill; [match_order] is
    given an order that is not resting.  Nothing is asked of the ids. *)
Inductive reachable (pol : EqualKeyOrder) : World -> OrderBook -> Prop :=
  | reach_new w sym :
      world_ok w -> reachable pol w (new_book sym)
  | reach_env w w' b :
      reachable pol w b -> world_ok w' ->
      (forall q, q ∈ resting b -> heap w' q = heap w q) ->
      reachable pol w' b
  | reach_add w b p :
      reachable pol w b -> p ∉ resting b ->
      is_filled (heap w p) = false ->
      reachable pol (add_order pol p w b).1 (add_order pol p w b).2
  | reach_cancel w b id :
      reachable pol w b ->
      reachable pol (cancel_order id w b).1.2 (cancel_order id w b).2
  | reach_match w b p :
      reachable pol w b -> p ∉ resting b ->
      reachable pol (match_order p w b).1.2 (match_order p w b).2.

(** The fields of an order that no operation of the book writes. *)
Definition same_static (h h' : ptr -> Order) : Prop :=
  forall q,
    order_id (h' q) = order_id (h q) /\ side (h' q) = side (h q) /\
    type (h' q) = type (h q) /\ symbol (h' q) = symbol (h q) /\
    size (h' q) = size (h q) /\ price (h' q) = price (h q) /\
    timestamp (h' q) = timestamp (h q).

(** ** States used in the examples *)

(** A clock that advances by one at every reading. *)
Definition counting_clock (n : nat) : Z := Z.of_nat n.

(** Two buy orders created under the same id ["U"], at addresses 0 and 1,
    and a third order, also called ["U"], at address 2. *)
Definition dup_world : World :=
  mkWorld
    (fun q =>
       match q with
       | 0%nat => limit_order "U" Buy "T" 100 10 1
       | 1%nat => limit_order "U" Buy "T" 200 11 2
       | _ => limit_order "U" Buy "T" 300 12 3
       end)
    3%nat counting_clock 0%nat.

(** The book after the first of them was added, after the first two
    were, and after all three were. *)
Definition dup_state1 (pol : EqualKeyOrder) : World * OrderBook :=
  add_order pol 0%nat dup_world (new_book "T").

Definition dup_state2 (pol : EqualKeyOrder) : World * OrderBook :=
  add_order pol 1%nat (dup_state1 pol).1 (dup_state1 pol).2.

Definition dup_state3 (pol : EqualKeyOrder) : World * OrderBook :=
  add_order pol 2%nat (dup_state2 pol).1 (dup_state2 pol).2.

(** The states of the engine: every book is well formed, the orders that
    rest were all allocated, and no order rests in two books. *)
Definition engine_inv (w : World) (e : MatchingEngine) : Prop :=
  world_ok w /\
  (forall sym b, order_books_ e !! sym = Some b ->
     book_inv w b /\ forall q, q ∈ resting b -> (q < brk w)%nat) /\
  (forall sym1 sym2 b1 b2, sym1 <> sym2 ->
     order_books_ e !! sym1 = Some b1 -> order_books_ e !! sym2 = Some b2 ->
     forall q, q ∈ resting b1 -> q ∉ resting b2).

(** An engine with the one book ["T"], and the states after a sell order
    of 100 at 10 was placed in it. *)
Definition engine_T : MatchingEngine := add_order_book "T" new_engine.

Definition world_0 : World := empty_world counting_clock.

Definition one_sell (pol : EqualKeyOrder) : Reply :=
  place_limit_order pol "T" "S1" Sell 100 10 world_0 engine_T.

(** The loop of [match_order] about to run for a buy order of 150 at 10
    against that resting sell order, and the state one turn later. *)
Definition one_turn_before : MatchState :=
  let r := one_sell InsertionOrder in
  mkMatch
    (make_shared (r_world r) (limit_order "B1" Buy "T" 150 10 9)).2
    (default (new_book "T") (order_books_ (r_engine r) !! "T")) [].

Definition one_turn_after : MatchState :=
  default one_turn_before (match_body 1%nat one_turn_before).

(** The executions of [match_order] for an incoming order [p]: the turns
    of its loop that execute. *)
Definition executions (p : ptr) (w : World) (b : OrderBook)
    : list (MatchState * MatchState) :=
  match_turns (S (length (side_orders (opposite (side (heap w p))) b))) p
    (mkMatch w b []).

(** [n] calls of [MatchingEngine::cancel_order] with the same id, one
    after the other, and what each of them returned. *)
Fixpoint cancel_times (n : nat) (id : string) (w : World)
    (e : MatchingEngine) : list bool * World * MatchingEngine :=
  match n with
  | O => ([], w, e)
  | S k =>
      let '(ok, w1, e1) := engine_cancel_order id w e in
      let '(oks, w2, e2) := cancel_times k id w1 e1 in
      (ok :: oks, w2, e2)
  end.

(** A limit order of size 0 placed in the empty book ["T"]. *)
Definition zero_size_order (pol : EqualKeyOrder) : Reply :=
  place_limit_order pol "T" "Z" Buy 0 10 world_0 engine_T.

(** A buy order of 100 at 10 placed against the resting sell order of 100
    at 10: it is filled completely. *)
Definition full_fill (pol : EqualKeyOrder) : Reply :=
  place_limit_order pol "T" "B1" Buy 100 10
    (r_world (one_sell pol)) (r_engine (one_sell pol)).

(** ** The earlier revision of the book

    [part_001] opens with an earlier revision of [order_book.cpp], the one
    [order_book.hpp] declares: the id index is a [std::unordered_map], so
    that it holds one order per id; [cancel_order] takes every order of
    that id out of the side; [match_order] leaves a filled maker in the
    index and appends the incoming limit order itself. *)
Module Legacy.

Record OrderBook : Type := mkBook {
  symbol_ : string;
  buy_orders_ : list ptr;
  sell_orders_ : list ptr;
  order_map_ : gmap string ptr;
  last_update_time_ : Z
}.

Definition new_book (sym : string) : OrderBook := mkBook sym [] [] ∅ 0.

(** The comparisons of this revision's [sort_buy_orders] and
    [sort_sell_orders]. *)
Definition buy_before (h : ptr -> Order) (a b : ptr) : bool :=
  if price_eq (price (h a)) (price (h b))
  then timestamp (h a) <? timestamp (h b)
  else price_lt (price (h b)) (price (h a)).

Definition sell_before (h : ptr -> Order) (a b : ptr) : bool :=
  if price_eq (price (h a)) (price (h b))
  then timestamp (h a) <? timestamp (h b)
  else price_lt (price (h a)) (price (h b)).

Definition side_before (s : OrderSide) : (ptr -> Order) -> ptr -> ptr -> bool :=
  match s with Buy => buy_before | Sell => sell_before end.

Definition side_orders (s : OrderSide) (b : OrderBook) : list ptr :=
  match s with Buy => buy_orders_ b | Sell => sell_orders_ b end.

Definition set_side_orders (s : OrderSide) (l : list ptr) (b : OrderBook)
    : OrderBook :=
  match s with
  | Buy => mkBook (symbol_ b) l (sell_orders_ b) (order_map_ b)
             (last_update_time_ b)
  | Sell => mkBook (symbol_ b) (buy_orders_ b) l (order_map_ b)
              (last_update_time_ b)
  end.

Definition set_order_map (m : gmap string ptr) (b : OrderBook) : OrderBook :=
  mkBook (symbol_ b) (buy_orders_ b) (sell_orders_ b) m (last_update_time_ b).

Definition set_last_update_time (t : Z) (b : OrderBook) : OrderBook :=
  mkBook (symbol_ b) (buy_orders_ b) (sell_orders_ b) (order_map_ b) t.

(** [OrderBook::add_order]: [order_map_[id] = order] replaces whatever
    the id was filed with. *)
Definition add_order (p : ptr) (w : World) (b : OrderBook)
    : World * OrderBook :=
  let o := heap w p in
  let b1 := set_order_map (<[order_id o := p]> (order_map_ b)) b in
  let b2 :=
    set_side_orders (side o)
      (sort (side_before (side o) (heap w))
         (side_orders (side o) b1 ++ [p])) b1 in
  let '(t, w1) := now w in
  (w1, set_last_update_time t b2).

(** [std::remove_if] on the id followed by [erase]. *)
Definition erase_id (h : ptr -> Order) (id : string) (l : list ptr)
    : list ptr :=
  filter (fun q => order_id (h q) <> id) l.

(** [OrderBook::cancel_order]. *)
Definition cancel_order (id : string) (w : World) (b : OrderBook)
    : bool * World * OrderBook :=
  match order_map_ b !! id with
  | None => (false, w, b)
  | Some p =>
      let w1 := store w p (set_status (heap w p) Cancelled) in
      let s := side (heap w1 p) in
      let b1 :=
        set_side_orders s (erase_id (heap w1) id (side_orders s b)) b in
      let b2 := set_order_map (delete id (order_map_ b1)) b1 in
      let '(t, w2) := now w1 in
      (true, w2, set_last_update_time t b2)
  end.

Record MatchState : Type := mkMatch {
  m_world : World;
  m_book : OrderBook;
  m_trades : list Trade
}.

(** One turn of the loop of this revision's [match_order]: a filled maker
    is taken off the contra side only. *)
Definition match_body (p : ptr) (st : MatchState) : option MatchState :=
  let w := m_world st in
  let b := m_book st in
  let order := heap w p in
  let opp := opposite (side order) in
  match side_orders opp b with
  | [] => None
  | m :: rest =>
      if is_filled order then None
      else
        let maker := heap w m in
        let price_matches :=
          match side order with
          | Buy => price_le (price maker) (price order)
          | Sell => price_le (price order) (price maker)
          end in
        if bool_decide (type order = Market) || price_matches then
          let fill_size :=
            Z.min (remaining_size order) (remaining_size maker) in
          let trade_price := price maker in
          let w1 := store w p (fill (heap w p) fill_size) in
          let w2 := store w1 m (fill (heap w1 m) fill_size) in
          let '(t, w3) := now w2 in
          let trade :=
            match side (heap w3 p) with
            | Buy => mkTrade (order_id (heap w3 p)) (order_id (heap w3 m))
                       fill_size trade_price t
            | Sell => mkTrade (order_id (heap w3 m)) (order_id (heap w3 p))
                        fill_size trade_price t
            end in
          let b1 :=
            if is_filled (heap w3 m) then set_side_orders opp rest b
            else b in
          Some (mkMatch w3 b1 (m_trades st ++ [trade]))
        else None
  end.

Fixpoint match_loop (fuel : nat) (p : ptr) (st : MatchState) : MatchState :=
  match fuel with
  | O => st
  | S n =>
      match match_body p st with
      | None => st
      | Some st' => match_loop n p st'
      end
  end.

(** [OrderBook::remove_filled_orders]. *)
Definition remove_filled_orders (w : World) (b : OrderBook) : OrderBook :=
  let keep := filter (fun q => is_filled (heap w q) = false) in
  mkBook (symbol_ b) (keep (buy_orders_ b)) (keep (sell_orders_ b))
    (order_map_ b) (last_update_time_ b).

(** [OrderBook::match_order]: after the loop the incoming limit order is
    added to the book by [match_order] itself when it is not filled. *)
Definition match_order (p : ptr) (w : World) (b : OrderBook)
    : list Trade * World * OrderBook :=
  let opp := opposite (side (heap w p)) in
  let st :=
    match_loop (S (length (side_orders opp b))) p (mkMatch w b []) in
  let w1 := m_world st in
  let '(w2, b2) :=
    if negb (is_filled (heap w1 p)) && bool_decide (type (heap w1 p) = Limit)
    then add_order p w1 (m_book st)
    else (w1, m_book st) in
  (m_trades st, w2, remove_filled_orders w2 b2).

(** [OrderBook::get_all_orders] of this revision: the buy side followed
    by the sell side. *)
Definition get_all_orders (b : OrderBook) : list ptr :=
  buy_orders_ b ++ sell_orders_ b.

(** *** The engine of the earlier revision

    [src/matching_engine.cpp] goes with this book: it leaves it to
    [match_order] to append a limit order, and it files the symbol of an
    id with [order_id_to_symbol_[order_id] = symbol], looks it up with
    [find] and removes it with [erase(order_id)], so that its index holds
    one symbol per id.  The line it prints for an unknown symbol is not
    part of the model. *)

Record MatchingEngine : Type := mkEngine {
  order_books_ : gmap string OrderBook;
  order_id_to_symbol_ : gmap string string;
  trade_callbacks_ : list TradeCallback
}.

Record Reply : Type := mkReply {
  r_trades : list Trade;
  r_notified : list (TradeCallback * Trade);
  r_world : World;
  r_engine : MatchingEngine
}.

Definition new_engine : MatchingEngine := mkEngine ∅ ∅ [].

Definition add_order_book (sym : string) (e : MatchingEngine)
    : MatchingEngine :=
  match order_books_ e !! sym with
  | Some _ => e
  | None =>
      mkEngine (<[sym := new_book sym]> (order_books_ e))
        (order_id_to_symbol_ e) (trade_callbacks_ e)
  end.

Definition generate_timestamp (w : World) : Z * World := now w.

Definition notify_trade (e : MatchingEngine) (t : Trade)
    : list (TradeCallback * Trade) :=
  map (fun cb => (cb, t)) (trade_callbacks_ e).

(** [MatchingEngine::place_limit_order]. *)
Definition place_limit_order (sym id : string) (s : OrderSide)
    (sz : Z) (prc : Q) (w : World) (e : MatchingEngine) : Reply :=
  match order_books_ e !! sym with
  | None => mkReply [] [] w e
  | Some book =>
      let '(time, w1) := generate_timestamp w in
      let '(p, w2) := make_shared w1 (limit_order id s sym sz prc time) in
      let index := <[id := sym]> (order_id_to_symbol_ e) in
      let '(trades, w3, book1) := match_order p w2 book in
      mkReply trades (flat_map (notify_trade e) trades) w3
        (mkEngine (<[sym := book1]> (order_books_ e)) index
           (trade_callbacks_ e))
  end.

(** [MatchingEngine::place_market_order]: the id is filed for the time
    of the call and erased at its end. *)
Definition place_market_order (sym id : string) (s : OrderSide)
    (sz : Z) (w : World) (e : MatchingEngine) : Reply :=
  match order_books_ e !! sym with
  | None => mkReply [] [] w e
  | Some book =>
      let '(time, w1) := generate_timestamp w in
      let '(p, w2) := make_shared w1 (market_order id s sym sz time) in
      let index := <[id := sym]> (order_id_to_symbol_ e) in
      let '(trades, w3, book1) := match_order p w2 book in
      mkReply trades (flat_map (notify_trade e) trades) w3
        (mkEngine (<[sym := book1]> (order_books_ e)) (delete id index)
           (trade_callbacks_ e))
  end.

(** [MatchingEngine::cancel_order]. *)
Definition engine_cancel_order (id : string) (w : World)
    (e : MatchingEngine) : bool * World * MatchingEngine :=
  match order_id_to_symbol_ e !! id with
  | None => (false, w, e)
  | Some sym =>
      match order_books_ e !! sym with
      | None => (false, w, e)
      | Some book =>
          let '(success, w1, book1) := cancel_order id w book in
          let index :=
            if success then delete id (order_id_to_symbol_ e)
            else order_id_to_symbol_ e in
          (success, w1,
           mkEngine (<[sym := book1]> (order_books_ e)) index
             (trade_callbacks_ e))
      end
  end.

End Legacy.








(** ** Trades and their makers *)

(** The id a trade records for the resting order and for the incoming
    one, when the incoming order is on side [s]. *)
Definition trade_maker_id (s : OrderSide) (t : Trade) : string :=
  match s with Buy => order_id_sell t | Sell => order_id_buy t end.

Definition trade_taker_id (s : OrderSide) (t : Trade) : string :=
  match s with Buy => order_id_buy t | Sell => order_id_sell t end.

(** [t] is a trade of the incoming order [p] with the maker [m]. *)
Definition trade_of (h : ptr -> Order) (p : ptr) (t : Trade) (m : ptr)
    : Prop :=
  trade_maker_id (side (h p)) t = order_id (h m) /\
  trade_taker_id (side (h p)) t = order_id (h p) /\
  trade_price t = price (h m).

(** The trades a callback was called with, in the order of the calls. *)
Definition delivered_to (cb : TradeCallback)
    (calls : list (TradeCallback * Trade)) : list Trade :=
  map snd (filter (fun c => c.1 = cb) calls).

(** A clock that shows the same reading every time. *)
Definition stopped_clock (n : nat) : Z := 5.

(** Two sell orders of 100 at 10 placed while the clock stands still, so
    that they carry the same timestamp, and then a buy order of 200 at
    10. *)
Definition tied_sells (pol : EqualKeyOrder) : Reply :=
  let r1 :=
    place_limit_order pol "T" "S1" Sell 100 10
      (empty_world stopped_clock)
      (register_trade_callback 7%nat engine_T) in
  place_limit_order pol "T" "S2" Sell 100 10 (r_world r1) (r_engine r1).

Definition tied_buy (pol : EqualKeyOrder) : Reply :=
  place_limit_order pol "T" "B1" Buy 200 10
    (r_world (tied_sells pol)) (r_engine (tied_sells pol)).

(** ** The states the engine can reach *)

(** The engine starts without books or callbacks; books and callbacks
    are added and orders are placed and cancelled through its
    interface. *)
Inductive engine_reachable (pol : EqualKeyOrder)
    : World -> MatchingEngine -> Prop :=
  | eng_new w :
      world_ok w -> engine_reachable pol w new_engine
  | eng_add_order_book w e sym :
      engine_reachable pol w e ->
      engine_reachable pol w (add_order_book sym e)
  | eng_register w e cb :
      engine_reachable pol w e ->
      engine_reachable pol w (register_trade_callback cb e)
  | eng_place_limit w e sym id s sz prc :
      engine_reachable pol w e -> u64 sz ->
      engine_reachable pol
        (r_world (place_limit_order pol sym id s sz prc w e))
        (r_engine (place_limit_order pol sym id s sz prc w e))
  | eng_place_market w e sym id s sz :
      engine_reachable pol w e -> u64 sz ->
      engine_reachable pol
        (r_world (place_market_order sym id s sz w e))
        (r_engine (place_market_order sym id s sz w e))
  | eng_cancel w e id :
      engine_reachable pol w e ->
      engine_reachable pol
        (engine_cancel_order id w e).1.2 (engine_cancel_order id w e).2.

(** The id ["B1"] used a second time, for a buy order of 50 at 9 in a
    second book ["O"], after the first ["B1"] was filled completely in
    ["T"]. *)
Definition reused_id (pol : EqualKeyOrder) : Reply :=
  place_limit_order pol "O" "B1" Buy 50 9
    (r_world (full_fill pol)) (add_order_book "O" (r_engine (full_fill pol))).

(** The same the other way round: ["B1"] rests in ["O"] first, and then
    a second ["B1"] is filled completely in ["T"]. *)
Definition reused_id_later (pol : EqualKeyOrder) : Reply :=
  let r1 := one_sell pol in
  let r2 :=
    place_limit_order pol "O" "B1" Buy 50 9
      (r_world r1) (add_order_book "O" (r_engine r1)) in
  place_limit_order pol "T" "B1" Buy 100 10 (r_world r2) (r_engine r2).

(** Scenario S6 of the specification carried out through the engine. *)
Definition engine_dup (pol : EqualKeyOrder) : Reply :=
  let r1 := place_limit_order pol "T" "U" Buy 100 10 world_0 engine_T in
  place_limit_order pol "T" "U" Buy 200 11 (r_world r1) (r_engine r1).

(** ** The scenarios of the test programs *)

(** A store holding the given orders at the addresses 0, 1, 2, ... *)
Definition world_of (os : list Order) : World :=
  mkWorld (fun q => nth q os (limit_order "" Buy "" 0 0%Q 0))
    (length os) counting_clock 0%nat.

(** [add_order] for each of the addresses in turn. *)
Definition add_orders (pol : EqualKeyOrder) (ps : list ptr)
    (wb : World * OrderBook) : World * OrderBook :=
  foldl (fun wb p => add_order pol p wb.1 wb.2) wb ps.

(** "Price-Time Priority Complex Scenario" of [advanced_tests.cpp]
    (scenario S7 of the specification). *)
Definition s7_orders : list Order :=
  [limit_order "BUY1" Buy "TEST" 100 10 1000000;
   limit_order "BUY2" Buy "TEST" 100 10 1000001;
   limit_order "BUY3" Buy "TEST" 100 11 1000002;
   limit_order "BUY4" Buy "TEST" 100 9 1000003;
   limit_order "SELL1" Sell "TEST" 250 9 1000004].

Definition s7_result (pol : EqualKeyOrder)
    : list Trade * World * OrderBook :=
  let wb :=
    add_orders pol [0; 1; 2; 3]%nat (world_of s7_orders, new_book "TEST") in
  match_order 4%nat wb.1 wb.2.

(** "Market Orders with Insufficient Liquidity" of [advanced_tests.cpp]
    (scenario S4). *)
Definition s4_orders : list Order :=
  [limit_order "BUY1" Buy "TEST" 100 10 1000000;
   limit_order "BUY2" Buy "TEST" 100 9 1000001;
   market_order "SELL1" Sell "TEST" 300 1000002].

Definition s4_result (pol : EqualKeyOrder)
    : list Trade * World * OrderBook :=
  let wb :=
    add_orders pol [0; 1]%nat (world_of s4_orders, new_book "TEST") in
  match_order 2%nat wb.1 wb.2.

(** The earlier revision of the book with a sell order of 100 at 10
    resting, matched with a buy order of 150 at 10. *)
Definition legacy_orders : list Order :=
  [limit_order "SELL1" Sell "TEST" 100 10 1;
   limit_order "BUY1" Buy "TEST" 150 10 2].

Definition legacy_match_result : list Trade * World * Legacy.OrderBook :=
  let wb := Legacy.add_order 0%nat (world_of legacy_orders)
              (Legacy.new_book "TEST") in
  Legacy.match_order 1%nat wb.1 wb.2.

(** An index with 30 entries of other keys. *)
Definition thirty_keys : list (string * nat) :=
  map (fun i => (String (Ascii.ascii_of_nat (97 + i)) "", (100 + i)%nat)) (seq 0 30).

(** ** The rest of the interface of the book and of the engine *)

(** [OrderBook::get_symbol]. *)
Definition get_symbol (b : OrderBook) : string := symbol_ b.

(** [OrderBook::volume_at_price]: the loop over the side, which adds up
    with the wrap-around of [uint64_t]. *)
Definition volume_at_price (s : OrderSide) (prc : Q) (w : World)
    (b : OrderBook) : Z :=
  foldl (fun volume p =>
           if price_eq (price (heap w p)) prc
           then wrap64 (volume + remaining_size (heap w p))
           else volume)
    0 (side_orders s b).

(** [OrderBook::get_all_orders]: the two sides as they are. *)
Definition get_all_orders (b : OrderBook) : list ptr * list ptr :=
  (buy_orders_ b, sell_orders_ b).

(** [OrderBook::remove_filled_orders], which nothing calls in this
    revision: [std::remove_if] followed by [erase] on both sides. *)
Definition remove_filled_orders (w : World) (b : OrderBook) : OrderBook :=
  let keep :=
    filter (fun q => is_filled (heap w q)
                     || bool_decide (status (heap w q) = Cancelled) = false) in
  mkBook (symbol_ b) (keep (buy_orders_ b)) (keep (sell_orders_ b))
    (order_map_ b) (last_update_time_ b).

(** [MatchingEngine::get_all_order_books].  The order in which a
    [std::unordered_map] is run through is unspecified; what is proved
    about the result does not depend on it. *)
Definition get_all_order_books (e : MatchingEngine) : list OrderBook :=
  (map_to_list (order_books_ e)).*2.

(** [BuyOrderComparator] and [SellOrderComparator] of [order_book.hpp]. *)
Definition BuyOrderComparator (h : ptr -> Order) (lhs rhs : ptr) : bool :=
  if price_eq (price (h lhs)) (price (h rhs))
  then timestamp (h lhs) >? timestamp (h rhs)
  else price_lt (price (h lhs)) (price (h rhs)).

Definition SellOrderComparator (h : ptr -> Order) (lhs rhs : ptr) : bool :=
  if price_eq (price (h lhs)) (price (h rhs))
  then timestamp (h lhs) >? timestamp (h rhs)
  else price_lt (price (h rhs)) (price (h lhs)).

(** ** Sizes and volumes *)

(** The sizes of the trades of a list added up. *)
Definition total_size (ts : list Trade) : Z :=
  foldr (fun t n => trade_size t + n) 0 ts.

(** The trades of a list made at the price [prc]. *)
Definition trades_at (prc : Q) (ts : list Trade) : list Trade :=
  filter (fun t => price_eq (trade_price t) prc = true) ts.

(** What the orders of [l] priced at [prc] have left to fill, added up
    without the wrap-around. *)
Definition side_volume (h : ptr -> Order) (prc : Q) (l : list ptr) : Z :=
  foldr (fun q n =>
           (if price_eq (price (h q)) prc then remaining_size (h q) else 0)
           + n) 0 l.

(** The books of the two scenarios before the incoming order is
    matched. *)
Definition s7_book (pol : EqualKeyOrder) : World * OrderBook :=
  add_orders pol [0; 1; 2; 3]%nat (world_of s7_orders, new_book "TEST").

Definition s4_book (pol : EqualKeyOrder) : World * OrderBook :=
  add_orders pol [0; 1]%nat (world_of s4_orders, new_book "TEST").

(** ** Properties of the states of the engine *)


(** The status [Order::fill] leaves behind. *)
Definition fill_status (o : Order) : Prop :=
  (status o = Filled /\ is_filled o = true) \/
  (status o = PartiallyFilled /\ is_filled o = false).

(** The status of an order that rests: it is as the constructor made it
    and nothing is filled, or a fill left it partly filled. *)
Definition resting_status (o : Order) : Prop :=
  (status o = New /\ filled_size o = 0) \/
  (status o = PartiallyFilled /\ is_filled o = false).

(** A buy order of 50 at 9 placed while the sell order of 100 at 10
    rests: it rests too. *)
Definition two_sided (pol : EqualKeyOrder) : Reply :=
  place_limit_order pol "T" "B1" Buy 50 9
    (r_world (one_sell pol)) (r_engine (one_sell pol)).

(** The engine of [one_sell] with a second book ["O"]. *)
Definition two_books (pol : EqualKeyOrder) : MatchingEngine :=
  add_order_book "O" (r_engine (one_sell pol)).

(** The engine of the earlier revision with the book ["T"]; a buy order
    ["X"] of 100 at 10 placed in it, which rests; and then a market buy
    order placed under the same id ["X"]. *)
Definition legacy_engine_T : Legacy.MatchingEngine :=
  Legacy.add_order_book "T" Legacy.new_engine.

Definition legacy_resting_x : Legacy.Reply :=
  Legacy.place_limit_order "T" "X" Buy 100 10 world_0 legacy_engine_T.

Definition legacy_market_x : Legacy.Reply :=
  Legacy.place_market_order "T" "X" Buy 50
    (Legacy.r_world legacy_resting_x) (Legacy.r_engine legacy_resting_x).

(** The book of [legacy_match_result] before the buy order is matched. *)
Definition legacy_book : World * Legacy.OrderBook :=
  Legacy.add_order 0%nat (world_of legacy_orders) (Legacy.new_book "TEST").

(** Every id filed in a book is filed in the id index of the engine
    under the symbol of that book, at least as many times. *)
Definition index_covers (e : MatchingEngine) : Prop :=
  forall sym b id, order_books_ e !! sym = Some b ->
    (length (mm_equal_range id (order_map_ b))
     <= length (filter (eq sym)
                  (mm_equal_range id (order_id_to_symbol_ e))))%nat.

(** ** main.cpp: the ids of the demonstration *)

(** A string right-justified in a field of [width] characters filled
    with ['0']: what [std::setfill('0')] and [std::setw(width)] make of
    the next value written to the stream. *)
Fixpoint zeros (n : nat) : string :=
  match n with
  | O => ""
  | S k => String "0"%char (zeros k)
  end.

Definition setw_fill0 (width : nat) (s : string) : string :=
  zeros (width - String.length s) +:+ s.

Definition INT_MAX : Z := 2 ^ 31 - 1.

(** [generate_order_id]: the static [int counter] is the state, given
    and returned.  Incrementing an [int] that holds [INT_MAX] is
    undefined behaviour: there is no result for it. *)
Definition generate_order_id (counter : Z) : option (string * Z) :=
  if decide (counter < INT_MAX) then
    Some ("ORD" +:+ setw_fill0 6 (pretty (counter + 1)), counter + 1)
  else None.

(** The ids of the first [n] calls, the counter starting at [counter]. *)
Fixpoint generate_order_ids (n : nat) (counter : Z) : list string :=
  match n with
  | O => []
  | S k =>
      match generate_order_id counter with
      | Some (id, c) => id :: generate_order_ids k c
      | None => []
      end
  end.

(** A sell order that was filled completely and then added to the book
    all the same, as the order-matching benchmark does with an order
    that has traded; the loop of [match_order] about to run for a buy
    order of 50 at 10. *)
Definition filled_orders : list Order :=
  [fill (limit_order "SELL1" Sell "TEST" 100 10 1) 100;
   limit_order "BUY1" Buy "TEST" 50 10 2].

Definition filled_maker_state : MatchState :=
  let wb := add_order InsertionOrder 0%nat (world_of filled_orders)
              (new_book "TEST") in
  mkMatch wb.1 wb.2 [].

(** * Properties *)

(** ** Arithmetic and store lemmas *)

Lemma wrap64_range z : u64 (wrap64 z).
Proof. unfold u64, wrap64, two64. apply Z.mod_pos_bound. lia. Qed.

Lemma wrap64_small z : u64 z -> wrap64 z = z.
Proof. unfold u64, wrap64. intros H. apply Z.mod_small. exact H. Qed.

Lemma wrap64_sub_wrap a b : wrap64 (a - wrap64 b) = wrap64 (a - b).
Proof. unfold wrap64. apply Zminus_mod_idemp_r. Qed.

Lemma price_eq_spec a b : price_eq a b = true <-> (a == b)%Q.
Proof. apply Qeq_bool_iff. Qed.

Lemma price_le_spec a b : price_le a b = true <-> (a <= b)%Q.
Proof. apply Qle_bool_iff. Qed.

Lemma price_lt_spec a b : price_lt a b = true <-> (a < b)%Q.
Proof.
  unfold price_lt. rewrite negb_true_iff.
  split.
  - intros H. apply Qnot_le_lt. intros Hle.
    apply Qle_bool_iff in Hle. congruence.
  - intros H. destruct (Qle_bool b a) eqn:E; [|reflexivity].
    apply Qle_bool_iff in E. exfalso. exact (Qlt_not_le _ _ H E).
Qed.

Lemma fill_fields o n :
  order_id (fill o n) = order_id o /\ side (fill o n) = side o /\
  type (fill o n) = type o /\ symbol (fill o n) = symbol o /\
  size (fill o n) = size o /\ price (fill o n) = price o /\
  timestamp (fill o n) = timestamp o /\
  filled_size (fill o n) = wrap64 (filled_size o + n).
Proof. unfold fill. destruct (is_filled _); simpl; repeat split. Qed.

Lemma fill_ok o n : order_ok o -> order_ok (fill o n).
Proof.
  intros (Hs & _ & Ht). destruct (fill_fields o n) as (_&_&_&_&E1&_&E2&E3).
  unfold order_ok. rewrite E1, E2, E3. auto using wrap64_range.
Qed.

Lemma remaining_size_range o : u64 (remaining_size o).
Proof. apply wrap64_range. Qed.

(** What one fill does to the remaining quantity: as long as the amount
    does not exceed it, the remaining quantity drops by exactly the
    amount, whatever the fields held (the unsigned arithmetic agrees). *)
Lemma remaining_size_fill o n :
  0 <= n <= remaining_size o ->
  remaining_size (fill o n) = remaining_size o - n.
Proof.
  intros Hn. destruct (fill_fields o n) as (_&_&_&_&E1&_&_&E3).
  unfold remaining_size in *. rewrite E1, E3.
  rewrite wrap64_sub_wrap.
  replace (size o - (filled_size o + n))
    with ((size o - filled_size o) - n) by lia.
  pose proof (wrap64_range (size o - filled_size o)) as Hr.
  unfold wrap64 in *. rewrite <- Zminus_mod_idemp_l.
  apply Z.mod_small. unfold u64 in Hr. lia.
Qed.

Lemma is_filled_false o : is_filled o = false <-> filled_size o < size o.
Proof. unfold is_filled. rewrite Z.leb_gt. reflexivity. Qed.

Lemma is_filled_true o : is_filled o = true <-> size o <= filled_size o.
Proof. unfold is_filled. apply Z.leb_le. Qed.

Lemma upd_same h p o : upd h p o p = o.
Proof. unfold upd. destruct (decide (p = p)); congruence. Qed.

Lemma upd_other h p o q : q <> p -> upd h p o q = h q.
Proof. unfold upd. intros H. destruct (decide (q = p)); congruence. Qed.

(** ** Order::fill *)

(** C8 (what the code does where the claim wants an error): [Order::fill]
    has no test of the amount against the remaining quantity and no error
    path.  Filling an order of size 10 by 11 is carried out silently: the
    order ends up with [filled_size = 11 > size], status [Filled], and a
    remaining quantity that has wrapped around to [2^64 - 1]. *)
Theorem fill_beyond_remaining_is_silent :
  let o := limit_order "ORD1" Buy "TEST" 10 10 1 in
  remaining_size o = 10 /\
  fill o 11 = mkOrder "ORD1" Buy Limit "TEST" 10 11 10 1 Filled /\
  remaining_size (fill o 11) = two64 - 1.
Proof. vm_compute. auto. Qed.

(** The general form: any amount is accepted, and an amount beyond the
    remaining quantity leaves [filled_size] above [size]. *)
Lemma fill_beyond_remaining o n :
  order_ok o -> filled_size o <= size o ->
  remaining_size o < n -> filled_size o + n < two64 ->
  size o < filled_size (fill o n) /\ status (fill o n) = Filled.
Proof.
  intros (Hs & Hf & _) Hle Hn Hb.
  unfold remaining_size in Hn. rewrite wrap64_small in Hn
    by (unfold u64 in *; lia).
  assert (E : wrap64 (filled_size o + n) = filled_size o + n)
    by (apply wrap64_small; unfold u64 in *; lia).
  unfold fill. simpl.
  destruct (is_filled _) eqn:F; simpl.
  - split; [rewrite E; lia | reflexivity].
  - apply is_filled_false in F. simpl in F. rewrite E in F. lia.
Qed.

(** ** One execution of the matching loop *)

(** What a turn of the loop that executes does, spelled out. *)
Lemma match_body_Some p st st' :
  match_body p st = Some st' ->
  let w := m_world st in
  let opp := opposite (side (heap w p)) in
  exists m rest,
    side_orders opp (m_book st) = m :: rest /\
    is_filled (heap w p) = false /\
    let f := Z.min (remaining_size (heap w p)) (remaining_size (heap w m)) in
    let h1 := upd (heap w) p (fill (heap w p) f) in
    let h2 := upd h1 m (fill (h1 m) f) in
    heap (m_world st') = h2 /\
    brk (m_world st') = brk w /\
    clock (m_world st') = clock w /\
    ticks (m_world st') = S (ticks w) /\
    m_trades st' =
      m_trades st ++
      [match side (h2 p) with
       | Buy => mkTrade (order_id (h2 p)) (order_id (h2 m)) f
                  (price (heap w m)) (wrap64 (clock w (ticks w)))
       | Sell => mkTrade (order_id (h2 m)) (order_id (h2 p)) f
                   (price (heap w m)) (wrap64 (clock w (ticks w)))
       end] /\
    m_book st' =
      (if is_filled (h2 m) then
         set_order_map (mm_erase (order_id (h2 m)) m (order_map_ (m_book st)))
           (set_side_orders opp rest (m_book st))
       else m_book st).
Proof.
  unfold match_body. intros H. cbv zeta.
  destruct (side_orders _ (m_book st)) as [|m rest]; [discriminate|].
  destruct (is_filled (heap (m_world st) p)) eqn:F; [discriminate|].
  destruct (_ || _); [|discriminate].
  injection H as <-. exists m, rest. simpl. repeat split; reflexivity.
Qed.

(** A turn of the loop of [match_order] that executes the incoming order
    [p] against the head maker [m] of the contra side records one trade
    whose size is the minimum of the two remaining quantities read before
    the fill and whose price is the maker's price, and leaves each of the
    two orders with its remaining quantity reduced by exactly that
    size. *)
Lemma match_turn_exact p st st' m rest :
  side_orders (opposite (side (heap (m_world st) p))) (m_book st)
    = m :: rest ->
  p <> m ->
  match_body p st = Some st' ->
  exists t,
    m_trades st' = m_trades st ++ [t] /\
    trade_size t =
      Z.min (remaining_size (heap (m_world st) p))
            (remaining_size (heap (m_world st) m)) /\
    trade_price t = price (heap (m_world st) m) /\
    remaining_size (heap (m_world st') p) =
      remaining_size (heap (m_world st) p) - trade_size t /\
    remaining_size (heap (m_world st') m) =
      remaining_size (heap (m_world st) m) - trade_size t.
Proof.
  intros Hopp Hne H.
  apply match_body_Some in H. cbv zeta in H.
  destruct H as (m' & rest' & Hopp' & _ & Hh & _ & _ & _ & Ht & _).
  rewrite Hopp in Hopp'. injection Hopp' as <- <-.
  set (w := m_world st) in *.
  set (f := Z.min (remaining_size (heap w p)) (remaining_size (heap w m)))
    in *.
  pose proof (remaining_size_range (heap w p)) as Rp.
  pose proof (remaining_size_range (heap w m)) as Rm.
  unfold u64 in Rp, Rm.
  assert (Hp : heap (m_world st') p = fill (heap w p) f).
  { rewrite Hh. rewrite upd_other by exact Hne. apply upd_same. }
  assert (Hm : heap (m_world st') m = fill (heap w m) f).
  { rewrite Hh. rewrite upd_same. rewrite upd_other by congruence.
    reflexivity. }
  eexists. split; [exact Ht|].
  match goal with
  | |- context [match ?s with Buy => _ | Sell => _ end] => destruct s
  end; simpl; (split; [reflexivity|]); (split; [reflexivity|]);
    rewrite Hp, Hm; split; apply remaining_size_fill; lia.
Qed.



(** ** Lists, multimaps and sorting *)

Lemma erase_first_notin p l : p ∉ l -> erase_first p l = l.
Proof.
  induction l as [|q t IH]; simpl; [reflexivity|].
  intros H. apply not_elem_of_cons in H as [H1 H2].
  destruct (decide (q = p)); [congruence|]. by rewrite IH.
Qed.

Lemma erase_first_perm p l : p ∈ l -> l ≡ₚ p :: erase_first p l.
Proof.
  induction l as [|q t IH]; simpl; intros H.
  - by apply elem_of_nil in H.
  - destruct (decide (q = p)) as [->|Hne]; [reflexivity|].
    apply elem_of_cons in H as [->|H]; [congruence|].
    rewrite (IH H) at 1. apply Permutation_swap.
Qed.

Lemma erase_first_sublist p l : erase_first p l `sublist_of` l.
Proof.
  induction l as [|q t IH]; simpl; [reflexivity|].
  destruct (decide (q = p)).
  - by apply sublist_cons.
  - by apply sublist_skip.
Qed.

Lemma erase_first_middle p l1 l2 :
  p ∉ l1 -> erase_first p (l1 ++ p :: l2) = l1 ++ l2.
Proof.
  induction l1 as [|q t IH]; simpl; intros H.
  - destruct (decide (p = p)); congruence.
  - apply not_elem_of_cons in H as [H1 H2].
    destruct (decide (q = p)); [congruence|]. by rewrite IH.
Qed.

Lemma StronglySorted_sublist_of {A} (R : A -> A -> Prop) l1 l2 :
  l1 `sublist_of` l2 -> StronglySorted R l2 -> StronglySorted R l1.
Proof.
  induction 1 as [|x l1 l2 Hs IH|x l1 l2 Hs IH]; intros H.
  - constructor.
  - apply StronglySorted_inv in H as [H1 H2].
    constructor; [by apply IH|].
    rewrite Forall_forall in *. intros y Hy. apply H2.
    by eapply elem_of_sublist.
  - apply StronglySorted_inv in H as [H1 H2]. by apply IH.
Qed.

Section multimap_facts.
Context {K V : Type} `{EqDecision K} `{EqDecision V}.
Implicit Types (m : list (K * V)) (k : K) (v : V).

Lemma insert_after_first_perm k v m :
  insert_after_first k v m ≡ₚ (k, v) :: m.
Proof.
  induction m as [|[k' v'] m IH]; simpl; [reflexivity|].
  destruct (decide (k' = k)); [apply Permutation_swap|].
  rewrite IH. apply Permutation_swap.
Qed.

Lemma mm_insert_perm pol k v m : mm_insert pol k v m ≡ₚ (k, v) :: m.
Proof.
  destruct pol; simpl.
  - by rewrite Permutation_app_comm.
  - reflexivity.
  - destruct (length m <=? 20)%nat; [apply insert_after_first_perm|done].
Qed.

Lemma mm_equal_range_insert_after_first k v m :
  mm_equal_range k (insert_after_first k v m)
    = match mm_equal_range k m with
      | [] => [v]
      | v0 :: vs => v0 :: v :: vs
      end.
Proof.
  induction m as [|[k' v'] m IH]; simpl.
  - destruct (decide (k = k)); congruence.
  - destruct (decide (k' = k)) as [->|Hne]; simpl.
    + destruct (decide (k = k)); [|congruence]. simpl.
      destruct (decide (k = k)); congruence.
    + destruct (decide (k' = k)); [congruence|]. exact IH.
Qed.

Lemma insert_after_first_none k v m :
  mm_equal_range k m = [] -> insert_after_first k v m = m ++ [(k, v)].
Proof.
  induction m as [|[k' v'] m IH]; simpl; [done|].
  destruct (decide (k' = k)); [discriminate|]. intros H. by rewrite IH.
Qed.

Lemma mm_equal_range_insert_after_first_other k k' v m :
  k' <> k ->
  mm_equal_range k (insert_after_first k' v m) = mm_equal_range k m.
Proof.
  intros Hne. induction m as [|[k2 v2] m IH]; simpl.
  - destruct (decide (k' = k)); congruence.
  - destruct (decide (k2 = k')) as [->|Hk]; simpl.
    + destruct (decide (k' = k)); [congruence|]. simpl.
      destruct (decide (k' = k)); congruence.
    + destruct (decide (k2 = k)); by rewrite IH.
Qed.

Lemma elem_of_mm_equal_range k v m :
  v ∈ mm_equal_range k m <-> (k, v) ∈ m.
Proof.
  induction m as [|[k' v'] m IH]; simpl.
  - split; intros H; by apply elem_of_nil in H.
  - destruct (decide (k' = k)) as [->|Hne].
    + rewrite !elem_of_cons, IH. split; intros [E|E]; auto; left; congruence.
    + rewrite IH, elem_of_cons. split; [auto|]. intros [E|E]; congruence.
Qed.

Lemma mm_equal_range_insert_same k v m :
  mm_equal_range k (mm_insert InsertionOrder k v m)
    = mm_equal_range k m ++ [v].
Proof.
  simpl. induction m as [|[k' v'] m IH]; simpl.
  - destruct (decide (k = k)); congruence.
  - destruct (decide (k' = k)); simpl; by rewrite IH.
Qed.

Lemma mm_equal_range_insert_front k v m :
  mm_equal_range k (mm_insert NewestFirst k v m) = v :: mm_equal_range k m.
Proof. simpl. destruct (decide (k = k)); congruence. Qed.

Lemma mm_equal_range_insert_other pol k k' v m :
  k' <> k ->
  mm_equal_range k (mm_insert pol k' v m) = mm_equal_range k m.
Proof.
  intros Hne. destruct pol; simpl.
  - induction m as [|[k2 v2] m IH]; simpl.
    + destruct (decide (k' = k)); congruence.
    + destruct (decide (k2 = k)); simpl; by rewrite IH.
  - destruct (decide (k' = k)); congruence.
  - destruct (length m <=? 20)%nat.
    + by apply mm_equal_range_insert_after_first_other.
    + simpl. destruct (decide (k' = k)); congruence.
Qed.

Lemma mm_erase_perm k v m :
  (k, v) ∈ m -> m ≡ₚ (k, v) :: mm_erase k v m.
Proof.
  induction m as [|[k' v'] m IH]; simpl; intros H.
  - by apply elem_of_nil in H.
  - destruct (decide (k' = k)) as [->|Hk].
    + destruct (decide (v' = v)) as [->|Hv]; [reflexivity|].
      apply elem_of_cons in H as [H|H]; [congruence|].
      rewrite (IH H) at 1. apply Permutation_swap.
    + apply elem_of_cons in H as [H|H]; [congruence|].
      rewrite (IH H) at 1. apply Permutation_swap.
Qed.

Lemma mm_erase_notin k v m : (k, v) ∉ m -> mm_erase k v m = m.
Proof.
  induction m as [|[k' v'] m IH]; simpl; intros H; [reflexivity|].
  apply not_elem_of_cons in H as [H1 H2].
  destruct (decide (k' = k)) as [->|Hk].
  - destruct (decide (v' = v)) as [->|Hv]; [congruence|]. by rewrite IH.
  - by rewrite IH.
Qed.

Lemma mm_erase_sublist k v m : mm_erase k v m `sublist_of` m.
Proof.
  induction m as [|[k' v'] m IH]; simpl; [reflexivity|].
  destruct (decide (k' = k)).
  - destruct (decide (v' = v)); [by apply sublist_cons|by apply sublist_skip].
  - by apply sublist_skip.
Qed.

(** Erasing the entry that [equal_range] shows first leaves the rest of
    the range, in order. *)
Lemma mm_equal_range_erase_head k v vs m :
  mm_equal_range k m = v :: vs ->
  mm_equal_range k (mm_erase k v m) = vs.
Proof.
  induction m as [|[k' v'] m IH]; simpl; [discriminate|].
  destruct (decide (k' = k)) as [->|Hk].
  - intros [= -> <-]. destruct (decide (v = v)); congruence.
  - intros H. simpl. destruct (decide (k' = k)); [congruence|]. by apply IH.
Qed.

Lemma mm_equal_range_erase_other k k' v m :
  k' <> k -> mm_equal_range k (mm_erase k' v m) = mm_equal_range k m.
Proof.
  intros Hne. induction m as [|[k2 v2] m IH]; simpl; [reflexivity|].
  destruct (decide (k2 = k')) as [->|Hk].
  - destruct (decide (v2 = v)) as [->|Hv].
    + destruct (decide (k' = k)); congruence.
    + simpl. destruct (decide (k' = k)); [congruence|]. exact IH.
  - simpl. destruct (decide (k2 = k)); by rewrite IH.
Qed.

(** With one insertion the entry goes in, with one erasure of the same
    entry it goes out again, when no entry of its key was there. *)
Lemma mm_erase_push_back k v m :
  mm_equal_range k m = [] -> mm_erase k v (m ++ [(k, v)]) = m.
Proof.
  induction m as [|[k' v'] m IH]; simpl.
  - destruct (decide (k = k)); [|congruence].
    destruct (decide (v = v)); congruence.
  - destruct (decide (k' = k)); [discriminate|].
    intros H. by rewrite IH.
Qed.

Lemma mm_erase_push_front k v m : mm_erase k v ((k, v) :: m) = m.
Proof.
  simpl. destruct (decide (k = k)); [|congruence].
  destruct (decide (v = v)); congruence.
Qed.

Lemma mm_erase_insert pol k v m :
  mm_equal_range k m = [] -> mm_erase k v (mm_insert pol k v m) = m.
Proof.
  intros H. destruct pol; unfold mm_insert.
  - by apply mm_erase_push_back.
  - apply mm_erase_push_front.
  - destruct (length m <=? 20)%nat; [|apply mm_erase_push_front].
    rewrite insert_after_first_none by done. by apply mm_erase_push_back.
Qed.
End multimap_facts.

(** The order in which [equal_range] shows the entries of one key, as
    libstdc++ 12 gives it for a key of type [std::string]: three entries
    put into a small table; the first of them erased and a fourth put in;
    three entries put into a table of more than 20 entries; one entry put
    in while the table is small and one when it has grown. *)
Example libstdcxx_equal_range_order :
  let ins : nat -> list (string * nat) -> list (string * nat) :=
    mm_insert Libstdcxx "U" in
  (mm_equal_range "U" (ins 3 (ins 2 (ins 1 []))) = [1; 3; 2] /\
   mm_equal_range "U" (ins 4 (mm_erase "U" 1 (ins 3 (ins 2 (ins 1 [])))))
     = [3; 4; 2] /\
   mm_equal_range "U" (ins 3 (ins 2 (ins 1 thirty_keys))) = [3; 2; 1] /\
   mm_equal_range "U" (ins 2 (thirty_keys ++ ins 1 [])) = [2; 1])%nat.
Proof. vm_compute. auto. Qed.

Section sort_facts.
Context {A : Type} (before : A -> A -> bool).
Hypothesis before_asym :
  forall a b, before a b = true -> before b a = false.
Hypothesis before_negtrans :
  forall a b c, before a b = false -> before b c = false ->
                before a c = false.

Let ordered := StronglySorted (fun a b => before b a = false).

Lemma sort_insert_perm a l : sort_insert before a l ≡ₚ a :: l.
Proof.
  induction l as [|y t IH]; simpl; [reflexivity|].
  destruct (before y a); [|reflexivity].
  rewrite IH. apply Permutation_swap.
Qed.

Lemma sort_perm l : sort before l ≡ₚ l.
Proof.
  induction l as [|a l IH]; simpl; [reflexivity|].
  fold (sort before l). by rewrite sort_insert_perm, IH.
Qed.

Lemma sort_insert_ordered a l :
  ordered l -> ordered (sort_insert before a l).
Proof.
  unfold ordered.
  induction l as [|y t IH]; simpl; intros H.
  - repeat constructor.
  - apply StronglySorted_inv in H as [H1 H2].
    destruct (before y a) eqn:E.
    + constructor; [by apply IH|].
      rewrite Forall_forall in *. intros z Hz.
      rewrite sort_insert_perm in Hz.
      apply elem_of_cons in Hz as [->|Hz]; [by apply before_asym|by apply H2].
    + constructor; [by constructor|].
      constructor; [exact E|].
      rewrite Forall_forall in *. intros z Hz.
      apply (before_negtrans z y a); [by apply H2|exact E].
Qed.

Lemma sort_ordered l : ordered (sort before l).
Proof.
  induction l as [|a l IH]; simpl; [constructor|].
  by apply sort_insert_ordered.
Qed.

(** Sorting an ordered sequence with one element pushed at its back
    puts that element somewhere and moves nothing else. *)
Lemma sort_push_back l x :
  ordered l ->
  exists l1 l2, l = l1 ++ l2 /\ sort before (l ++ [x]) = l1 ++ x :: l2.
Proof.
  unfold ordered.
  induction l as [|a l IH]; simpl; intros H.
  - by exists [], [].
  - apply StronglySorted_inv in H as [H1 H2].
    destruct (IH H1) as (l1 & l2 & -> & E).
    fold (sort before) in *. rewrite E.
    destruct l1 as [|y l1]; simpl.
    + destruct (before x a) eqn:Ex.
      * exists [], (a :: l2). split; [reflexivity|]. simpl.
        f_equal. destruct l2 as [|z l2]; simpl; [reflexivity|].
        apply Forall_cons in H2 as [Hz _]. simpl in Hz. by rewrite Hz.
      * exists [a], l2. by split.
    + apply Forall_cons in H2 as [Hy _]. rewrite Hy.
      exists (a :: y :: l1), l2. by split.
Qed.
End sort_facts.

(** ** The two comparisons *)

Lemma price_eq_false a b : price_eq a b = false <-> ~ (a == b)%Q.
Proof.
  rewrite <- price_eq_spec. destruct (price_eq a b); split; congruence.
Qed.

Lemma price_lt_false a b : price_lt a b = false <-> (b <= a)%Q.
Proof.
  unfold price_lt. rewrite negb_false_iff. apply Qle_bool_iff.
Qed.

Ltac reflect_comparisons :=
  repeat match goal with
  | H : price_eq _ _ = true |- _ => apply price_eq_spec in H
  | H : price_eq _ _ = false |- _ => apply price_eq_false in H
  | H : price_lt _ _ = true |- _ => apply price_lt_spec in H
  | H : price_lt _ _ = false |- _ => apply price_lt_false in H
  | H : (_ <? _) = true |- _ => apply Z.ltb_lt in H
  | H : (_ <? _) = false |- _ => apply Z.ltb_ge in H
  | |- price_lt _ _ = true => apply price_lt_spec
  | |- price_lt _ _ = false => apply price_lt_false
  | |- (_ <? _) = true => apply Z.ltb_lt
  | |- (_ <? _) = false => apply Z.ltb_ge
  end.

Ltac solve_comparison :=
  reflect_comparisons;
  first [ discriminate | lia | lra | (exfalso; lra) | (exfalso; lia) ].

Lemma side_before_asym s h a b :
  side_before s h a b = true -> side_before s h b a = false.
Proof.
  destruct s; unfold side_before, buy_before, sell_before;
    destruct (price_eq (price (h a)) (price (h b))) eqn:E1;
    destruct (price_eq (price (h b)) (price (h a))) eqn:E2;
    simpl; intros H; solve_comparison.
Qed.

Lemma side_before_negtrans s h a b c :
  side_before s h a b = false -> side_before s h b c = false ->
  side_before s h a c = false.
Proof.
  destruct s; unfold side_before, buy_before, sell_before;
    destruct (price_eq (price (h a)) (price (h b))) eqn:E1;
    destruct (price_eq (price (h b)) (price (h c))) eqn:E2;
    destruct (price_eq (price (h a)) (price (h c))) eqn:E3;
    simpl; intros H1 H2; solve_comparison.
Qed.

(** The comparisons read prices and timestamps only. *)
Lemma side_before_ext s h h' a b :
  price (h' a) = price (h a) -> timestamp (h' a) = timestamp (h a) ->
  price (h' b) = price (h b) -> timestamp (h' b) = timestamp (h b) ->
  side_before s h' a b = side_before s h a b.
Proof.
  intros E1 E2 E3 E4.
  destruct s; unfold side_before, buy_before, sell_before;
    by rewrite E1, E2, E3, E4.
Qed.

Lemma sorted_side_ext s h h' l :
  (forall q, q ∈ l -> price (h' q) = price (h q) /\
                      timestamp (h' q) = timestamp (h q)) ->
  sorted_side s h l -> sorted_side s h' l.
Proof.
  unfold sorted_side, higher_priority.
  induction l as [|a l IH]; intros Hext H; [constructor|].
  apply StronglySorted_inv in H as [H1 H2].
  constructor.
  - apply IH; [|exact H1]. intros q Hq. apply Hext. by right.
  - rewrite Forall_forall in *. intros q Hq.
    destruct (Hext a) as [? ?]; [by left|].
    destruct (Hext q) as [? ?]; [by right|].
    rewrite (side_before_ext s h h') by assumption. by apply H2.
Qed.

(** In a sorted side an order that comes earlier never has strictly
    lower priority than one that comes later. *)
Lemma sorted_side_lookup s h l i j a b :
  sorted_side s h l -> l !! i = Some a -> l !! j = Some b -> (i < j)%nat ->
  higher_priority s h b a = false.
Proof.
  unfold sorted_side. intros H. revert i j.
  induction H as [|x l Hs IH Hall]; intros i j Hi Hj Hlt.
  - by rewrite lookup_nil in Hi.
  - destruct j as [|j]; [lia|]. simpl in Hj.
    destruct i as [|i]; simpl in Hi.
    + injection Hi as ->. rewrite Forall_forall in Hall. apply Hall.
      by eapply list_elem_of_lookup_2.
    + apply (IH i j); [done|done|lia].
Qed.

(** ** Projections of the book operations *)

Lemma resting_sides b : resting b = side_orders Buy b ++ side_orders Sell b.
Proof. reflexivity. Qed.

Lemma elem_of_resting p b :
  p ∈ resting b <-> exists s, p ∈ side_orders s b.
Proof.
  unfold resting. rewrite elem_of_app. split.
  - intros [H|H]; [by exists Buy|by exists Sell].
  - intros [[] H]; auto.
Qed.

Lemma side_orders_set s s' l b :
  side_orders s' (set_side_orders s l b)
    = if decide (s' = s) then l else side_orders s' b.
Proof. destruct s, s'; reflexivity. Qed.

Lemma add_order_world pol p w b : (add_order pol p w b).1 = (now w).2.
Proof. reflexivity. Qed.

Lemma add_order_map pol p w b :
  order_map_ (add_order pol p w b).2
    = mm_insert pol (order_id (heap w p)) p (order_map_ b).
Proof. unfold add_order. simpl. by destruct (side (heap w p)). Qed.

Lemma add_order_side pol p w b s :
  side_orders s (add_order pol p w b).2
    = if decide (s = side (heap w p))
      then sort (side_before s (heap w)) (side_orders s b ++ [p])
      else side_orders s b.
Proof. unfold add_order. simpl. by destruct (side (heap w p)), s. Qed.

Lemma add_order_resting pol p w b :
  resting (add_order pol p w b).2 ≡ₚ p :: resting b.
Proof.
  rewrite !resting_sides, !add_order_side.
  destruct (side (heap w p)); simpl.
  - rewrite sort_perm. rewrite <- app_assoc. simpl.
    by rewrite <- Permutation_middle.
  - rewrite sort_perm. rewrite app_assoc.
    by rewrite <- Permutation_cons_append.
Qed.

(** ** The invariant of a book *)

Lemma same_static_refl h : same_static h h.
Proof. intros q. repeat split. Qed.

Lemma same_static_trans h1 h2 h3 :
  same_static h1 h2 -> same_static h2 h3 -> same_static h1 h3.
Proof.
  intros H12 H23 q. destruct (H12 q) as (?&?&?&?&?&?&?).
  destruct (H23 q) as (?&?&?&?&?&?&?). repeat split; congruence.
Qed.

Lemma same_static_upd h p o :
  order_id o = order_id (h p) -> side o = side (h p) ->
  type o = type (h p) -> symbol o = symbol (h p) ->
  size o = size (h p) -> price o = price (h p) ->
  timestamp o = timestamp (h p) ->
  same_static h (upd h p o).
Proof.
  intros. intros q. unfold upd. destruct (decide (q = p)) as [->|];
    repeat split; assumption.
Qed.

Lemma same_static_fill h p n : same_static h (upd h p (fill (h p) n)).
Proof.
  destruct (fill_fields (h p) n) as (?&?&?&?&?&?&?&?).
  by apply same_static_upd.
Qed.

Lemma same_static_status h p s : same_static h (upd h p (set_status (h p) s)).
Proof. by apply same_static_upd. Qed.

Lemma book_inv_static w w' b :
  same_static (heap w) (heap w') ->
  (forall q, q ∈ resting b -> is_filled (heap w' q) = false) ->
  book_inv w b -> book_inv w' b.
Proof.
  intros Hst Hopen [H1 H2 H3 H4 H5 H6]. constructor; auto.
  - intros k p Hk. destruct (Hst p) as (->&_). by apply H3.
  - intros s p Hp. destruct (Hst p) as (_&->&_). by apply H4.
  - intros s. eapply sorted_side_ext; [|apply H6].
    intros q _. destruct (Hst q) as (_&_&_&_&_&->&->). by split.
Qed.

Lemma book_inv_sub w b b' :
  book_inv w b ->
  (forall s, side_orders s b' `sublist_of` side_orders s b) ->
  order_map_ b' `sublist_of` order_map_ b ->
  map snd (order_map_ b') ≡ₚ resting b' ->
  book_inv w b'.
Proof.
  intros [H1 H2 H3 H4 H5 H6] Hs Hm Hp.
  assert (Hr : resting b' `sublist_of` resting b).
  { rewrite !resting_sides. by apply sublist_app. }
  constructor; auto.
  - by eapply sublist_NoDup.
  - intros k p Hk. apply H3. by eapply elem_of_sublist.
  - intros s p Hk. apply H4. by eapply elem_of_sublist.
  - intros p Hk. apply H5. by eapply elem_of_sublist.
  - intros s. eapply StronglySorted_sublist_of; [apply Hs|apply H6].
Qed.

Lemma book_inv_new w sym : book_inv w (new_book sym).
Proof.
  constructor; simpl.
  - constructor.
  - reflexivity.
  - intros k p H. by apply elem_of_nil in H.
  - intros [] p H; by apply elem_of_nil in H.
  - intros p H. by apply elem_of_nil in H.
  - intros []; constructor.
Qed.

(** An order that rests is filed in the index under its own id. *)
Lemma resting_indexed w b p :
  book_inv w b -> p ∈ resting b -> (order_id (heap w p), p) ∈ order_map_ b.
Proof.
  intros Hinv Hp. rewrite <- (inv_index _ _ Hinv) in Hp.
  apply list_elem_of_fmap in Hp as ([k q] & -> & Hq). simpl.
  by rewrite <- (inv_keys _ _ Hinv _ _ Hq).
Qed.

Lemma indexed_resting w b k p :
  book_inv w b -> (k, p) ∈ order_map_ b -> p ∈ resting b.
Proof.
  intros Hinv Hp. rewrite <- (inv_index _ _ Hinv).
  apply list_elem_of_fmap. by exists (k, p).
Qed.

Lemma add_order_inv pol p w b :
  book_inv w b -> p ∉ resting b -> is_filled (heap w p) = false ->
  book_inv (add_order pol p w b).1 (add_order pol p w b).2.
Proof.
  intros Hinv Hp Hf.
  pose proof (add_order_resting pol p w b) as Hr.
  destruct Hinv as [H1 H2 H3 H4 H5 H6].
  constructor; rewrite ?add_order_world; simpl heap.
  - rewrite Hr. by constructor.
  - rewrite add_order_map, mm_insert_perm, Hr. simpl. by rewrite H2.
  - intros k q. rewrite add_order_map, mm_insert_perm.
    intros [[= -> ->]|Hq]%elem_of_cons; auto.
  - intros s q. rewrite add_order_side.
    destruct (decide (s = side (heap w p))) as [->|Hne]; [|by apply H4].
    rewrite sort_perm. intros [Hq| ->%list_elem_of_singleton]%elem_of_app;
      auto.
  - intros q. rewrite Hr. intros [->|Hq]%elem_of_cons; auto.
  - intros s. rewrite add_order_side.
    destruct (decide (s = side (heap w p))) as [->|Hne]; [|by apply H6].
    apply (sort_ordered (side_before (side (heap w p)) (heap w))).
    + apply side_before_asym.
    + apply side_before_negtrans.
Qed.

Lemma book_inv_heap w w' b :
  heap w' = heap w -> book_inv w b -> book_inv w' b.
Proof.
  intros E Hinv. eapply book_inv_static; [| |exact Hinv].
  - rewrite E. apply same_static_refl.
  - intros q Hq. rewrite E. by apply (inv_open _ _ Hinv).
Qed.

Lemma book_inv_time w b t :
  book_inv w b -> book_inv w (set_last_update_time t b).
Proof. intros [H1 H2 H3 H4 H5 H6]. constructor; auto. Qed.

Lemma order_map_set_side s l b :
  order_map_ (set_side_orders s l b) = order_map_ b.
Proof. by destruct s. Qed.

Lemma resting_erase_perm s p b :
  p ∈ side_orders s b ->
  resting b ≡ₚ
    p :: resting (set_side_orders s (erase_first p (side_orders s b)) b).
Proof.
  intros Hp. rewrite !resting_sides, !side_orders_set.
  destruct s; simpl in *.
  - by rewrite (erase_first_perm p (buy_orders_ b)) at 1.
  - rewrite (erase_first_perm p (sell_orders_ b)) at 1 by done.
    by rewrite <- Permutation_middle.
Qed.

Lemma resting_set_sublist s l b :
  l `sublist_of` side_orders s b ->
  resting (set_side_orders s l b) `sublist_of` resting b.
Proof.
  intros H. destruct s; simpl in *; unfold resting; simpl;
    by apply sublist_app.
Qed.

(** Taking a resting order out of its side and its entry out of the
    index keeps the book well formed. *)
Lemma book_inv_remove w b p s :
  book_inv w b -> p ∈ side_orders s b ->
  book_inv w
    (set_order_map (mm_erase (order_id (heap w p)) p (order_map_ b))
       (set_side_orders s (erase_first p (side_orders s b)) b)).
Proof.
  intros Hinv Hp.
  assert (Hr : p ∈ resting b) by (apply elem_of_resting; eauto).
  pose proof (resting_indexed _ _ _ Hinv Hr) as Hidx.
  eapply book_inv_sub; [exact Hinv| | |].
  - intros s'. change (side_orders s' (set_order_map ?m ?b))
      with (side_orders s' b).
    rewrite side_orders_set. destruct (decide (s' = s)) as [->|]; [|done].
    apply erase_first_sublist.
  - simpl. apply mm_erase_sublist.
  - change (resting (set_order_map ?m ?b)) with (resting b).
    simpl order_map_.
    apply (Permutation_cons_inv (a := p)).
    rewrite <- (resting_erase_perm s p b Hp).
    rewrite <- (inv_index _ _ Hinv).
    rewrite (mm_erase_perm _ _ _ Hidx) at 2. reflexivity.
Qed.

Lemma cancel_order_none id w b :
  mm_equal_range id (order_map_ b) = [] ->
  cancel_order id w b = (false, w, b).
Proof. unfold cancel_order. by intros ->. Qed.

Lemma cancel_order_some id w b p ps :
  mm_equal_range id (order_map_ b) = p :: ps ->
  let w1 := store w p (set_status (heap w p) Cancelled) in
  let s := side (heap w p) in
  cancel_order id w b =
    (true, (now w1).2,
     set_last_update_time (now w1).1
       (set_order_map (mm_erase id p (order_map_ b))
          (set_side_orders s (erase_first p (side_orders s b)) b))).
Proof.
  unfold cancel_order. intros ->. simpl. rewrite upd_same. simpl.
  by rewrite order_map_set_side.
Qed.

Lemma cancel_order_inv id w b :
  world_ok w -> book_inv w b ->
  world_ok (cancel_order id w b).1.2 /\
  book_inv (cancel_order id w b).1.2 (cancel_order id w b).2.
Proof.
  intros Hw Hinv.
  destruct (mm_equal_range id (order_map_ b)) as [|p ps] eqn:E.
  - by rewrite cancel_order_none.
  - rewrite (cancel_order_some _ _ _ _ _ E). cbv zeta. simpl fst. simpl snd.
    assert (Hin : (id, p) ∈ order_map_ b).
    { apply elem_of_mm_equal_range. rewrite E. by left. }
    pose proof (inv_keys _ _ Hinv _ _ Hin) as ->.
    pose proof (indexed_resting _ _ _ _ Hinv Hin) as Hr.
    assert (Hs : p ∈ side_orders (side (heap w p)) b).
    { apply elem_of_resting in Hr as [s Hs].
      by rewrite (inv_side _ _ Hinv _ _ Hs). }
    split.
    + intros q. simpl. unfold upd. destruct (decide (q = p)); [|apply Hw].
      apply (Hw p).
    + apply book_inv_time.
      eapply book_inv_static;
        [| |exact (book_inv_remove _ _ _ _ Hinv Hs)].
      * simpl. apply same_static_status.
      * intros q Hq. simpl. unfold upd.
        assert (Hq' : q ∈ resting b).
        { eapply elem_of_sublist; [exact Hq|].
          change (resting (set_order_map ?m ?b)) with (resting b).
          apply resting_set_sublist, erase_first_sublist. }
        destruct (decide (q = p)) as [->|];
          by apply (inv_open _ _ Hinv).
Qed.

(** ** The matching loop *)

Lemma remaining_size_open o :
  order_ok o -> is_filled o = false ->
  remaining_size o = size o - filled_size o /\ 0 < remaining_size o.
Proof.
  intros (Hs & Hf & _) Ho. apply is_filled_false in Ho.
  unfold remaining_size. rewrite wrap64_small; unfold u64 in *; lia.
Qed.

Lemma fill_open o n :
  order_ok o -> is_filled o = false -> 0 <= n <= remaining_size o ->
  filled_size (fill o n) = filled_size o + n /\
  (is_filled (fill o n) = true <-> n = remaining_size o).
Proof.
  intros Hok Ho Hn. destruct (remaining_size_open o Hok Ho) as [Er Hr].
  destruct Hok as (Hs & Hf & _).
  destruct (fill_fields o n) as (_&_&_&_&E1&_&_&E3).
  assert (E : filled_size (fill o n) = filled_size o + n).
  { rewrite E3. apply wrap64_small. unfold u64 in *. lia. }
  split; [exact E|].
  rewrite is_filled_true, E1, E. lia.
Qed.

Lemma match_body_static p st st' :
  match_body p st = Some st' ->
  same_static (heap (m_world st)) (heap (m_world st')).
Proof.
  intros H. apply match_body_Some in H. cbv zeta in H.
  destruct H as (m & rest & _ & _ & -> & _).
  eapply same_static_trans; [apply same_static_fill|].
  apply same_static_fill.
Qed.

(** What a turn of the loop that executes does to a well-formed book:
    either the maker at the head of the contra side is filled and leaves
    the book, or the book stays as it is and the incoming order is
    filled. *)
Lemma match_body_step p st st' :
  world_ok (m_world st) -> book_inv (m_world st) (m_book st) ->
  p ∉ resting (m_book st) ->
  match_body p st = Some st' ->
  let s := side (heap (m_world st) p) in
  world_ok (m_world st') /\ book_inv (m_world st') (m_book st') /\
  (p ∉ resting (m_book st')) /\
  side_orders s (m_book st') = side_orders s (m_book st) /\
  (forall q, q <> p -> q ∉ side_orders (opposite s) (m_book st) ->
             heap (m_world st') q = heap (m_world st) q) /\
  exists m rest,
    side_orders (opposite s) (m_book st) = m :: rest /\
    (side_orders (opposite s) (m_book st') = rest \/
     (m_book st' = m_book st /\ is_filled (heap (m_world st') p) = true)).
Proof.
  intros Hw Hinv Hp H. pose proof (match_body_static _ _ _ H) as Hst.
  apply match_body_Some in H. cbv zeta in H.
  destruct H as (m & rest & Hopp & Hfp & Hh & _ & _ & _ & _ & Hb).
  set (w := m_world st) in *. set (b := m_book st) in *.
  set (s := side (heap w p)) in *.
  set (f := Z.min (remaining_size (heap w p)) (remaining_size (heap w m)))
    in *.
  assert (Hm : m ∈ side_orders (opposite s) b) by (rewrite Hopp; by left).
  assert (Hmr : m ∈ resting b) by (apply elem_of_resting; eauto).
  assert (Hne : m <> p) by congruence.
  assert (Hfm : is_filled (heap w m) = false)
    by (by apply (inv_open _ _ Hinv)).
  destruct (remaining_size_open _ (Hw p) Hfp) as [_ Rp].
  destruct (remaining_size_open _ (Hw m) Hfm) as [_ Rm].
  assert (Hh1 : upd (heap w) p (fill (heap w p) f) m = heap w m)
    by (by apply upd_other).
  rewrite Hh1 in Hh, Hb.
  assert (Hhm : heap (m_world st') m = fill (heap w m) f)
    by (rewrite Hh; apply upd_same).
  assert (Hhp : heap (m_world st') p = fill (heap w p) f).
  { rewrite Hh. rewrite upd_other by congruence. apply upd_same. }
  assert (Hho : forall q, q <> p -> q <> m ->
                          heap (m_world st') q = heap w q).
  { intros q H1 H2. rewrite Hh. by rewrite !upd_other. }
  rewrite <- Hh in Hb. rewrite Hhm in Hb.
  destruct (fill_open (heap w m) f (Hw m) Hfm ltac:(lia)) as [_ Ffm].
  destruct (fill_open (heap w p) f (Hw p) Hfp ltac:(lia)) as [_ Ffp].
  assert (Hwok : world_ok (m_world st')).
  { intros q. rewrite Hh. unfold upd.
    repeat case_decide; try apply fill_ok; apply Hw. }
  split; [exact Hwok|].
  destruct (is_filled (fill (heap w m) f)) eqn:Em.
  - (* the maker is filled and leaves the book *)
    destruct (fill_fields (heap w m) f) as (Eid&_).
    rewrite Eid in Hb.
    assert (Hb' : m_book st' =
      set_order_map (mm_erase (order_id (heap w m)) m (order_map_ b))
        (set_side_orders (opposite s)
           (erase_first m (side_orders (opposite s) b)) b)).
    { rewrite Hb, Hopp. simpl. by destruct (decide (m = m)). }
    pose proof (book_inv_remove _ _ _ _ Hinv Hm) as Hinv'.
    rewrite <- Hb' in Hinv'.
    assert (Hsub : resting (m_book st') `sublist_of` resting b).
    { rewrite Hb'. change (resting (set_order_map ?x ?y)) with (resting y).
      apply resting_set_sublist, erase_first_sublist. }
    assert (Hm' : m ∉ resting (m_book st')).
    { pose proof (inv_nodup _ _ Hinv) as Hnd.
      rewrite (resting_erase_perm _ _ _ Hm) in Hnd.
      apply NoDup_cons in Hnd as [Hnd _].
      rewrite Hb'. exact Hnd. }
    split; [|split; [|split; [|split]]].
    + eapply book_inv_static; [exact Hst| |exact Hinv'].
      intros q Hq. rewrite Hho.
      * apply (inv_open _ _ Hinv). by eapply elem_of_sublist.
      * intros ->. apply Hp. by eapply elem_of_sublist.
      * intros ->. by apply Hm'.
    + intros Hq. apply Hp. by eapply elem_of_sublist.
    + rewrite Hb. destruct s; reflexivity.
    + intros q H1 H2. apply Hho; [exact H1|]. intros ->. by apply H2.
    + exists m, rest. split; [exact Hopp|]. left.
      rewrite Hb. destruct s; reflexivity.
  - (* the maker stays, so the incoming order is filled *)
    rewrite Hb. fold b.
    split; [|split; [|split; [|split]]]; auto.
    + eapply book_inv_static; [exact Hst| |exact Hinv].
      intros q Hq. destruct (decide (q = m)) as [->|Hqm].
      * by rewrite Hhm.
      * rewrite Hho; [by apply (inv_open _ _ Hinv)| |exact Hqm].
        intros ->. by apply Hp.
    + intros q H1 H2. apply Hho; [exact H1|]. intros ->. by apply H2.
    + exists m, rest. split; [exact Hopp|]. right. split; [reflexivity|].
      rewrite Hhp. apply Ffp.
      assert (f <> remaining_size (heap w m)).
      { intros Hf. apply Ffm in Hf. congruence. }
      lia.
Qed.

Lemma match_body_filled p st :
  is_filled (heap (m_world st) p) = true -> match_body p st = None.
Proof.
  intros H. unfold match_body.
  destruct (side_orders _ _); [reflexivity|]. by rewrite H.
Qed.

Lemma match_loop_None n p st :
  match_body p st = None -> match_loop n p st = st.
Proof. intros H. destruct n; simpl; [reflexivity|]. by rewrite H. Qed.

Lemma match_loop_S n p st st' :
  match_body p st = Some st' ->
  match_loop (S n) p st = match_loop n p st'.
Proof. intros H. simpl. by rewrite H. Qed.

(** The loop has come to its end within the turns [match_order] gives
    it: after them the loop condition fails or the [break] is taken. *)
Lemma match_loop_done n p st :
  world_ok (m_world st) -> book_inv (m_world st) (m_book st) ->
  p ∉ resting (m_book st) ->
  (length (side_orders (opposite (side (heap (m_world st) p))) (m_book st))
     < n)%nat ->
  match_body p (match_loop n p st) = None.
Proof.
  revert st. induction n as [|n IH]; intros st Hw Hinv Hp Hlen; [lia|].
  destruct (match_body p st) as [st'|] eqn:E.
  - rewrite (match_loop_S _ _ _ _ E).
    pose proof (match_body_static _ _ _ E p) as (_ & Es & _).
    destruct (match_body_step _ _ _ Hw Hinv Hp E)
      as (Hw' & Hinv' & Hp' & _ & _ & m & rest & Hopp & Hcase).
    destruct Hcase as [Hrest|[_ Hfilled]].
    + apply IH; auto. rewrite Es, Hrest. rewrite Hopp in Hlen.
      simpl in Hlen. lia.
    + rewrite match_loop_None; by apply match_body_filled.
  - by rewrite match_loop_None.
Qed.

(** What the whole loop keeps and what it may change. *)
Lemma match_loop_inv n p st :
  world_ok (m_world st) -> book_inv (m_world st) (m_book st) ->
  p ∉ resting (m_book st) ->
  let st' := match_loop n p st in
  let s := side (heap (m_world st) p) in
  world_ok (m_world st') /\ book_inv (m_world st') (m_book st') /\
  (p ∉ resting (m_book st')) /\
  same_static (heap (m_world st)) (heap (m_world st')) /\
  side_orders s (m_book st') = side_orders s (m_book st) /\
  side_orders (opposite s) (m_book st')
    `suffix_of` side_orders (opposite s) (m_book st) /\
  (forall q, q <> p -> q ∉ side_orders (opposite s) (m_book st) ->
             heap (m_world st') q = heap (m_world st) q).
Proof.
  revert st. induction n as [|n IH]; intros st Hw Hinv Hp; cbv zeta.
  { simpl. split_and!; auto using same_static_refl. }
  destruct (match_body p st) as [st1|] eqn:E.
  - rewrite (match_loop_S _ _ _ _ E).
    pose proof (match_body_static _ _ _ E) as Hst.
    destruct (Hst p) as (_ & Es & _).
    destruct (match_body_step _ _ _ Hw Hinv Hp E)
      as (Hw' & Hinv' & Hp' & Hown & Hheap & m & rest & Hopp & Hcase).
    destruct (IH st1 Hw' Hinv' Hp') as (G1 & G2 & G3 & G4 & G5 & G6 & G7).
    rewrite Es in G5, G6, G7.
    assert (Hsuf : side_orders (opposite (side (heap (m_world st) p)))
                     (m_book st1)
                   `suffix_of` side_orders
                     (opposite (side (heap (m_world st) p))) (m_book st)).
    { destruct Hcase as [->|[-> _]]; [|reflexivity].
      rewrite Hopp. by apply suffix_cons_r. }
    split_and!; auto.
    + by eapply same_static_trans.
    + by rewrite G5.
    + by etrans.
    + intros q H1 H2. rewrite G7; auto.
      intros Hq. apply H2. destruct Hsuf as [k ->].
      apply elem_of_app. by right.
  - rewrite match_loop_None by done.
    split_and!; auto using same_static_refl.
Qed.

Lemma match_order_unfold p w b :
  let st :=
    match_loop (S (length (side_orders (opposite (side (heap w p))) b))) p
      (mkMatch w b []) in
  match_order p w b =
    (m_trades st, (now (m_world st)).2,
     set_last_update_time (now (m_world st)).1 (m_book st)).
Proof. reflexivity. Qed.

Lemma match_order_inv p w b :
  world_ok w -> book_inv w b -> p ∉ resting b ->
  world_ok (match_order p w b).1.2 /\
  book_inv (match_order p w b).1.2 (match_order p w b).2 /\
  (p ∉ resting (match_order p w b).2).
Proof.
  intros Hw Hinv Hp. rewrite match_order_unfold. cbv zeta.
  destruct (match_loop_inv
              (S (length (side_orders (opposite (side (heap w p))) b))) p
              (mkMatch w b []) Hw Hinv Hp) as (G1 & G2 & G3 & _).
  set (st := match_loop _ _ _) in *. clearbody st. simpl.
  split; [exact G1|]. split; [|exact G3].
  apply book_inv_time. eapply book_inv_heap; [|exact G2]. reflexivity.
Qed.

Lemma book_inv_agree w w' b :
  (forall q, q ∈ resting b -> heap w' q = heap w q) ->
  book_inv w b -> book_inv w' b.
Proof.
  intros Hag Hinv. pose proof Hinv as [H1 H2 H3 H4 H5 H6].
  constructor; auto.
  - intros k p Hk. rewrite Hag; [by apply H3|].
    by eapply indexed_resting.
  - intros s p Hp. rewrite Hag; [by apply H4|].
    apply elem_of_resting; eauto.
  - intros p Hp. rewrite Hag; auto.
  - intros s. eapply sorted_side_ext; [|apply H6].
    intros q Hq. rewrite Hag; [done|]. apply elem_of_resting; eauto.
Qed.

Lemma reachable_inv pol w b :
  reachable pol w b -> world_ok w /\ book_inv w b.
Proof.
  induction 1 as [w sym Hw|w w' b _ [IHw IHb] Hw' Hag
                 |w b p _ [IHw IHb] Hp Hf|w b id _ [IHw IHb]
                 |w b p _ [IHw IHb] Hp].
  - split; [exact Hw|apply book_inv_new].
  - split; [exact Hw'|by eapply book_inv_agree].
  - split; [exact IHw|by apply add_order_inv].
  - by apply cancel_order_inv.
  - destruct (match_order_inv p w b IHw IHb Hp) as (?&?&?). by split.
Qed.

(** ** The book after any sequence of operations *)

(** C3: after any sequence of [add_order], [cancel_order] and
    [match_order] on a book, whatever ids the orders carry, every resting
    order has [0 < remaining <= size], every order of a side is filed in
    the id index (under its own id), and every order of the id index is
    in exactly one side, once, with one index entry. *)
Theorem reachable_book_consistent pol w b :
  reachable pol w b ->
  (forall p, p ∈ resting b ->
     0 < remaining_size (heap w p) <= size (heap w p)) /\
  (forall p, p ∈ buy_orders_ b \/ p ∈ sell_orders_ b ->
     (order_id (heap w p), p) ∈ order_map_ b) /\
  (forall k p, (k, p) ∈ order_map_ b ->
     (p ∈ buy_orders_ b /\ (p ∉ sell_orders_ b)) \/
     ((p ∉ buy_orders_ b) /\ p ∈ sell_orders_ b)) /\
  NoDup (buy_orders_ b ++ sell_orders_ b) /\
  NoDup (map snd (order_map_ b)).
Proof.
  intros H. apply reachable_inv in H as [Hw Hinv].
  split_and!.
  - intros p Hp.
    pose proof (inv_open _ _ Hinv p Hp) as Ho.
    destruct (remaining_size_open _ (Hw p) Ho) as [E Hpos].
    destruct (Hw p) as (_ & Hf & _). unfold u64 in Hf. lia.
  - intros p Hp. apply (resting_indexed _ _ _ Hinv).
    unfold resting. apply elem_of_app. exact Hp.
  - intros k p Hk.
    pose proof (indexed_resting _ _ _ _ Hinv Hk) as Hr.
    pose proof (inv_nodup _ _ Hinv) as Hnd. unfold resting in Hr, Hnd.
    apply NoDup_app in Hnd as (_ & Hdisj & _).
    apply elem_of_app in Hr as [Hr|Hr].
    + left. split; [exact Hr|]. by apply Hdisj.
    + right. split; [|exact Hr]. intros Hb. by apply (Hdisj p).
  - apply (inv_nodup _ _ Hinv).
  - rewrite (inv_index _ _ Hinv). apply (inv_nodup _ _ Hinv).
Qed.

Lemma dup_world_ok : world_ok dup_world.
Proof.
  intros [|[|q]]; unfold order_ok, u64, two64; simpl; lia.
Qed.

Lemma dup_state2_reachable pol :
  reachable pol (dup_state2 pol).1 (dup_state2 pol).2.
Proof.
  unfold dup_state2. apply reach_add.
  - unfold dup_state1. apply reach_add.
    + apply reach_new. apply dup_world_ok.
    + simpl. apply not_elem_of_nil.
    + reflexivity.
  - assert (E : resting (dup_state1 pol).2 = [0%nat])
      by (destruct pol; reflexivity).
    rewrite E. apply not_elem_of_cons. split; [lia|apply not_elem_of_nil].
  - reflexivity.
Qed.

(** The two orders of [dup_state2] rest under the one id ["U"]. *)
Lemma reachable_book_consistent_witness :
  reachable InsertionOrder (dup_state2 InsertionOrder).1
    (dup_state2 InsertionOrder).2 /\
  order_map_ (dup_state2 InsertionOrder).2 = [("U", 0%nat); ("U", 1%nat)] /\
  (forall p, p ∈ resting (dup_state2 InsertionOrder).2 ->
     0 < remaining_size (heap (dup_state2 InsertionOrder).1 p)
       <= size (heap (dup_state2 InsertionOrder).1 p)).
Proof.
  split; [apply dup_state2_reachable|].
  split; [reflexivity|].
  exact (proj1 (reachable_book_consistent InsertionOrder _ _
                  (dup_state2_reachable InsertionOrder))).
Defined.

(** ** match_order adds nothing to the book *)

Lemma match_body_sub p st st' :
  match_body p st = Some st' ->
  (forall s, side_orders s (m_book st') `sublist_of`
             side_orders s (m_book st)) /\
  order_map_ (m_book st') `sublist_of` order_map_ (m_book st).
Proof.
  intros H. apply match_body_Some in H. cbv zeta in H.
  destruct H as (m & rest & Hopp & _ & _ & _ & _ & _ & _ & ->).
  destruct (is_filled _); [|done].
  split.
  - intros s. change (side_orders s (set_order_map ?x ?y))
      with (side_orders s y).
    rewrite side_orders_set. case_decide as E; [|done].
    rewrite E, Hopp. by apply sublist_cons.
  - simpl. apply mm_erase_sublist.
Qed.

Lemma match_loop_sub n p st :
  (forall s, side_orders s (m_book (match_loop n p st)) `sublist_of`
             side_orders s (m_book st)) /\
  order_map_ (m_book (match_loop n p st)) `sublist_of`
    order_map_ (m_book st).
Proof.
  revert st. induction n as [|n IH]; intros st; [done|].
  simpl. destruct (match_body p st) as [st'|] eqn:E; [|done].
  destruct (match_body_sub _ _ _ E) as [H1 H2].
  destruct (IH st') as [G1 G2].
  split; [intros s|]; etrans; eauto.
Qed.

Lemma match_order_sub p w b :
  (forall s, side_orders s (match_order p w b).2 `sublist_of`
             side_orders s b) /\
  order_map_ (match_order p w b).2 `sublist_of` order_map_ b.
Proof.
  rewrite match_order_unfold. cbv zeta.
  destruct (match_loop_sub
              (S (length (side_orders (opposite (side (heap w p))) b))) p
              (mkMatch w b [])) as [H1 H2].
  set (st := match_loop _ _ _) in *. clearbody st. simpl in *.
  split; [|exact H2]. intros s. specialize (H1 s). by destruct s.
Qed.

Lemma match_order_resting_sub p w b :
  resting (match_order p w b).2 `sublist_of` resting b.
Proof.
  destruct (match_order_sub p w b) as [H _].
  rewrite !resting_sides. by apply sublist_app.
Qed.

(** ** Every execution of match_order *)

Lemma match_turns_in n p st x y :
  (x, y) ∈ match_turns n p st ->
  match_body p x = Some y /\
  same_static (heap (m_world st)) (heap (m_world x)) /\
  (forall s, side_orders s (m_book x) `sublist_of` side_orders s (m_book st)).
Proof.
  revert st. induction n as [|n IH]; intros st; simpl.
  { intros H. by apply elem_of_nil in H. }
  destruct (match_body p st) as [st'|] eqn:E.
  2:{ intros H. by apply elem_of_nil in H. }
  intros [[= -> ->]|H]%elem_of_cons.
  - split_and!; [exact E|apply same_static_refl|done].
  - destruct (IH _ H) as (G1 & G2 & G3).
    destruct (match_body_sub _ _ _ E) as [S1 _].
    split_and!; [exact G1| |].
    + eapply same_static_trans; [|exact G2]. by eapply match_body_static.
    + intros s. etrans; [apply G3|apply S1].
Qed.

(** The trades [match_order] returns are those of its executions, one
    each and in their order. *)
Lemma match_loop_turns n p st :
  m_trades (match_loop n p st)
    = m_trades st ++
      flat_map (fun xy => drop (length (m_trades xy.1)) (m_trades xy.2))
        (match_turns n p st).
Proof.
  revert st. induction n as [|n IH]; intros st; simpl.
  { by rewrite app_nil_r. }
  destruct (match_body p st) as [st'|] eqn:E; simpl.
  2:{ by rewrite app_nil_r. }
  rewrite IH. apply match_body_Some in E. cbv zeta in E.
  destruct E as (m & rest & _ & _ & _ & _ & _ & _ & Ht & _).
  rewrite Ht, drop_app_length. by rewrite <- app_assoc.
Qed.

Lemma match_order_trades p w b :
  (match_order p w b).1.1
    = flat_map (fun xy => drop (length (m_trades xy.1)) (m_trades xy.2))
        (executions p w b).
Proof.
  rewrite match_order_unfold. cbv zeta. unfold executions.
  pose proof (match_loop_turns
                (S (length (side_orders (opposite (side (heap w p))) b))) p
                (mkMatch w b [])) as H.
  set (st := match_loop _ _ _) in *. clearbody st. simpl in *. exact H.
Qed.

(** C1: every execution of [match_order] for an incoming order [p] that
    is not resting on the contra side is an execution against the maker
    [m] at the head of that side; it records one trade whose size is the
    minimum of the remaining quantities of [p] and [m] read before the
    fill and whose price is the price of [m]; and it leaves each of the
    two orders with its remaining quantity reduced by exactly that
    size. *)
Theorem match_execution_exact p w b before after :
  p ∉ side_orders (opposite (side (heap w p))) b ->
  (before, after) ∈ executions p w b ->
  exists m rest t,
    side_orders (opposite (side (heap w p))) (m_book before) = m :: rest /\
    m_trades after = m_trades before ++ [t] /\
    trade_size t =
      Z.min (remaining_size (heap (m_world before) p))
            (remaining_size (heap (m_world before) m)) /\
    trade_price t = price (heap (m_world before) m) /\
    remaining_size (heap (m_world after) p) =
      remaining_size (heap (m_world before) p) - trade_size t /\
    remaining_size (heap (m_world after) m) =
      remaining_size (heap (m_world before) m) - trade_size t.
Proof.
  intros Hp Hin. unfold executions in Hin.
  apply match_turns_in in Hin as (Hbody & Hst & Hsub). simpl in Hst, Hsub.
  destruct (Hst p) as (_ & Es & _).
  pose proof Hbody as Hb. apply match_body_Some in Hb. cbv zeta in Hb.
  destruct Hb as (m & rest & Hopp & _).
  rewrite Es in Hopp.
  assert (Hne : p <> m).
  { intros ->. apply Hp. eapply elem_of_sublist; [|apply Hsub].
    rewrite Hopp. by left. }
  rewrite <- Es in Hopp.
  destruct (match_turn_exact p before after m rest Hopp Hne Hbody)
    as (t & G).
  rewrite Es in Hopp. by exists m, rest, t.
Qed.

(** The buy order of 150 trades 100 at the maker's price 10 and keeps 50;
    the sell order of 100 keeps nothing. *)
Lemma match_execution_exact_witness :
  executions 1%nat (m_world one_turn_before) (m_book one_turn_before)
    = [(one_turn_before, one_turn_after)] /\
  exists m rest t,
    side_orders Sell (m_book one_turn_before) = m :: rest /\
    m_trades one_turn_after = m_trades one_turn_before ++ [t] /\
    trade_size t = Z.min 150 (remaining_size (heap (m_world one_turn_before) m)) /\
    trade_price t = price (heap (m_world one_turn_before) m) /\
    remaining_size (heap (m_world one_turn_after) 1%nat) = 150 - trade_size t /\
    remaining_size (heap (m_world one_turn_after) m) =
      remaining_size (heap (m_world one_turn_before) m) - trade_size t.
Proof.
  split; [reflexivity|].
  apply (match_execution_exact 1%nat (m_world one_turn_before)
           (m_book one_turn_before) one_turn_before one_turn_after).
  - change (1%nat ∉ [0%nat]).
    apply not_elem_of_cons. split; [lia|apply not_elem_of_nil].
  - change ((one_turn_before, one_turn_after)
            ∈ [(one_turn_before, one_turn_after)]).
    left.
Defined.

(** The incoming order never ends up with more filled than its size. *)
Lemma match_loop_taker n p st :
  world_ok (m_world st) -> book_inv (m_world st) (m_book st) ->
  p ∉ resting (m_book st) ->
  filled_size (heap (m_world st) p) <= size (heap (m_world st) p) ->
  filled_size (heap (m_world (match_loop n p st)) p)
    <= size (heap (m_world (match_loop n p st)) p).
Proof.
  revert st. induction n as [|n IH]; intros st Hw Hinv Hp Hle; [done|].
  simpl. destruct (match_body p st) as [st'|] eqn:E; [|done].
  destruct (match_body_step _ _ _ Hw Hinv Hp E)
    as (Hw' & Hinv' & Hp' & _).
  apply IH; auto.
  apply match_body_Some in E. cbv zeta in E.
  destruct E as (m & rest & Hopp & Hfp & Hh & _).
  assert (Hne : p <> m).
  { intros ->. apply Hp. apply elem_of_resting.
    eexists. rewrite Hopp. by left. }
  rewrite Hh. rewrite upd_other by exact Hne. rewrite upd_same.
  destruct (remaining_size_open _ (Hw p) Hfp) as [Er Hr].
  pose proof (remaining_size_range (heap (m_world st) m)) as Rm.
  unfold u64 in Rm.
  destruct (fill_open (heap (m_world st) p)
              (Z.min (remaining_size (heap (m_world st) p))
                     (remaining_size (heap (m_world st) m)))
              (Hw p) Hfp ltac:(lia)) as [-> _].
  destruct (fill_fields (heap (m_world st) p)
              (Z.min (remaining_size (heap (m_world st) p))
                     (remaining_size (heap (m_world st) m))))
    as (_&_&_&_&->&_).
  lia.
Qed.

(** ** The engine: placing orders *)

Lemma place_limit_order_unfold pol sym id s sz prc w e book :
  order_books_ e !! sym = Some book ->
  let p := brk w in
  let w2 := (make_shared (now w).2
               (limit_order id s sym sz prc (now w).1)).2 in
  let mo := match_order p w2 book in
  let ab := if is_filled (heap mo.1.2 p) then (mo.1.2, mo.2)
            else add_order pol p mo.1.2 mo.2 in
  place_limit_order pol sym id s sz prc w e =
    mkReply mo.1.1 (notify_trades e mo.1.1) ab.1
      (mkEngine (<[sym := ab.2]> (order_books_ e))
         (mm_insert pol id sym (order_id_to_symbol_ e))
         (trade_callbacks_ e)).
Proof.
  intros H. cbv zeta.
  set (w2 := (make_shared (now w).2
                (limit_order id s sym sz prc (now w).1)).2).
  unfold place_limit_order. rewrite H.
  change (generate_timestamp w) with ((now w).1, (now w).2).
  cbv iota beta.
  change (make_shared (now w).2 (limit_order id s sym sz prc (now w).1))
    with (brk w, w2).
  cbv iota beta.
  destruct (match_order (brk w) w2 book) as [[trades w3] book1].
  cbv iota beta. simpl fst. simpl snd.
  destruct (is_filled (heap w3 (brk w))); [reflexivity|].
  by destruct (add_order pol (brk w) w3 book1).
Qed.

Lemma place_market_order_unfold sym id s sz w e book :
  order_books_ e !! sym = Some book ->
  let p := brk w in
  let w2 := (make_shared (now w).2 (market_order id s sym sz (now w).1)).2 in
  let mo := match_order p w2 book in
  place_market_order sym id s sz w e =
    mkReply mo.1.1 (notify_trades e mo.1.1) mo.1.2
      (mkEngine (<[sym := mo.2]> (order_books_ e))
         (order_id_to_symbol_ e) (trade_callbacks_ e)).
Proof.
  intros H. cbv zeta.
  set (w2 := (make_shared (now w).2 (market_order id s sym sz (now w).1)).2).
  unfold place_market_order. rewrite H.
  change (generate_timestamp w) with ((now w).1, (now w).2).
  cbv iota beta.
  change (make_shared (now w).2 (market_order id s sym sz (now w).1))
    with (brk w, w2).
  cbv iota beta.
  by destruct (match_order (brk w) w2 book) as [[trades w3] book1].
Qed.

(** The state [match_order] starts from inside a [place_*] call: the new
    order sits at a fresh address and the book is as well formed as it
    was. *)
Lemma placed_order_ready w book o :
  world_ok w -> order_ok o -> book_inv w book ->
  (forall q, q ∈ resting book -> (q < brk w)%nat) ->
  let w2 := (make_shared (now w).2 o).2 in
  world_ok w2 /\ book_inv w2 book /\ (brk w ∉ resting book) /\
  heap w2 (brk w) = o.
Proof.
  intros Hw Ho Hinv Hfresh. cbv zeta. simpl.
  assert (Hp : brk w ∉ resting book).
  { intros Hq. apply Hfresh in Hq. lia. }
  split_and!.
  - intros q. simpl. unfold upd. case_decide; auto.
  - eapply book_inv_agree; [|exact Hinv].
    intros q Hq. simpl. apply upd_other. intros ->. by apply Hp.
  - exact Hp.
  - apply upd_same.
Qed.

Lemma match_loop_brk n p st :
  brk (m_world (match_loop n p st)) = brk (m_world st).
Proof.
  revert st. induction n as [|n IH]; intros st; [done|].
  simpl. destruct (match_body p st) as [st'|] eqn:E; [|done].
  rewrite IH. apply match_body_Some in E. cbv zeta in E.
  by destruct E as (m & rest & _ & _ & _ & -> & _).
Qed.

(** Everything the later proofs use about one call of [match_order] on a
    well-formed book with an order that does not rest in it. *)
Lemma match_order_facts p w b :
  world_ok w -> book_inv w b -> p ∉ resting b ->
  filled_size (heap w p) <= size (heap w p) ->
  let r := match_order p w b in
  let s := side (heap w p) in
  world_ok r.1.2 /\ book_inv r.1.2 r.2 /\ (p ∉ resting r.2) /\
  same_static (heap w) (heap r.1.2) /\
  side_orders s r.2 = side_orders s b /\
  side_orders (opposite s) r.2 `suffix_of` side_orders (opposite s) b /\
  (forall q, q <> p -> q ∉ side_orders (opposite s) b ->
             heap r.1.2 q = heap w q) /\
  brk r.1.2 = brk w /\
  filled_size (heap r.1.2 p) <= size (heap r.1.2 p).
Proof.
  intros Hw Hinv Hp Hle. rewrite match_order_unfold. cbv zeta.
  pose proof (match_loop_inv
              (S (length (side_orders (opposite (side (heap w p))) b))) p
              (mkMatch w b []) Hw Hinv Hp)
    as (G1 & G2 & G3 & G4 & G5 & G6 & G7).
  pose proof (match_loop_brk
              (S (length (side_orders (opposite (side (heap w p))) b))) p
              (mkMatch w b [])) as G8.
  pose proof (match_loop_taker
              (S (length (side_orders (opposite (side (heap w p))) b))) p
              (mkMatch w b []) Hw Hinv Hp Hle) as G9.
  set (st := match_loop _ _ _) in *. clearbody st. simpl in *.
  split_and!; auto; try (by destruct (side (heap w p))).
  apply book_inv_time. eapply book_inv_heap; [|exact G2]. reflexivity.
Qed.

(** ** The states of the engine *)

Lemma engine_inv_new w : world_ok w -> engine_inv w new_engine.
Proof.
  intros Hw. split; [exact Hw|]. split.
  - intros sym b H. simpl in H. by rewrite lookup_empty in H.
  - intros sym1 sym2 b1 b2 _ H. simpl in H. by rewrite lookup_empty in H.
Qed.

Lemma engine_inv_add_order_book sym w e :
  engine_inv w e -> engine_inv w (add_order_book sym e).
Proof.
  intros (Hw & Hb & Hd). unfold add_order_book.
  destruct (order_books_ e !! sym) eqn:E; [by split|].
  split; [exact Hw|]. simpl. split.
  - intros sym' b. rewrite lookup_insert. case_decide as Hs.
    + intros [= <-]. split; [apply book_inv_new|].
      intros q Hq. by apply elem_of_nil in Hq.
    + apply Hb.
  - intros sym1 sym2 b1 b2 Hne. rewrite !lookup_insert.
    repeat case_decide; subst; try congruence.
    + intros [= <-] _ q Hq. by apply elem_of_nil in Hq.
    + intros _ [= <-] q _. apply not_elem_of_nil.
    + by apply Hd.
Qed.

Lemma engine_inv_register cb w e :
  engine_inv w e -> engine_inv w (register_trade_callback cb e).
Proof. intros (Hw & Hb & Hd). by split. Qed.

(** A change of one book, and of the objects of its own orders and of
    fresh ones, keeps the engine well formed. *)
Lemma engine_inv_update w e sym book w' book' index :
  engine_inv w e -> order_books_ e !! sym = Some book ->
  world_ok w' -> book_inv w' book' -> (brk w <= brk w')%nat ->
  (forall q, q ∈ resting book' -> q ∈ resting book \/ (brk w <= q < brk w')%nat) ->
  (forall q, (q < brk w)%nat -> q ∉ resting book -> heap w' q = heap w q) ->
  engine_inv w'
    (mkEngine (<[sym := book']> (order_books_ e)) index (trade_callbacks_ e)).
Proof.
  intros (Hw & Hb & Hd) Hsym Hw' Hinv' Hbrk Hrest Hheap.
  destruct (Hb _ _ Hsym) as [Hinv Hfresh].
  assert (Hother : forall sym2 b2, sym2 <> sym ->
            order_books_ e !! sym2 = Some b2 ->
            forall q, q ∈ resting b2 ->
                      (q < brk w)%nat /\ (q ∉ resting book) /\
                      heap w' q = heap w q).
  { intros sym2 b2 Hne H2 q Hq.
    destruct (Hb _ _ H2) as [_ Hf2]. pose proof (Hf2 q Hq) as Hlt.
    assert (Hnot : q ∉ resting book) by (by eapply (Hd sym2 sym)).
    auto. }
  split; [exact Hw'|]. simpl. split.
  - intros sym2 b2. rewrite lookup_insert. case_decide as Hs.
    + intros [= <-]. split; [exact Hinv'|].
      intros q Hq. destruct (Hrest q Hq) as [Hq'|Hq']; [|lia].
      apply Hfresh in Hq'. lia.
    + intros H2. destruct (Hb _ _ H2) as [Hinv2 Hf2]. split.
      * eapply book_inv_agree; [|exact Hinv2].
        intros q Hq. by apply (Hother sym2 b2).
      * intros q Hq. apply Hf2 in Hq. lia.
  - intros sym1 sym2 b1 b2 Hne. rewrite !lookup_insert.
    repeat case_decide; subst; try congruence.
    + intros [= <-] H2 q Hq Hq2.
      destruct (Hother sym2 b2 ltac:(congruence) H2 q Hq2) as (Hlt & Hn & _).
      destruct (Hrest q Hq) as [Hq'|Hq']; [by apply Hn|lia].
    + intros H1 [= <-] q Hq Hq2.
      destruct (Hother sym1 b1 ltac:(congruence) H1 q Hq) as (Hlt & Hn & _).
      destruct (Hrest q Hq2) as [Hq'|Hq']; [by apply Hn|lia].
    + by apply Hd.
Qed.

Lemma limit_order_ok id s sym sz prc w :
  u64 sz -> order_ok (limit_order id s sym sz prc (now w).1).
Proof.
  intros H. unfold order_ok. simpl. split_and!; auto using wrap64_range.
  unfold u64, two64. lia.
Qed.

Lemma market_order_ok id s sym sz w :
  u64 sz -> order_ok (market_order id s sym sz (now w).1).
Proof.
  intros H. unfold order_ok. simpl. split_and!; auto using wrap64_range.
  unfold u64, two64. lia.
Qed.

(** What [match_order] does inside a [place_*] call for the new order
    [o], placed at the fresh address [brk w]. *)
Lemma placed_match_facts w e sym book o :
  engine_inv w e -> order_books_ e !! sym = Some book ->
  order_ok o -> filled_size o = 0 ->
  let p := brk w in
  let w2 := (make_shared (now w).2 o).2 in
  let mo := match_order p w2 book in
  world_ok mo.1.2 /\ book_inv mo.1.2 mo.2 /\ (p ∉ resting mo.2) /\
  resting mo.2 `sublist_of` resting book /\
  brk mo.1.2 = S (brk w) /\
  filled_size (heap mo.1.2 p) <= size (heap mo.1.2 p) /\
  (forall q, (q < brk w)%nat -> q ∉ resting book ->
             heap mo.1.2 q = heap w q).
Proof.
  intros (Hw & Hb & Hd) Hsym Ho Hz. cbv zeta.
  destruct (Hb _ _ Hsym) as [Hinv Hfresh].
  destruct (placed_order_ready w book o Hw Ho Hinv Hfresh)
    as (Hw2 & Hinv2 & Hp & Hhp).
  set (w2 := (make_shared (now w).2 o).2) in *.
  assert (Hle : filled_size (heap w2 (brk w)) <= size (heap w2 (brk w))).
  { rewrite Hhp, Hz. destruct Ho as (Hs & _). unfold u64 in Hs. lia. }
  destruct (match_order_facts (brk w) w2 book Hw2 Hinv2 Hp Hle)
    as (G1 & G2 & G3 & G4 & G5 & G6 & G7 & G8 & G9).
  split_and!; auto.
  - apply match_order_resting_sub.
  - intros q Hlt Hq. rewrite G7.
    + simpl. apply upd_other. lia.
    + lia.
    + intros Hq'. apply Hq. apply elem_of_resting. eauto.
Qed.

Lemma engine_inv_place_limit_order pol sym id s sz prc w e :
  engine_inv w e -> u64 sz ->
  let r := place_limit_order pol sym id s sz prc w e in
  engine_inv (r_world r) (r_engine r).
Proof.
  intros He Hsz. cbv zeta.
  destruct (order_books_ e !! sym) as [book|] eqn:Hsym.
  2:{ unfold place_limit_order. by rewrite Hsym. }
  rewrite (place_limit_order_unfold _ _ _ _ _ _ _ _ _ Hsym). cbv zeta.
  destruct (placed_match_facts w e sym book
              (limit_order id s sym sz prc (now w).1) He Hsym
              (limit_order_ok _ _ _ _ _ _ Hsz) eq_refl)
    as (G1 & G2 & G3 & G4 & G5 & G6 & G7).
  set (mo := match_order _ _ _) in *. clearbody mo. simpl r_world.
  simpl r_engine.
  destruct (is_filled (heap mo.1.2 (brk w))) eqn:Ef.
  - eapply engine_inv_update; eauto.
    + simpl. lia.
    + intros q Hq. left. by eapply elem_of_sublist.
  - eapply engine_inv_update; eauto.
    + by apply add_order_inv.
    + rewrite add_order_world. simpl. lia.
    + intros q. rewrite add_order_resting, add_order_world.
      intros [->|Hq]%elem_of_cons; [right; simpl; lia|].
      left. by eapply elem_of_sublist.
Qed.

Lemma engine_inv_place_market_order sym id s sz w e :
  engine_inv w e -> u64 sz ->
  let r := place_market_order sym id s sz w e in
  engine_inv (r_world r) (r_engine r).
Proof.
  intros He Hsz. cbv zeta.
  destruct (order_books_ e !! sym) as [book|] eqn:Hsym.
  2:{ unfold place_market_order. by rewrite Hsym. }
  rewrite (place_market_order_unfold _ _ _ _ _ _ _ Hsym). cbv zeta.
  destruct (placed_match_facts w e sym book
              (market_order id s sym sz (now w).1) He Hsym
              (market_order_ok _ _ _ _ _ Hsz) eq_refl)
    as (G1 & G2 & G3 & G4 & G5 & G6 & G7).
  set (mo := match_order _ _ _) in *. clearbody mo. simpl r_world.
  simpl r_engine.
  eapply engine_inv_update; eauto.
  - lia.
  - intros q Hq. left. by eapply elem_of_sublist.
Qed.

Lemma cancel_order_facts id w b :
  let r := cancel_order id w b in
  resting r.2 `sublist_of` resting b /\ brk r.1.2 = brk w /\
  (forall q, (id, q) ∉ order_map_ b -> heap r.1.2 q = heap w q).
Proof.
  cbv zeta. destruct (mm_equal_range id (order_map_ b)) as [|p ps] eqn:E.
  - by rewrite cancel_order_none.
  - rewrite (cancel_order_some _ _ _ _ _ E). cbv zeta. simpl.
    split_and!; auto.
    + change (resting (set_last_update_time ?t ?b)) with (resting b).
      change (resting (set_order_map ?m ?b)) with (resting b).
      apply resting_set_sublist, erase_first_sublist.
    + intros q Hq. apply upd_other. intros ->. apply Hq.
      apply elem_of_mm_equal_range. rewrite E. by left.
Qed.

Lemma engine_cancel_order_unfold id w e sym syms book :
  mm_equal_range id (order_id_to_symbol_ e) = sym :: syms ->
  order_books_ e !! sym = Some book ->
  let r := cancel_order id w book in
  engine_cancel_order id w e =
    (r.1.1, r.1.2,
     mkEngine (<[sym := r.2]> (order_books_ e))
       (if r.1.1 then mm_erase id sym (order_id_to_symbol_ e)
        else order_id_to_symbol_ e)
       (trade_callbacks_ e)).
Proof.
  intros H1 H2. unfold engine_cancel_order. rewrite H1, H2. cbv zeta.
  by destruct (cancel_order id w book) as [[ok w1] book1].
Qed.

Lemma engine_inv_cancel_order id w e :
  engine_inv w e ->
  engine_inv (engine_cancel_order id w e).1.2 (engine_cancel_order id w e).2.
Proof.
  intros He.
  destruct (mm_equal_range id (order_id_to_symbol_ e)) as [|sym syms] eqn:E.
  { unfold engine_cancel_order. by rewrite E. }
  destruct (order_books_ e !! sym) as [book|] eqn:Hsym.
  2:{ unfold engine_cancel_order. by rewrite E, Hsym. }
  rewrite (engine_cancel_order_unfold _ _ _ _ _ _ E Hsym). cbv zeta.
  pose proof He as (Hw & Hb & Hd). destruct (Hb _ _ Hsym) as [Hinv Hfresh].
  destruct (cancel_order_inv id w book Hw Hinv) as [G1 G2].
  destruct (cancel_order_facts id w book) as (G3 & G4 & G5).
  simpl fst. simpl snd.
  eapply engine_inv_update; eauto.
  - lia.
  - intros q Hq. left. by eapply elem_of_sublist.
  - intros q _ Hq. apply G5. intros Hin. apply Hq.
    by eapply indexed_resting.
Qed.

(** Every state the engine reaches is well formed. *)
Lemma engine_reachable_inv pol w e :
  engine_reachable pol w e -> engine_inv w e.
Proof.
  induction 1.
  - by apply engine_inv_new.
  - by apply engine_inv_add_order_book.
  - by apply engine_inv_register.
  - by apply engine_inv_place_limit_order.
  - by apply engine_inv_place_market_order.
  - by apply engine_inv_cancel_order.
Qed.

(** In such a state the loop of [match_order] has run to its end when
    [match_order] returns from a [place_*] call: the turns it was given
    were enough. *)
Lemma placed_match_complete w e sym book o :
  engine_inv w e -> order_books_ e !! sym = Some book -> order_ok o ->
  let p := brk w in
  let w2 := (make_shared (now w).2 o).2 in
  match_body p
    (match_loop (S (length (side_orders (opposite (side (heap w2 p))) book)))
       p (mkMatch w2 book [])) = None.
Proof.
  intros (Hw & Hb & Hd) Hsym Ho. cbv zeta.
  destruct (Hb _ _ Hsym) as [Hinv Hfresh].
  destruct (placed_order_ready w book o Hw Ho Hinv Hfresh)
    as (Hw2 & Hinv2 & Hp & Hhp).
  apply match_loop_done; auto.
Qed.

Lemma world_0_ok : world_ok world_0.
Proof. intros q. unfold order_ok, u64, two64. simpl. lia. Qed.

Lemma engine_T_inv : engine_inv world_0 engine_T.
Proof. apply engine_inv_add_order_book, engine_inv_new, world_0_ok. Qed.

Lemma one_sell_inv pol :
  engine_inv (r_world (one_sell pol)) (r_engine (one_sell pol)).
Proof.
  apply engine_inv_place_limit_order; [apply engine_T_inv|].
  unfold u64, two64. lia.
Qed.

(** ** Who appends the incoming order *)

(** C4: [match_order] adds nothing to the book, so an order that was not
    resting before is not resting after it.  In a well-formed engine the
    order placed by [place_limit_order] rests afterwards exactly when it
    has a remaining quantity, and the one placed by [place_market_order]
    never rests. *)
Theorem residual_appended_by_engine_only pol sym id s sz prc w e book :
  engine_inv w e -> u64 sz -> order_books_ e !! sym = Some book ->
  let p := brk w in
  (forall q w0 b0, q ∉ resting b0 -> q ∉ resting (match_order q w0 b0).2) /\
  (let r := place_limit_order pol sym id s sz prc w e in
   exists book',
     order_books_ (r_engine r) !! sym = Some book' /\
     (p ∈ resting book' <-> 0 < remaining_size (heap (r_world r) p))) /\
  (let r := place_market_order sym id s sz w e in
   exists book',
     order_books_ (r_engine r) !! sym = Some book' /\ (p ∉ resting book')).
Proof.
  intros He Hsz Hsym. cbv zeta. split_and!.
  - intros q w0 b0 Hq Hq'. apply Hq.
    eapply elem_of_sublist; [exact Hq'|apply match_order_resting_sub].
  - rewrite (place_limit_order_unfold _ _ _ _ _ _ _ _ _ Hsym). cbv zeta.
    destruct (placed_match_facts w e sym book
                (limit_order id s sym sz prc (now w).1) He Hsym
                (limit_order_ok _ _ _ _ _ _ Hsz) eq_refl)
      as (G1 & G2 & G3 & G4 & G5 & G6 & G7).
    set (mo := match_order _ _ _) in *. clearbody mo.
    simpl r_world. simpl r_engine. simpl order_books_.
    eexists. split; [apply lookup_insert_eq|].
    destruct (is_filled (heap mo.1.2 (brk w))) eqn:Ef.
    + simpl fst. simpl snd. apply is_filled_true in Ef.
      assert (E : remaining_size (heap mo.1.2 (brk w)) = 0).
      { unfold remaining_size.
        replace (size (heap mo.1.2 (brk w)) - filled_size (heap mo.1.2 (brk w)))
          with 0 by lia. reflexivity. }
      rewrite E. split; [intros Hin; by apply G3 in Hin|lia].
    + rewrite add_order_resting, add_order_world. simpl heap.
      destruct (remaining_size_open _ (G1 (brk w)) Ef) as [_ Hpos].
      split; [intros _; exact Hpos|intros _; by left].
  - rewrite (place_market_order_unfold _ _ _ _ _ _ _ Hsym). cbv zeta.
    destruct (placed_match_facts w e sym book
                (market_order id s sym sz (now w).1) He Hsym
                (market_order_ok _ _ _ _ _ Hsz) eq_refl)
      as (G1 & G2 & G3 & _).
    simpl r_engine. simpl order_books_.
    eexists. split; [apply lookup_insert_eq|exact G3].
Qed.

(** A buy order of 150 at 10 placed against the resting sell order of
    100: it trades 100 and rests with the 50 that remain. *)
Lemma residual_appended_by_engine_only_witness :
  let w := r_world (one_sell InsertionOrder) in
  let e := r_engine (one_sell InsertionOrder) in
  let r := place_limit_order InsertionOrder "T" "B1" Buy 150 10 w e in
  exists book',
    order_books_ (r_engine r) !! "T" = Some book' /\
    (brk w ∈ resting book' <-> 0 < remaining_size (heap (r_world r) (brk w))).
Proof.
  cbv zeta.
  refine (proj1 (proj2
    (residual_appended_by_engine_only InsertionOrder "T" "B1" Buy 150 10
       (r_world (one_sell InsertionOrder)) (r_engine (one_sell InsertionOrder))
       (mkBook "T" [] [0%nat] [("S1", 0%nat)] 2)
       (one_sell_inv InsertionOrder) _ _))).
  - unfold u64, two64. lia.
  - reflexivity.
Defined.

(** ** An order that arrives filled *)

Lemma match_order_filled p w b :
  is_filled (heap w p) = true ->
  match_order p w b = ([], (now w).2, set_last_update_time (now w).1 b).
Proof.
  intros H. rewrite match_order_unfold. cbv zeta.
  rewrite match_loop_None; [reflexivity|].
  by apply match_body_filled.
Qed.

(** C9 as the code has it: a limit order of size 0 placed on an existing
    symbol returns no trades, calls no callback, and leaves the two sides
    and the id index of the book as they were; the loop never runs and
    the order is not appended.  The one field of the book that changes is
    [last_update_time_], which [match_order] sets on every call. *)
Theorem zero_size_limit_order_not_booked pol sym id s prc w e book :
  order_books_ e !! sym = Some book ->
  let r := place_limit_order pol sym id s 0 prc w e in
  r_trades r = [] /\ r_notified r = [] /\
  exists book',
    order_books_ (r_engine r) !! sym = Some book' /\
    buy_orders_ book' = buy_orders_ book /\
    sell_orders_ book' = sell_orders_ book /\
    order_map_ book' = order_map_ book /\
    symbol_ book' = symbol_ book /\
    last_update_time_ book' = wrap64 (clock w (S (ticks w))) /\
    (forall sym', sym' <> sym ->
       order_books_ (r_engine r) !! sym' = order_books_ e !! sym').
Proof.
  intros Hsym. cbv zeta.
  rewrite (place_limit_order_unfold _ _ _ _ _ _ _ _ _ Hsym). cbv zeta.
  set (w2 := (make_shared (now w).2 (limit_order id s sym 0 prc (now w).1)).2).
  assert (Hf : is_filled (heap w2 (brk w)) = true).
  { unfold w2. simpl. by rewrite upd_same. }
  rewrite (match_order_filled _ _ _ Hf). unfold w2. simpl.
  rewrite !upd_same. simpl. split_and!; try reflexivity.
  eexists. split; [apply lookup_insert_eq|].
  split_and!; try reflexivity.
  intros sym' Hne. by apply lookup_insert_ne.
Qed.

Lemma zero_size_limit_order_not_booked_witness :
  r_trades (zero_size_order InsertionOrder) = [] /\
  order_books_ (r_engine (zero_size_order InsertionOrder)) !! "T"
    = Some (mkBook "T" [] [] [] 1).
Proof.
  destruct (zero_size_limit_order_not_booked InsertionOrder "T" "Z" Buy 10
              world_0 engine_T (new_book "T") eq_refl)
    as (Ht & _ & book' & Hb & _).
  split; [exact Ht|reflexivity].
Defined.

(** C9 as stated fails on [last_update_time_]: the book ["T"] held 0
    there before the call and holds the clock reading 1 after it. *)
Lemma zero_size_limit_order_touches_book :
  r_trades (zero_size_order InsertionOrder) = [] /\
  order_books_ (r_engine (zero_size_order InsertionOrder)) !! "T"
    <> order_books_ engine_T !! "T".
Proof. split; [reflexivity|]. vm_compute. discriminate. Qed.

(** ** Cancelling through the engine *)

Lemma engine_eta e :
  mkEngine (order_books_ e) (order_id_to_symbol_ e) (trade_callbacks_ e) = e.
Proof. by destruct e. Qed.

(** C10: when the id is in the id-to-symbol index but the book of the
    symbol found there has no resting order of that id, the call returns
    false and leaves the index, every book and every order as they were;
    so any number of further calls with the id return false as well. *)
Theorem engine_cancel_stale_id id w e sym syms book :
  mm_equal_range id (order_id_to_symbol_ e) = sym :: syms ->
  order_books_ e !! sym = Some book ->
  mm_equal_range id (order_map_ book) = [] ->
  engine_cancel_order id w e = (false, w, e) /\
  forall n, cancel_times n id w e = (replicate n false, w, e).
Proof.
  intros Hidx Hsym Hnone.
  assert (E : engine_cancel_order id w e = (false, w, e)).
  { rewrite (engine_cancel_order_unfold _ _ _ _ _ _ Hidx Hsym). cbv zeta.
    rewrite (cancel_order_none _ _ _ Hnone). simpl.
    rewrite insert_id by exact Hsym. by rewrite engine_eta. }
  split; [exact E|].
  induction n as [|n IH]; [reflexivity|].
  simpl. by rewrite E, IH.
Qed.

(** After the buy order ["B1"] was filled completely its id is still in
    the index while the book ["T"] is empty: cancelling it fails, again
    and again. *)
Lemma engine_cancel_stale_id_witness :
  let r := full_fill InsertionOrder in
  mm_equal_range "B1" (order_id_to_symbol_ (r_engine r)) = ["T"] /\
  engine_cancel_order "B1" (r_world r) (r_engine r)
    = (false, r_world r, r_engine r) /\
  cancel_times 3 "B1" (r_world r) (r_engine r)
    = ([false; false; false], r_world r, r_engine r).
Proof.
  cbv zeta.
  destruct (engine_cancel_stale_id "B1" (r_world (full_fill InsertionOrder))
              (r_engine (full_fill InsertionOrder)) "T" []
              (mkBook "T" [] [] [] 5) eq_refl eq_refl eq_refl) as [H1 H2].
  split; [reflexivity|]. split; [exact H1|exact (H2 3%nat)].
Defined.

(** ** The id-to-symbol entry of a filled limit order *)

(** [place_limit_order] files the id under the symbol before matching and
    never takes the entry out again, so the index after the call is the
    index before it plus that entry, whether or not the order came to
    rest. *)
Lemma place_limit_order_index pol sym id s sz prc w e book :
  order_books_ e !! sym = Some book ->
  order_id_to_symbol_ (r_engine (place_limit_order pol sym id s sz prc w e))
    = mm_insert pol id sym (order_id_to_symbol_ e).
Proof.
  intros Hsym. by rewrite (place_limit_order_unfold _ _ _ _ _ _ _ _ _ Hsym).
Qed.

(** C6 (what the code does where the claim wants the entry removed): the
    buy order ["B1"] of 100 at 10 is filled completely by the resting
    sell order: one trade, nothing rests in the book afterwards, and yet
    ["B1"] is still filed under ["T"] in the id-to-symbol index when
    [place_limit_order] returns. *)
Theorem filled_limit_order_stays_indexed pol :
  let r := full_fill pol in
  r_trades r = [mkTrade "B1" "S1" 100 10 4] /\
  is_filled (heap (r_world r) 1%nat) = true /\
  (resting <$> order_books_ (r_engine r) !! "T") = Some [] /\
  mm_equal_range "B1" (order_id_to_symbol_ (r_engine r)) = ["T"].
Proof. destruct pol; vm_compute; auto. Qed.

(** What the entry left behind does later.  When the id ["B1"] is used
    again for an order that rests in another book, the engine looks for
    it in the book the first entry of the id names; where that is the
    entry left behind, the cancel fails and the live order keeps resting.
    That happens with an insertion-ordered index and with that of
    libstdc++ when the filled order came first, and with a newest-first
    index when it came last. *)
Lemma stale_entry_blocks_cancel :
  (forall pol, pol = InsertionOrder \/ pol = Libstdcxx ->
   let r := reused_id pol in
   (resting <$> order_books_ (r_engine r) !! "O") = Some [2%nat] /\
   (engine_cancel_order "B1" (r_world r) (r_engine r)).1.1 = false) /\
  (let r := reused_id_later NewestFirst in
   (resting <$> order_books_ (r_engine r) !! "O") = Some [1%nat] /\
   (engine_cancel_order "B1" (r_world r) (r_engine r)).1.1 = false).
Proof.
  split; [intros pol [-> | ->]|]; vm_compute; auto.
Qed.

(** ** Cancelling an id that several resting orders share *)

(** [cancel_order] takes out the order that [equal_range] shows first,
    and nothing else: the other orders of the id keep resting, in the
    same order of the range. *)
Lemma cancel_order_first_of_range id w b p ps :
  book_inv w b -> mm_equal_range id (order_map_ b) = p :: ps ->
  let r := cancel_order id w b in
  r.1.1 = true /\
  mm_equal_range id (order_map_ r.2) = ps /\
  resting b ≡ₚ p :: resting r.2 /\
  status (heap r.1.2 p) = Cancelled /\
  (forall q, q <> p -> heap r.1.2 q = heap w q).
Proof.
  intros Hinv E. cbv zeta. rewrite (cancel_order_some _ _ _ _ _ E).
  cbv zeta. simpl fst. simpl snd.
  assert (Hin : (id, p) ∈ order_map_ b).
  { apply elem_of_mm_equal_range. rewrite E. by left. }
  pose proof (indexed_resting _ _ _ _ Hinv Hin) as Hr.
  assert (Hs : p ∈ side_orders (side (heap w p)) b).
  { apply elem_of_resting in Hr as [s Hs].
    by rewrite (inv_side _ _ Hinv _ _ Hs). }
  split_and!.
  - reflexivity.
  - simpl. by apply mm_equal_range_erase_head.
  - change (resting (set_last_update_time ?t ?b)) with (resting b).
    change (resting (set_order_map ?m ?b)) with (resting b).
    by apply resting_erase_perm.
  - simpl. by rewrite upd_same.
  - intros q Hq. simpl. by apply upd_other.
Qed.

(** Where [add_order] files the new order among those of its id. *)
Lemma add_order_range pol p w b :
  let range := mm_equal_range (order_id (heap w p)) (order_map_ b) in
  mm_equal_range (order_id (heap w p)) (order_map_ (add_order pol p w b).2)
    = match pol with
      | InsertionOrder => range ++ [p]
      | NewestFirst => p :: range
      | Libstdcxx =>
          if (length (order_map_ b) <=? 20)%nat then
            match range with
            | [] => [p]
            | p0 :: ps => p0 :: p :: ps
            end
          else p :: range
      end.
Proof.
  cbv zeta. rewrite add_order_map. destruct pol.
  - apply mm_equal_range_insert_same.
  - apply mm_equal_range_insert_front.
  - unfold mm_insert. destruct (length (order_map_ b) <=? 20)%nat.
    + apply mm_equal_range_insert_after_first.
    + apply mm_equal_range_insert_front.
Qed.

(** With an index that keeps the entries of an id in insertion order,
    [cancel_order] cancels the orders of an id first in, first out. *)
Lemma cancel_order_fifo id w b p ps q :
  book_inv w b -> q ∉ resting b -> is_filled (heap w q) = false ->
  order_id (heap w q) = id ->
  mm_equal_range id (order_map_ b) = p :: ps ->
  let a := add_order InsertionOrder q w b in
  let r := cancel_order id a.1 a.2 in
  r.1.1 = true /\ mm_equal_range id (order_map_ r.2) = ps ++ [q] /\
  (p ∉ resting r.2) /\ q ∈ resting r.2.
Proof.
  intros Hinv Hq Hf Hid E. cbv zeta.
  pose proof (add_order_inv InsertionOrder q w b Hinv Hq Hf) as Hinv'.
  pose proof (add_order_range InsertionOrder q w b) as Hrange.
  rewrite Hid, E in Hrange. simpl in Hrange.
  destruct (cancel_order_first_of_range id _ _ p (ps ++ [q]) Hinv' Hrange)
    as (G1 & G2 & G3 & _).
  split_and!; auto.
  - pose proof (inv_nodup _ _ Hinv') as Hnd. rewrite G3 in Hnd.
    by apply NoDup_cons in Hnd as [Hnd _].
  - assert (Hq' : q ∈ resting (add_order InsertionOrder q w b).2).
    { rewrite add_order_resting. by left. }
    rewrite G3 in Hq'. apply elem_of_cons in Hq' as [->|Hq']; [|exact Hq'].
    exfalso. apply Hq. eapply indexed_resting; [exact Hinv|].
    apply elem_of_mm_equal_range. rewrite E. by left.
Qed.

(** In [dup_state3] three buy orders rest under the id ["U"]: address 0
    (100 at 10) was added first, address 1 (200 at 11) second and
    address 2 (300 at 12) last.  With an insertion-ordered index the
    cancels take them out in that order and the fourth returns false. *)
Lemma cancel_shared_id_insertion_order :
  let s := dup_state3 InsertionOrder in
  let c1 := cancel_order "U" s.1 s.2 in
  let c2 := cancel_order "U" c1.1.2 c1.2 in
  let c3 := cancel_order "U" c2.1.2 c2.2 in
  let c4 := cancel_order "U" c3.1.2 c3.2 in
  resting s.2 = [2%nat; 1%nat; 0%nat] /\
  (c1.1.1, resting c1.2) = (true, [2%nat; 1%nat]) /\
  (c2.1.1, resting c2.2) = (true, [2%nat]) /\
  (c3.1.1, resting c3.2) = (true, []) /\
  c4.1.1 = false.
Proof. vm_compute. auto 10. Qed.

(** With an index that puts a new entry in front of those of its id, the
    first cancel already takes out the order added last. *)
Lemma cancel_shared_id_newest_first :
  let s := dup_state3 NewestFirst in
  let c1 := cancel_order "U" s.1 s.2 in
  order_map_ s.2 = [("U", 2%nat); ("U", 1%nat); ("U", 0%nat)] /\
  (c1.1.1, resting c1.2) = (true, [1%nat; 0%nat]) /\
  status (heap c1.1.2 2%nat) = Cancelled.
Proof. vm_compute. auto 10. Qed.

(** C5 (what the code does with the index of libstdc++): in the same
    state, with the index of libstdc++, the order added last is filed
    second under the id.  The first cancel takes out address 0, the order
    added first; the second cancel takes out address 2, the order added
    last, and leaves address 1, added before it, resting, so that the
    best bid is 11 and not 12.  The third cancel takes out address 1 and
    the fourth returns false. *)
Theorem cancel_shared_id_libstdcxx :
  let s := dup_state3 Libstdcxx in
  let c1 := cancel_order "U" s.1 s.2 in
  let c2 := cancel_order "U" c1.1.2 c1.2 in
  let c3 := cancel_order "U" c2.1.2 c2.2 in
  let c4 := cancel_order "U" c3.1.2 c3.2 in
  order_map_ s.2 = [("U", 0%nat); ("U", 2%nat); ("U", 1%nat)] /\
  (c1.1.1, resting c1.2) = (true, [2%nat; 1%nat]) /\
  (c2.1.1, resting c2.2) = (true, [1%nat]) /\
  status (heap c2.1.2 2%nat) = Cancelled /\
  best_bid c2.1.2 c2.2 = 11%Q /\
  (c3.1.1, resting c3.2) = (true, []) /\
  c4.1.1 = false.
Proof. vm_compute. auto 10. Qed.

(** Once the index holds more than 20 entries, libstdc++ files a new
    order in front of those of its id, so that the next cancel of the id
    takes out the order added last. *)
Lemma libstdcxx_large_index p w b :
  (20 < length (order_map_ b))%nat ->
  mm_equal_range (order_id (heap w p))
    (order_map_ (add_order Libstdcxx p w b).2)
    = p :: mm_equal_range (order_id (heap w p)) (order_map_ b).
Proof.
  intros H. rewrite add_order_range. cbv zeta.
  destruct (length (order_map_ b) <=? 20)%nat eqn:E; [|done].
  apply Nat.leb_le in E. lia.
Qed.

(** Two orders of one id placed through the engine, and the id cancelled
    through it: with a newest-first index the order placed last goes
    first, with an insertion-ordered one the order placed first. *)
Lemma engine_cancel_shared_id :
  (let r := engine_dup NewestFirst in
   let c := engine_cancel_order "U" (r_world r) (r_engine r) in
   (resting <$> order_books_ (r_engine r) !! "T") = Some [1%nat; 0%nat] /\
   c.1.1 = true /\
   (resting <$> order_books_ c.2 !! "T") = Some [0%nat]) /\
  (let r := engine_dup InsertionOrder in
   let c := engine_cancel_order "U" (r_world r) (r_engine r) in
   c.1.1 = true /\
   (resting <$> order_books_ c.2 !! "T") = Some [1%nat]).
Proof. vm_compute. auto 10. Qed.

(** ** Adding an order and cancelling its id *)








(** With an index that puts a new entry in front of those of its id (as
    libstdc++ does once the index holds more than 20 entries), the cancel
    takes out the order just added, so the book is given back even when
    resting orders share the id. *)
Lemma add_cancel_newest_first p w b :
  book_inv w b -> p ∉ resting b ->
  let a := add_order NewestFirst p w b in
  let c := cancel_order (order_id (heap w p)) a.1 a.2 in
  c.1.1 = true /\ order_map_ c.2 = order_map_ b /\ resting c.2 = resting b.
Proof.
  intros Hinv Hp. cbv zeta.
  set (id := order_id (heap w p)) in *.
  set (s := side (heap w p)).
  pose proof (add_order_range NewestFirst p w b) as Hrange.
  fold id in Hrange. cbv iota in Hrange.
  assert (Hside : erase_first p (side_orders s (add_order NewestFirst p w b).2)
                  = side_orders s b).
  { rewrite add_order_side. fold s. rewrite decide_True by done.
    destruct (sort_push_back (side_before s (heap w)) (side_orders s b) p
                (inv_sorted _ _ Hinv s)) as (l1 & l2 & El & ->).
    rewrite El. apply erase_first_middle.
    intros Hin. apply Hp. apply elem_of_resting. exists s.
    rewrite El. apply elem_of_app. by left. }
  assert (Hother : side_orders (opposite s) (add_order NewestFirst p w b).2
                   = side_orders (opposite s) b).
  { rewrite add_order_side. fold s. rewrite decide_False; [done|].
    by destruct s. }
  assert (Hmap : mm_erase id p (order_map_ (add_order NewestFirst p w b).2)
                 = order_map_ b).
  { rewrite add_order_map. fold id. simpl.
    rewrite decide_True by done. by rewrite decide_True. }
  assert (Hheap : heap (add_order NewestFirst p w b).1 = heap w)
    by reflexivity.
  set (a := add_order NewestFirst p w b) in *. clearbody a.
  rewrite (cancel_order_some _ _ _ _ _ Hrange). cbv zeta.
  rewrite Hheap. fold s. simpl fst. simpl snd.
  split_and!.
  - reflexivity.
  - simpl. exact Hmap.
  - unfold resting. destruct s; simpl in *; by rewrite Hside, Hother.
Qed.

(** ** The order of the trades of one call *)


Lemma higher_priority_irrefl s h a : higher_priority s h a a = false.
Proof.
  destruct (higher_priority s h a a) eqn:E; [|done].
  pose proof (side_before_asym s h a a E). unfold higher_priority in E.
  congruence.
Qed.

Lemma trade_of_static h h' p t m :
  same_static h h' -> trade_of h' p t m -> trade_of h p t m.
Proof.
  intros Hst (H1 & H2 & H3).
  destruct (Hst p) as (Ep1 & Ep2 & _).
  destruct (Hst m) as (Em1 & _ & _ & _ & _ & Em2 & _).
  unfold trade_of. by rewrite <- Ep1, <- Ep2, <- Em1, <- Em2.
Qed.

Lemma match_body_trade p st st' :
  match_body p st = Some st' ->
  exists m rest t,
    side_orders (opposite (side (heap (m_world st) p))) (m_book st)
      = m :: rest /\
    m_trades st' = m_trades st ++ [t] /\
    trade_of (heap (m_world st)) p t m.
Proof.
  intros H. pose proof (match_body_static _ _ _ H) as Hst.
  apply match_body_Some in H. cbv zeta in H.
  destruct H as (m & rest & Hopp & _ & Hh & _ & _ & _ & Ht & _).
  exists m, rest. eexists. split; [exact Hopp|]. split; [exact Ht|].
  rewrite <- Hh.
  destruct (Hst p) as (Ep1 & Ep2 & _). destruct (Hst m) as (Em1 & _).
  unfold trade_of. rewrite Ep2, Ep1, Em1.
  by destruct (side (heap (m_world st) p)).
Qed.

(** The trades the loop records are made, one each and in this order,
    with the orders at the front of the contra side. *)
Lemma match_loop_makers n p st :
  world_ok (m_world st) -> book_inv (m_world st) (m_book st) ->
  p ∉ resting (m_book st) ->
  exists new makers,
    m_trades (match_loop n p st) = m_trades st ++ new /\
    makers `prefix_of`
      side_orders (opposite (side (heap (m_world st) p))) (m_book st) /\
    Forall2 (trade_of (heap (m_world st)) p) new makers.
Proof.
  revert st. induction n as [|n IH]; intros st Hw Hinv Hp.
  { exists [], []. simpl. rewrite app_nil_r.
    split_and!; [done|apply prefix_nil|constructor]. }
  destruct (match_body p st) as [st1|] eqn:E.
  2:{ rewrite match_loop_None by done. exists [], [].
      rewrite app_nil_r. split_and!; [done|apply prefix_nil|constructor]. }
  rewrite (match_loop_S _ _ _ _ E).
  pose proof (match_body_static _ _ _ E) as Hst.
  destruct (match_body_trade _ _ _ E) as (m & rest & t & Hopp & Ht & Hof).
  destruct (match_body_step _ _ _ Hw Hinv Hp E)
    as (Hw1 & Hinv1 & Hp1 & _ & _ & m' & rest' & Hopp' & Hcase).
  rewrite Hopp in Hopp'. injection Hopp' as <- <-.
  destruct Hcase as [Hrest|[_ Hfilled]].
  - destruct (IH st1 Hw1 Hinv1 Hp1) as (new & makers & G1 & G2 & G3).
    destruct (Hst p) as (_ & Es & _). rewrite Es, Hrest in G2.
    exists (t :: new), (m :: makers). split_and!.
    + rewrite G1, Ht. by rewrite <- app_assoc.
    + rewrite Hopp. by apply prefix_cons.
    + constructor; [exact Hof|].
      eapply Forall2_impl; [exact G3|].
      intros t' m'. by apply trade_of_static.
  - rewrite match_loop_None by (by apply match_body_filled).
    exists [t], [m]. split_and!.
    + exact Ht.
    + rewrite Hopp. apply prefix_cons, prefix_nil.
    + constructor; [exact Hof|constructor].
Qed.

Lemma match_order_makers p w b :
  world_ok w -> book_inv w b -> p ∉ resting b ->
  exists makers,
    makers `prefix_of` side_orders (opposite (side (heap w p))) b /\
    Forall2 (trade_of (heap w) p) (match_order p w b).1.1 makers.
Proof.
  intros Hw Hinv Hp. rewrite match_order_unfold. cbv zeta.
  destruct (match_loop_makers
              (S (length (side_orders (opposite (side (heap w p))) b))) p
              (mkMatch w b []) Hw Hinv Hp) as (new & makers & G1 & G2 & G3).
  exists makers. split; [exact G2|].
  set (st := match_loop _ _ _) in *. clearbody st. simpl in *.
  by rewrite G1.
Qed.

Lemma delivered_to_notify cb e ts :
  NoDup (trade_callbacks_ e) -> cb ∈ trade_callbacks_ e ->
  delivered_to cb (notify_trades e ts) = ts.
Proof.
  intros Hnd Hcb. unfold delivered_to, notify_trades, notify_trade.
  assert (Hone : forall t,
    filter (fun c : TradeCallback * Trade => c.1 = cb)
      (map (fun c => (c, t)) (trade_callbacks_ e)) = [(cb, t)]).
  { intros t. induction Hnd as [|c l Hc Hl IH]; [by apply elem_of_nil in Hcb|].
    simpl. destruct (decide (c = cb)) as [->|Hne].
    - rewrite filter_cons_True by done. f_equal.
      clear IH Hcb. induction l as [|c' l IH]; [done|].
      apply not_elem_of_cons in Hc as [Hc1 Hc2].
      apply NoDup_cons in Hl as [_ Hl].
      simpl. rewrite filter_cons_False by (simpl; congruence). auto.
    - rewrite filter_cons_False by (simpl; congruence).
      apply IH. by apply elem_of_cons in Hcb as [->|Hcb]. }
  induction ts as [|t ts IH]; [done|].
  simpl. rewrite filter_app, map_app, Hone. simpl. by rewrite IH.
Qed.

Lemma placed_trades w e sym book o :
  engine_inv w e -> order_books_ e !! sym = Some book -> order_ok o ->
  let w2 := (make_shared (now w).2 o).2 in
  exists makers,
    makers `prefix_of` side_orders (opposite (side o)) book /\
    Forall2 (fun t m =>
               trade_maker_id (side o) t = order_id (heap w m) /\
               trade_taker_id (side o) t = order_id o /\
               trade_price t = price (heap w m))
      (match_order (brk w) w2 book).1.1 makers.
Proof.
  intros (Hw & Hb & Hd) Hsym Ho. cbv zeta.
  destruct (Hb _ _ Hsym) as [Hinv Hfresh].
  destruct (placed_order_ready w book o Hw Ho Hinv Hfresh)
    as (Hw2 & Hinv2 & Hp & Hhp).
  set (w2 := (make_shared (now w).2 o).2) in *.
  destruct (match_order_makers (brk w) w2 book Hw2 Hinv2 Hp)
    as (makers & G1 & G2).
  rewrite Hhp in G1. exists makers. split; [exact G1|].
  apply Forall2_same_length_lookup. split; [by eapply Forall2_length|].
  intros i t m Ht Hm.
  destruct (Forall2_lookup_lr _ _ _ _ _ _ G2 Ht Hm) as (H1 & H2 & H3).
  rewrite Hhp in H1, H2.
  assert (Hmw : heap w2 m = heap w m).
  { unfold w2. simpl. apply upd_other. intros ->. apply Hp.
    apply elem_of_resting. exists (opposite (side o)).
    destruct G1 as [k ->]. apply elem_of_app. left.
    by eapply list_elem_of_lookup_2. }
  by rewrite Hmw in H1, H3.
Qed.

(** C2 as the code has it: the trades of one [place_limit_order] or
    [place_market_order] call are made, one each and in this order, with
    the orders at the front of the contra side, and every callback is
    called with them in that order.  The side is sorted by price-time
    priority, so the maker of an earlier trade never has strictly lower
    priority than the maker of a later one, the maker with strictly higher
    priority always comes first, and for two makers that differ in price
    or timestamp the earlier trade is exactly the one whose maker has
    strictly higher priority.  Two makers with the same price and the
    same timestamp trade in the order in which they rest. *)
Theorem trades_follow_priority pol sym id s sz prc w e book r :
  engine_inv w e -> u64 sz -> order_books_ e !! sym = Some book ->
  r = place_limit_order pol sym id s sz prc w e \/
  r = place_market_order sym id s sz w e ->
  exists makers,
    makers `prefix_of` side_orders (opposite s) book /\
    Forall2 (fun t m =>
               trade_maker_id s t = order_id (heap w m) /\
               trade_taker_id s t = id /\
               trade_price t = price (heap w m))
      (r_trades r) makers /\
    (forall cb, NoDup (trade_callbacks_ e) -> cb ∈ trade_callbacks_ e ->
       delivered_to cb (r_notified r) = r_trades r) /\
    forall i j mi mj,
      makers !! i = Some mi -> makers !! j = Some mj ->
      ((i < j)%nat -> higher_priority (opposite s) (heap w) mj mi = false) /\
      (higher_priority (opposite s) (heap w) mi mj = true -> (i < j)%nat) /\
      (higher_priority (opposite s) (heap w) mi mj = true \/
       higher_priority (opposite s) (heap w) mj mi = true ->
       ((i < j)%nat <-> higher_priority (opposite s) (heap w) mi mj = true)).
Proof.
  intros He Hsz Hsym Hr.
  assert (Htrades : exists o, order_ok o /\ side o = s /\ order_id o = id /\
            r_trades r =
              (match_order (brk w) (make_shared (now w).2 o).2 book).1.1 /\
            r_notified r = notify_trades e (r_trades r)).
  { destruct Hr as [-> | ->].
    - exists (limit_order id s sym sz prc (now w).1).
      rewrite (place_limit_order_unfold _ _ _ _ _ _ _ _ _ Hsym).
      split_and!; auto using limit_order_ok.
    - exists (market_order id s sym sz (now w).1).
      rewrite (place_market_order_unfold _ _ _ _ _ _ _ Hsym).
      split_and!; auto using market_order_ok. }
  destruct Htrades as (o & Ho & <- & <- & Et & En).
  destruct (placed_trades w e sym book o He Hsym Ho) as (makers & G1 & G2).
  rewrite <- Et in G2.
  pose proof He as (Hw & Hb & _). destruct (Hb _ _ Hsym) as [Hinv _].
  pose proof (inv_sorted _ _ Hinv (opposite (side o))) as Hsorted.
  assert (Hlt : forall i j mi mj,
            makers !! i = Some mi -> makers !! j = Some mj -> (i < j)%nat ->
            higher_priority (opposite (side o)) (heap w) mj mi = false).
  { intros i j mi mj Hi Hj Hij.
    eapply (sorted_side_lookup _ _ _ i j); eauto;
      eapply prefix_lookup_Some; eauto. }
  assert (Hgt : forall i j mi mj,
            makers !! i = Some mi -> makers !! j = Some mj ->
            higher_priority (opposite (side o)) (heap w) mi mj = true ->
            (i < j)%nat).
  { intros i j mi mj Hi Hj Hh.
    destruct (lt_eq_lt_dec i j) as [[Hij|Hij]|Hij]; [exact Hij| |].
    - subst j. rewrite Hi in Hj. injection Hj as <-.
      by rewrite higher_priority_irrefl in Hh.
    - pose proof (Hlt j i mj mi Hj Hi Hij). congruence. }
  exists makers. split_and!; auto.
  - intros cb Hnd Hcb. rewrite En. by apply delivered_to_notify.
  - intros i j mi mj Hi Hj. split_and!; eauto.
    intros Htie. split; [|by eauto].
    intros Hij. pose proof (Hlt i j mi mj Hi Hj Hij) as Hno.
    destruct Htie as [H|H]; [exact H|congruence].
Qed.

(** Scenario S2 of the specification: sells ["S1"] and ["S2"] at 10 and
    ["S3"] at 9 rest; a buy of 200 at 10 trades with ["S3"] first and
    then with ["S1"], the earlier of the two at 10. *)
Lemma trades_follow_priority_witness :
  let r1 := one_sell InsertionOrder in
  let r2 := place_limit_order InsertionOrder "T" "S2" Sell 100 10
              (r_world r1) (r_engine r1) in
  let r3 := place_limit_order InsertionOrder "T" "S3" Sell 100 9
              (r_world r2) (r_engine r2) in
  let r := place_limit_order InsertionOrder "T" "B1" Buy 200 10
             (r_world r3) (r_engine r3) in
  map (trade_maker_id Buy) (r_trades r) = ["S3"; "S1"] /\
  exists makers,
    makers `prefix_of` [2%nat; 0%nat; 1%nat] /\
    Forall2 (fun t m =>
               trade_maker_id Buy t = order_id (heap (r_world r3) m) /\
               trade_taker_id Buy t = "B1" /\
               trade_price t = price (heap (r_world r3) m))
      (r_trades r) makers.
Proof.
  cbv zeta. split; [reflexivity|].
  set (r3 := place_limit_order InsertionOrder "T" "S3" Sell 100 9 _ _).
  assert (Hinv : engine_inv (r_world r3) (r_engine r3)).
  { unfold r3. apply engine_inv_place_limit_order; [|unfold u64, two64; lia].
    apply engine_inv_place_limit_order; [|unfold u64, two64; lia].
    apply one_sell_inv. }
  destruct (trades_follow_priority InsertionOrder "T" "B1" Buy 200 10
              (r_world r3) (r_engine r3)
              (mkBook "T" [] [2%nat; 0%nat; 1%nat]
                 [("S1", 0%nat); ("S2", 1%nat); ("S3", 2%nat)] 8)
              (place_limit_order InsertionOrder "T" "B1" Buy 200 10
                 (r_world r3) (r_engine r3))
              Hinv) as (makers & G1 & G2 & _).
  - unfold u64, two64. lia.
  - reflexivity.
  - by left.
  - exists makers. by split.
Defined.

(** C2 as stated fails on a tie.  The sells ["S1"] and ["S2"] rest at the
    same price with the same timestamp; the buy trades with ["S1"] and
    then with ["S2"], and the callback sees the trades in that order,
    although neither maker has strictly higher priority than the other. *)
Lemma tied_makers_trade_in_book_order :
  let r := tied_buy InsertionOrder in
  let h := heap (r_world (tied_sells InsertionOrder)) in
  map (trade_maker_id Buy) (r_trades r) = ["S1"; "S2"] /\
  map (trade_maker_id Buy) (delivered_to 7%nat (r_notified r))
    = ["S1"; "S2"] /\
  (order_id (h 0%nat), order_id (h 1%nat)) = ("S1", "S2") /\
  higher_priority Sell h 0%nat 1%nat = false /\
  higher_priority Sell h 1%nat 0%nat = false.
Proof. vm_compute. auto 10. Qed.

(** ** The scenarios of the test programs *)

(** The model gives what the assertions of the tests expect: the sell of
    250 at 9 trades with BUY3 (the best price), then BUY1 (the earlier of
    the two at 10), then BUY2 for the 50 that are left; BUY1 and BUY3 are
    filled, BUY2 has 50 filled, BUY4 nothing. *)
Example price_time_priority_complex pol :
  let '(trades, w, b) := s7_result pol in
  map (fun t => (order_id_buy t, trade_size t, trade_price t)) trades
    = [("BUY3", 100, 11%Q); ("BUY1", 100, 10%Q); ("BUY2", 50, 10%Q)] /\
  is_filled (heap w 0%nat) = true /\ filled_size (heap w 1%nat) = 50 /\
  is_filled (heap w 2%nat) = true /\ filled_size (heap w 3%nat) = 0 /\
  buy_orders_ b = [1%nat; 3%nat].
Proof. destruct pol; vm_compute; auto 10. Qed.

(** The market sell of 300 trades 100 at 10 and 100 at 9 and is left with
    100 that go nowhere. *)
Example market_order_insufficient_liquidity pol :
  let '(trades, w, b) := s4_result pol in
  map (fun t => (trade_size t, trade_price t)) trades
    = [(100, 10%Q); (100, 9%Q)] /\
  filled_size (heap w 2%nat) = 200 /\ remaining_size (heap w 2%nat) = 100 /\
  resting b = [].
Proof. destruct pol; vm_compute; auto 10. Qed.

(** The earlier revision of [match_order] behaves differently in two
    respects: it appends the unfilled rest of the incoming limit order to
    the book itself, and it leaves the filled maker filed in the id
    index. *)
Example legacy_match_order_appends :
  let '(trades, w, b) := legacy_match_result in
  map (fun t => (order_id_sell t, trade_size t)) trades = [("SELL1", 100)] /\
  Legacy.buy_orders_ b = [1%nat] /\ Legacy.sell_orders_ b = [] /\
  Legacy.order_map_ b !! "SELL1" = Some 0%nat /\
  Legacy.order_map_ b !! "BUY1" = Some 1%nat.
Proof. vm_compute. auto 10. Qed.

(** * Further properties of the book and of the engine *)

(** ** Orders *)

(** X1: two fills one after the other leave the order as one fill by the
    sum of the two amounts does: the filled size adds up, with the
    wrap-around of [uint64_t], and the status is the one of the total. *)
Theorem fill_accumulates o a b : fill (fill o a) b = fill o (a + b).
Proof.
  assert (E : wrap64 (wrap64 (filled_size o + a) + b)
              = wrap64 (filled_size o + (a + b))).
  { unfold wrap64. rewrite Zplus_mod_idemp_l. f_equal. lia. }
  unfold fill at 1 3.
  destruct (fill_fields o a) as (E1&E2&E3&E4&E5&E6&E7&E8).
  unfold is_filled, set_status, set_filled_size. simpl.
  rewrite E1, E2, E3, E4, E5, E6, E7, E8, E.
  by destruct (size o <=? _).
Qed.

(** ** The comparisons *)

Lemma price_eq_sym a b : price_eq a b = price_eq b a.
Proof.
  apply eq_true_iff_eq. rewrite !price_eq_spec. split; intros H; by symmetry.
Qed.


(** X3: [BuyOrderComparator] and [SellOrderComparator] of the header are
    the converses of the comparisons the two sides are sorted with (with
    them the order of highest priority is the greatest element), and the
    two revisions of [sort_buy_orders] and [sort_sell_orders] compare
    alike. *)
Theorem comparators_agree h a b :
  BuyOrderComparator h a b = buy_before h b a /\
  SellOrderComparator h a b = sell_before h b a /\
  Legacy.buy_before h a b = buy_before h a b /\
  Legacy.sell_before h a b = sell_before h a b.
Proof.
  unfold BuyOrderComparator, SellOrderComparator, buy_before, sell_before,
    Legacy.buy_before, Legacy.sell_before.
  rewrite (price_eq_sym (price (h b)) (price (h a))).
  rewrite Z.gtb_ltb.
  by destruct (price_eq (price (h a)) (price (h b))).
Qed.

(** ** The matching loop, turn by turn *)

(** A turn executes only for a market order or when the prices cross. *)
Lemma match_body_crosses p st st' :
  match_body p st = Some st' ->
  let w := m_world st in
  exists m rest,
    side_orders (opposite (side (heap w p))) (m_book st) = m :: rest /\
    (type (heap w p) = Market \/
     match side (heap w p) with
     | Buy => price_le (price (heap w m)) (price (heap w p)) = true
     | Sell => price_le (price (heap w p)) (price (heap w m)) = true
     end).
Proof.
  unfold match_body. intros H. cbv zeta.
  destruct (side_orders _ (m_book st)) as [|m rest]; [discriminate|].
  destruct (is_filled (heap (m_world st) p)); [discriminate|].
  exists m, rest. split; [reflexivity|].
  destruct (bool_decide (type (heap (m_world st) p) = Market)) eqn:E.
  - left. by apply bool_decide_eq_true in E.
  - right. simpl in H.
    destruct (side (heap (m_world st) p));
      by destruct (price_le _ _).
Qed.

(** The loop stops when the contra side is empty, when the incoming
    order is filled, or at a limit order whose price the head of the
    contra side does not meet. *)
Lemma match_body_None p st :
  match_body p st = None ->
  let w := m_world st in
  side_orders (opposite (side (heap w p))) (m_book st) = [] \/
  is_filled (heap w p) = true \/
  exists m rest,
    side_orders (opposite (side (heap w p))) (m_book st) = m :: rest /\
    type (heap w p) <> Market /\
    match side (heap w p) with
    | Buy => price_le (price (heap w m)) (price (heap w p)) = false
    | Sell => price_le (price (heap w p)) (price (heap w m)) = false
    end.
Proof.
  unfold match_body. intros H. cbv zeta.
  destruct (side_orders _ (m_book st)) as [|m rest]; [by left|].
  destruct (is_filled (heap (m_world st) p)); [right; by left|].
  right. right. exists m, rest. split; [reflexivity|].
  destruct (bool_decide (type (heap (m_world st) p) = Market)) eqn:E;
    [discriminate|].
  apply bool_decide_eq_false in E. split; [exact E|].
  simpl in H.
  destruct (side (heap (m_world st) p)); by destruct (price_le _ _).
Qed.

(** A turn that executes in a well-formed book, in full. *)
Lemma match_body_exact p st st' :
  world_ok (m_world st) -> book_inv (m_world st) (m_book st) ->
  p ∉ resting (m_book st) ->
  match_body p st = Some st' ->
  let w := m_world st in
  let w' := m_world st' in
  let s := side (heap w p) in
  exists m rest t,
    side_orders (opposite s) (m_book st) = m :: rest /\
    m <> p /\ (m ∉ rest) /\
    is_filled (heap w p) = false /\ is_filled (heap w m) = false /\
    m_trades st' = m_trades st ++ [t] /\
    trade_size t =
      Z.min (remaining_size (heap w p)) (remaining_size (heap w m)) /\
    0 < trade_size t /\
    trade_price t = price (heap w m) /\
    heap w' p = fill (heap w p) (trade_size t) /\
    heap w' m = fill (heap w m) (trade_size t) /\
    (forall q, q <> p -> q <> m -> heap w' q = heap w q) /\
    filled_size (heap w' p) = filled_size (heap w p) + trade_size t /\
    filled_size (heap w' m) = filled_size (heap w m) + trade_size t /\
    side_orders s (m_book st') = side_orders s (m_book st) /\
    ((is_filled (heap w' m) = true /\
      trade_size t = remaining_size (heap w m) /\
      side_orders (opposite s) (m_book st') = rest) \/
     (is_filled (heap w' m) = false /\
      is_filled (heap w' p) = true /\
      trade_size t = remaining_size (heap w p) /\
      m_book st' = m_book st)).
Proof.
  intros Hw Hinv Hp H. cbv zeta.
  destruct (match_body_step _ _ _ Hw Hinv Hp H)
    as (_ & _ & _ & Hside & _ & _).
  apply match_body_Some in H. cbv zeta in H.
  destruct H as (m & rest & Hopp & Hfp & Hh & _ & _ & _ & Ht & Hb).
  set (w := m_world st) in *. set (b := m_book st) in *.
  set (s := side (heap w p)) in *.
  set (f := Z.min (remaining_size (heap w p)) (remaining_size (heap w m)))
    in *.
  assert (Hm : m ∈ side_orders (opposite s) b) by (rewrite Hopp; by left).
  assert (Hmr : m ∈ resting b) by (apply elem_of_resting; eauto).
  assert (Hne : m <> p) by congruence.
  assert (Hfm : is_filled (heap w m) = false)
    by (by apply (inv_open _ _ Hinv)).
  assert (Hnr : m ∉ rest).
  { pose proof (inv_nodup _ _ Hinv) as Hnd. rewrite resting_sides in Hnd.
    assert (Hnd' : NoDup (side_orders (opposite s) b)).
    { destruct s; simpl; [by apply NoDup_app in Hnd as (_&_&?)|
                          by apply NoDup_app in Hnd as (?&_&_)]. }
    rewrite Hopp in Hnd'. by apply NoDup_cons in Hnd' as [? _]. }
  destruct (remaining_size_open _ (Hw p) Hfp) as [_ Rp].
  destruct (remaining_size_open _ (Hw m) Hfm) as [_ Rm].
  assert (Hh1 : upd (heap w) p (fill (heap w p) f) m = heap w m)
    by (by apply upd_other).
  rewrite Hh1 in Hh, Hb, Ht.
  assert (Hhm : heap (m_world st') m = fill (heap w m) f)
    by (rewrite Hh; apply upd_same).
  assert (Hhp : heap (m_world st') p = fill (heap w p) f).
  { rewrite Hh. rewrite upd_other by congruence. apply upd_same. }
  assert (Hho : forall q, q <> p -> q <> m ->
                          heap (m_world st') q = heap w q).
  { intros q H1 H2. rewrite Hh. by rewrite !upd_other. }
  rewrite <- Hh in Hb, Ht. rewrite Hhm in Hb.
  destruct (fill_open (heap w m) f (Hw m) Hfm ltac:(lia)) as [Efm Ffm].
  destruct (fill_open (heap w p) f (Hw p) Hfp ltac:(lia)) as [Efp Ffp].
  eexists m, rest, _. split; [exact Hopp|].
  split; [exact Hne|]. split; [exact Hnr|].
  split; [exact Hfp|]. split; [exact Hfm|].
  split; [exact Ht|].
  assert (Hsz : forall x y z u v,
    trade_size (match x with
                | Buy => mkTrade y z f u v
                | Sell => mkTrade z y f u v
                end) = f) by (by intros []).
  assert (Hpr : forall x y z u v,
    trade_price (match x with
                 | Buy => mkTrade y z f u v
                 | Sell => mkTrade z y f u v
                 end) = u) by (by intros []).
  rewrite Hsz, Hpr.
  split; [reflexivity|]. split; [lia|]. split; [reflexivity|].
  split; [exact Hhp|]. split; [exact Hhm|]. split; [exact Hho|].
  split; [by rewrite Hhp|]. split; [by rewrite Hhm|].
  split; [exact Hside|].
  rewrite Hhm, Hhp.
  destruct (is_filled (fill (heap w m) f)) eqn:Em.
  - left. split; [reflexivity|]. split; [by apply Ffm|].
    rewrite Hb. destruct s; reflexivity.
  - right. split; [reflexivity|].
    assert (f <> remaining_size (heap w m)).
    { intros Hf. apply Ffm in Hf. congruence. }
    assert (Hfp' : f = remaining_size (heap w p)) by lia.
    split; [by apply Ffp|]. split; [exact Hfp'|exact Hb].
Qed.

(** Induction on the turns of the loop, for a relation between the state
    the loop starts in and the state it ends in. *)
Lemma match_loop_rel p (R : MatchState -> MatchState -> Prop) :
  (forall st, R st st) ->
  (forall st st1 st2,
     world_ok (m_world st) -> book_inv (m_world st) (m_book st) ->
     p ∉ resting (m_book st) ->
     match_body p st = Some st1 -> R st1 st2 -> R st st2) ->
  forall n st,
    world_ok (m_world st) -> book_inv (m_world st) (m_book st) ->
    p ∉ resting (m_book st) ->
    R st (match_loop n p st).
Proof.
  intros Hrefl Hstep n. induction n as [|n IH]; intros st Hw Hinv Hp.
  - apply Hrefl.
  - destruct (match_body p st) as [st1|] eqn:E.
    + rewrite (match_loop_S _ _ _ _ E).
      destruct (match_body_step _ _ _ Hw Hinv Hp E) as (Hw' & Hinv' & Hp' & _).
      eapply Hstep; eauto.
    + rewrite match_loop_None by exact E. apply Hrefl.
Qed.

(** The same for any book at all. *)
Lemma match_loop_rel_any p (R : MatchState -> MatchState -> Prop) :
  (forall st, R st st) ->
  (forall st st1 st2, match_body p st = Some st1 -> R st1 st2 -> R st st2) ->
  forall n st, R st (match_loop n p st).
Proof.
  intros Hrefl Hstep n. induction n as [|n IH]; intros st.
  - apply Hrefl.
  - destruct (match_body p st) as [st1|] eqn:E.
    + rewrite (match_loop_S _ _ _ _ E). eapply Hstep; eauto.
    + rewrite match_loop_None by exact E. apply Hrefl.
Qed.

(** ** What a match trades *)

Lemma match_body_limit p st st' :
  match_body p st = Some st' ->
  type (heap (m_world st) p) = Limit ->
  exists t,
    m_trades st' = m_trades st ++ [t] /\
    match side (heap (m_world st) p) with
    | Buy => (trade_price t <= price (heap (m_world st) p))%Q
    | Sell => (price (heap (m_world st) p) <= trade_price t)%Q
    end.
Proof.
  intros H Hty.
  destruct (match_body_crosses _ _ _ H) as (m & rest & Hopp & Hc).
  destruct (match_body_trade _ _ _ H) as (m' & rest' & t & Hopp' & Ht & Hof).
  rewrite Hopp in Hopp'. injection Hopp' as <- <-.
  destruct Hof as (_ & _ & Hprice).
  exists t. split; [exact Ht|]. rewrite Hprice.
  destruct Hc as [Hc|Hc]; [congruence|].
  destruct (side (heap (m_world st) p)); by apply price_le_spec.
Qed.

Lemma match_loop_limit n p st :
  type (heap (m_world st) p) = Limit ->
  let bound t :=
    match side (heap (m_world st) p) with
    | Buy => (trade_price t <= price (heap (m_world st) p))%Q
    | Sell => (price (heap (m_world st) p) <= trade_price t)%Q
    end in
  Forall bound (m_trades st) -> Forall bound (m_trades (match_loop n p st)).
Proof.
  cbv zeta. revert n st.
  apply (match_loop_rel_any p (fun st st2 =>
    type (heap (m_world st) p) = Limit ->
    Forall (fun t =>
      match side (heap (m_world st) p) with
      | Buy => (trade_price t <= price (heap (m_world st) p))%Q
      | Sell => (price (heap (m_world st) p) <= trade_price t)%Q
      end) (m_trades st) ->
    Forall (fun t =>
      match side (heap (m_world st) p) with
      | Buy => (trade_price t <= price (heap (m_world st) p))%Q
      | Sell => (price (heap (m_world st) p) <= trade_price t)%Q
      end) (m_trades st2))).
  - auto.
  - intros st st1 st2 Hbody IH Hty Hall.
    destruct (match_body_static _ _ _ Hbody p) as (_ & Es & Et & _ & _ & Ep & _).
    destruct (match_body_limit _ _ _ Hbody Hty) as (t & Ht & Hb).
    rewrite Es, Ep, Et in IH. apply IH; [exact Hty|].
    rewrite Ht. apply Forall_app. split; [exact Hall|]. by constructor.
Qed.

(** X4: no trade of a limit order is made at a price worse than its
    limit: a buy order never pays more than its price and a sell order
    never gets less. *)
Theorem limit_price_respected pol sym id s sz prc w e :
  Forall (fun t =>
            match s with
            | Buy => (trade_price t <= prc)%Q
            | Sell => (prc <= trade_price t)%Q
            end)
    (r_trades (place_limit_order pol sym id s sz prc w e)).
Proof.
  destruct (order_books_ e !! sym) as [book|] eqn:Hsym.
  - rewrite (place_limit_order_unfold _ _ _ _ _ _ _ _ _ Hsym). cbv zeta.
    cbn [r_trades]. rewrite match_order_unfold. cbv zeta. cbn [fst snd].
    set (w2 := (make_shared (now w).2 (limit_order id s sym sz prc (now w).1)).2).
    assert (Hp : heap w2 (brk w) = limit_order id s sym sz prc (now w).1)
      by (unfold w2; simpl; apply upd_same).
    clearbody w2.
    pose proof (match_loop_limit
      (S (length (side_orders (opposite (side (heap w2 (brk w)))) book)))
      (brk w) (mkMatch w2 book [])) as H.
    simpl in H. rewrite Hp in H. simpl in H. rewrite Hp. simpl.
    apply H; [reflexivity|constructor].
  - unfold place_limit_order. rewrite Hsym. constructor.
Qed.

(** The parts of the result of [match_order] in terms of the state its
    loop ends in. *)
Lemma match_order_parts p w b :
  let st' :=
    match_loop (S (length (side_orders (opposite (side (heap w p))) b))) p
      (mkMatch w b []) in
  let r := match_order p w b in
  r.1.1 = m_trades st' /\ heap r.1.2 = heap (m_world st') /\
  (forall s, side_orders s r.2 = side_orders s (m_book st')) /\
  order_map_ r.2 = order_map_ (m_book st') /\
  symbol_ r.2 = symbol_ (m_book st').
Proof.
  cbv zeta. rewrite match_order_unfold. cbv zeta. cbn [fst snd].
  split_and!; reflexivity.
Qed.

Lemma total_size_app ts1 ts2 :
  total_size (ts1 ++ ts2) = total_size ts1 + total_size ts2.
Proof. induction ts1 as [|t ts1 IH]; simpl; [reflexivity|]. rewrite IH. lia. Qed.

Lemma match_loop_account n p st :
  world_ok (m_world st) -> book_inv (m_world st) (m_book st) ->
  p ∉ resting (m_book st) ->
  exists new,
    m_trades (match_loop n p st) = m_trades st ++ new /\
    Forall (fun t => 0 < trade_size t) new /\
    filled_size (heap (m_world (match_loop n p st)) p)
      = filled_size (heap (m_world st) p) + total_size new.
Proof.
  revert n st.
  apply (match_loop_rel p (fun st st2 =>
    exists new,
      m_trades st2 = m_trades st ++ new /\
      Forall (fun t => 0 < trade_size t) new /\
      filled_size (heap (m_world st2) p)
        = filled_size (heap (m_world st) p) + total_size new)).
  - intros st. exists []. rewrite app_nil_r. simpl.
    split; [reflexivity|]. split; [constructor|lia].
  - intros st st1 st2 Hw Hinv Hp Hbody (new & E1 & E2 & E3).
    destruct (match_body_exact _ _ _ Hw Hinv Hp Hbody)
      as (m & rest & t & _ & _ & _ & _ & _ & Ht & _ & Hpos & _ & _ & _ & _
          & Hf & _).
    exists (t :: new). rewrite E1, Ht, <- app_assoc. simpl.
    split; [reflexivity|]. split; [by constructor|]. rewrite E3, Hf. lia.
Qed.

Lemma s7_world_ok : world_ok (world_of s7_orders).
Proof.
  intros [|[|[|[|[|q]]]]]; unfold order_ok, u64, two64; simpl; try lia.
  destruct q; simpl; lia.
Qed.

Lemma s4_world_ok : world_ok (world_of s4_orders).
Proof.
  intros [|[|[|q]]]; unfold order_ok, u64, two64; simpl; try lia.
  destruct q; simpl; lia.
Qed.

Lemma reach_add_fresh pol w b p :
  reachable pol w b -> bool_decide (p ∉ resting b) = true ->
  is_filled (heap w p) = false ->
  reachable pol (add_order pol p w b).1 (add_order pol p w b).2.
Proof.
  intros H Hp Hf. apply reach_add; [exact H| |exact Hf].
  by apply bool_decide_eq_true in Hp.
Qed.

Lemma s7_book_reachable pol : reachable pol (s7_book pol).1 (s7_book pol).2.
Proof.
  unfold s7_book, add_orders. cbn [foldl fst snd].
  repeat (apply reach_add_fresh;
          [|by destruct pol; vm_compute|by destruct pol; vm_compute]).
  apply reach_new, s7_world_ok.
Qed.

Lemma s4_book_reachable pol : reachable pol (s4_book pol).1 (s4_book pol).2.
Proof.
  unfold s4_book, add_orders. cbn [foldl fst snd].
  repeat (apply reach_add_fresh;
          [|by destruct pol; vm_compute|by destruct pol; vm_compute]).
  apply reach_new, s4_world_ok.
Qed.

Lemma not_resting_dec p b : bool_decide (p ∉ resting b) = true -> p ∉ resting b.
Proof. apply bool_decide_eq_true. Qed.

Lemma resting_dec p b : bool_decide (p ∈ resting b) = true -> p ∈ resting b.
Proof. apply bool_decide_eq_true. Qed.

(** X5: every trade [match_order] returns has a positive size; the
    filled size of the incoming order grows by exactly the sizes of the
    trades added up; and together they never exceed what the order had
    left, so that [match_order] never fills the incoming order beyond its
    size. *)
Theorem taker_filled_by_trades pol p w b :
  reachable pol w b -> p ∉ resting b ->
  let r := match_order p w b in
  Forall (fun t => 0 < trade_size t) r.1.1 /\
  filled_size (heap r.1.2 p) = filled_size (heap w p) + total_size r.1.1 /\
  total_size r.1.1 <= remaining_size (heap w p).
Proof.
  intros Hr Hp. cbv zeta.
  destruct (reachable_inv _ _ _ Hr) as [Hw Hinv].
  destruct (match_order_parts p w b) as (Et & Eh & _). cbv zeta in Et, Eh.
  rewrite Et, Eh.
  set (n := S (length (side_orders (opposite (side (heap w p))) b))).
  clearbody n. clear Et Eh.
  destruct (match_loop_account n p (mkMatch w b []) Hw Hinv Hp)
    as (new & E1 & E2 & E3).
  simpl in E1, E3. rewrite E1, E3.
  split; [exact E2|]. split; [reflexivity|].
  destruct (is_filled (heap w p)) eqn:Hf.
  - assert (Hnone : match_loop n p (mkMatch w b []) = mkMatch w b [])
      by (apply match_loop_None, match_body_filled; exact Hf).
    rewrite Hnone in E1. simpl in E1. subst new. simpl.
    pose proof (remaining_size_range (heap w p)) as R. unfold u64 in R. lia.
  - destruct (remaining_size_open _ (Hw p) Hf) as [Er _].
    pose proof (match_loop_taker n p (mkMatch w b []) Hw Hinv Hp) as Ht.
    simpl in Ht. apply is_filled_false in Hf.
    specialize (Ht ltac:(lia)).
    pose proof (match_loop_inv n p (mkMatch w b []) Hw Hinv Hp) as Hl.
    cbv zeta in Hl. destruct Hl as (_ & _ & _ & Hst & _).
    destruct (Hst p) as (_&_&_&_&Es&_). simpl in Es.
    rewrite Es, E3 in Ht. lia.
Qed.

(** The sell order of 250 against the four buy orders of the test: the
    three trades are of 100, 100 and 50. *)
Lemma taker_filled_by_trades_witness :
  let r := match_order 4%nat (s7_book InsertionOrder).1
             (s7_book InsertionOrder).2 in
  map trade_size r.1.1 = [100; 100; 50] /\
  (Forall (fun t => 0 < trade_size t) r.1.1 /\
   filled_size (heap r.1.2 4%nat)
     = filled_size (heap (s7_book InsertionOrder).1 4%nat)
       + total_size r.1.1 /\
   total_size r.1.1
     <= remaining_size (heap (s7_book InsertionOrder).1 4%nat)).
Proof.
  split; [reflexivity|].
  apply (taker_filled_by_trades InsertionOrder 4%nat
           (s7_book InsertionOrder).1 (s7_book InsertionOrder).2).
  - apply s7_book_reachable.
  - apply not_resting_dec. reflexivity.
Defined.

(** Where the loop leaves the contra side: the makers it took off are
    filled, there is one trade for each of them, and at most one trade
    more, with the maker now at the head, which then fills the incoming
    order. *)
Lemma match_loop_makers_filled n p st :
  world_ok (m_world st) -> book_inv (m_world st) (m_book st) ->
  p ∉ resting (m_book st) ->
  let st2 := match_loop n p st in
  let opp := opposite (side (heap (m_world st) p)) in
  exists done new,
    side_orders opp (m_book st) = done ++ side_orders opp (m_book st2) /\
    m_trades st2 = m_trades st ++ new /\
    Forall (fun q => is_filled (heap (m_world st2) q) = true) done /\
    (length new = length done \/
     (length new = S (length done) /\
      is_filled (heap (m_world st2) p) = true /\
      exists m rest,
        side_orders opp (m_book st2) = m :: rest /\
        is_filled (heap (m_world st2) m) = false /\
        0 < filled_size (heap (m_world st2) m))).
Proof.
  cbv zeta. intros Hw Hinv Hp.
  cut ((is_filled (heap (m_world st) p) = true -> match_loop n p st = st) /\
       (forall q, q <> p ->
          q ∉ side_orders (opposite (side (heap (m_world st) p))) (m_book st) ->
          heap (m_world (match_loop n p st)) q = heap (m_world st) q) /\
       exists done new,
         side_orders (opposite (side (heap (m_world st) p))) (m_book st)
           = done ++ side_orders (opposite (side (heap (m_world st) p)))
                       (m_book (match_loop n p st)) /\
         m_trades (match_loop n p st) = m_trades st ++ new /\
         Forall (fun q => is_filled (heap (m_world (match_loop n p st)) q) = true)
           done /\
         (length new = length done \/
          (length new = S (length done) /\
           is_filled (heap (m_world (match_loop n p st)) p) = true /\
           exists m rest,
             side_orders (opposite (side (heap (m_world st) p)))
               (m_book (match_loop n p st)) = m :: rest /\
             is_filled (heap (m_world (match_loop n p st)) m) = false /\
             0 < filled_size (heap (m_world (match_loop n p st)) m)))).
  { intros (_ & _ & H). exact H. }
  revert n st Hw Hinv Hp.
  apply (match_loop_rel p (fun st st2 =>
    (is_filled (heap (m_world st) p) = true -> st2 = st) /\
    (forall q, q <> p ->
       q ∉ side_orders (opposite (side (heap (m_world st) p))) (m_book st) ->
       heap (m_world st2) q = heap (m_world st) q) /\
    exists done new,
      side_orders (opposite (side (heap (m_world st) p))) (m_book st)
        = done ++ side_orders (opposite (side (heap (m_world st) p)))
                    (m_book st2) /\
      m_trades st2 = m_trades st ++ new /\
      Forall (fun q => is_filled (heap (m_world st2) q) = true) done /\
      (length new = length done \/
       (length new = S (length done) /\
        is_filled (heap (m_world st2) p) = true /\
        exists m rest,
          side_orders (opposite (side (heap (m_world st) p))) (m_book st2)
            = m :: rest /\
          is_filled (heap (m_world st2) m) = false /\
          0 < filled_size (heap (m_world st2) m))))).
  - intros st. split; [auto|]. split; [auto|].
    exists [], []. rewrite app_nil_r. simpl. split_and!; auto.
  - intros st st1 st2 Hw Hinv Hp Hbody (Hstop & Hframe & done & new & IH).
    destruct (match_body_static _ _ _ Hbody p) as (_ & Es & _).
    rewrite Es in Hframe, IH.
    destruct (match_body_exact _ _ _ Hw Hinv Hp Hbody)
      as (m & rest & t & Hopp & Hne & Hnr & Hfp & Hfm & Ht & _ & Hpos & _
          & Hhp & Hhm & Hho & _ & Efm & _ & Hcase).
    split; [congruence|].
    destruct Hcase as [(Hmf & _ & Hrest)|(Hmo & Hpf & _ & Hb)].
    + (* the maker is filled and leaves the book *)
      destruct IH as (E1 & E2 & E3 & E4).
      rewrite Hrest in E1, Hframe.
      split.
      { intros q H1 H2. rewrite Hopp in H2.
        apply not_elem_of_cons in H2 as [H2 H3].
        rewrite Hframe by auto. by apply Hho. }
      exists (m :: done), (t :: new).
      split; [rewrite Hopp, E1; reflexivity|].
      split; [rewrite E2, Ht, <- app_assoc; reflexivity|].
      split.
      { constructor; [|exact E3]. rewrite Hframe by auto. exact Hmf. }
      simpl. destruct E4 as [E4|(E4 & E5 & E6)]; [left; lia|].
      right. split; [lia|]. split; [exact E5|exact E6].
    + (* the maker stays, the incoming order is filled *)
      specialize (Hstop Hpf). subst st2.
      split.
      { intros q H1 H2. rewrite Hopp in H2.
        apply not_elem_of_cons in H2 as [H2 H3]. by apply Hho. }
      exists [], [t]. rewrite Hb. simpl.
      split; [reflexivity|]. split; [exact Ht|]. split; [constructor|].
      right. split; [reflexivity|]. split; [exact Hpf|].
      exists m, rest. split; [exact Hopp|]. split; [exact Hmo|].
      rewrite Efm. destruct (Hw m) as (_ & Hf & _). unfold u64 in Hf. lia.
Qed.

(** X6: [match_order] trades with the makers of the contra side from the
    head on, one trade each: every maker it takes off the book is filled,
    and only its last trade can leave a maker, the one now at the head,
    partly filled, in which case the incoming order is filled.  So there
    are never more trades than resting contra orders. *)
Theorem match_order_fills_makers pol p w b :
  reachable pol w b -> p ∉ resting b ->
  let r := match_order p w b in
  let opp := opposite (side (heap w p)) in
  exists done,
    side_orders opp b = done ++ side_orders opp r.2 /\
    Forall (fun q => is_filled (heap r.1.2 q) = true) done /\
    (length r.1.1 <= length (side_orders opp b))%nat /\
    (length r.1.1 = length done \/
     (length r.1.1 = S (length done) /\
      is_filled (heap r.1.2 p) = true /\
      exists m rest,
        side_orders opp r.2 = m :: rest /\
        is_filled (heap r.1.2 m) = false /\
        0 < filled_size (heap r.1.2 m))).
Proof.
  intros Hr Hp. cbv zeta.
  destruct (reachable_inv _ _ _ Hr) as [Hw Hinv].
  destruct (match_order_parts p w b) as (Et & Eh & Es & _).
  cbv zeta in Et, Eh, Es. rewrite Et, Eh, !Es.
  set (n := S (length (side_orders (opposite (side (heap w p))) b))).
  clearbody n. clear Et Eh Es.
  destruct (match_loop_makers_filled n p (mkMatch w b []) Hw Hinv Hp)
    as (done & new & E1 & E2 & E3 & E4).
  cbn [m_world m_book m_trades] in E1, E2, E4. simpl in E2.
  exists done. rewrite E2. split; [exact E1|]. split; [exact E3|].
  split; [|exact E4].
  rewrite E1, length_app.
  destruct E4 as [E4|(E4 & _ & m & rest & E5 & _)]; [lia|].
  rewrite E5. simpl. lia.
Qed.

(** The sell order of 250: the buy orders at 11 and at 10 first are
    filled and leave the book, the second one at 10 is left with 50
    filled, at the head of the buy side. *)
Lemma match_order_fills_makers_witness :
  let w := (s7_book InsertionOrder).1 in
  let b := (s7_book InsertionOrder).2 in
  let r := match_order 4%nat w b in
  (buy_orders_ b, buy_orders_ r.2)
    = ([2; 0; 1; 3]%nat, [1; 3]%nat) /\
  exists done,
    side_orders Buy b = done ++ side_orders Buy r.2 /\
    Forall (fun q => is_filled (heap r.1.2 q) = true) done /\
    (length r.1.1 <= length (side_orders Buy b))%nat /\
    (length r.1.1 = length done \/
     (length r.1.1 = S (length done) /\
      is_filled (heap r.1.2 4%nat) = true /\
      exists m rest,
        side_orders Buy r.2 = m :: rest /\
        is_filled (heap r.1.2 m) = false /\
        0 < filled_size (heap r.1.2 m))).
Proof.
  split; [reflexivity|].
  apply (match_order_fills_makers InsertionOrder 4%nat
           (s7_book InsertionOrder).1 (s7_book InsertionOrder).2).
  - apply s7_book_reachable.
  - apply not_resting_dec. reflexivity.
Defined.

(** Why [match_order] stopped. *)
Lemma match_order_end p w b :
  world_ok w -> book_inv w b -> p ∉ resting b ->
  let r := match_order p w b in
  let s := side (heap w p) in
  side_orders (opposite s) r.2 = [] \/
  is_filled (heap r.1.2 p) = true \/
  exists m rest,
    side_orders (opposite s) r.2 = m :: rest /\
    type (heap w p) = Limit /\
    match s with
    | Buy => (price (heap w p) < price (heap w m))%Q
    | Sell => (price (heap w m) < price (heap w p))%Q
    end.
Proof.
  intros Hw Hinv Hp. cbv zeta.
  destruct (match_order_parts p w b) as (_ & Eh & Es & _).
  cbv zeta in Eh, Es. rewrite Eh, !Es.
  pose proof (match_loop_done
    (S (length (side_orders (opposite (side (heap w p))) b))) p
    (mkMatch w b []) Hw Hinv Hp ltac:(simpl; lia)) as Hdone.
  pose proof (match_loop_inv
    (S (length (side_orders (opposite (side (heap w p))) b))) p
    (mkMatch w b []) Hw Hinv Hp) as Hl.
  cbv zeta in Hl. destruct Hl as (_ & _ & _ & Hst & _).
  set (st := match_loop _ _ _) in *. clearbody st. simpl in Hst.
  clear Eh Es.
  apply match_body_None in Hdone. cbv zeta in Hdone.
  destruct (Hst p) as (_ & Es & Et & _ & _ & Ep & _).
  rewrite Es, Et, Ep in Hdone.
  destruct Hdone as [H|[H|(m & rest & H1 & H2 & H3)]]; [by left|right; by left|].
  right. right. exists m, rest. split; [exact H1|].
  destruct (Hst m) as (_ & _ & _ & _ & _ & Epm & _). rewrite Epm in H3.
  split; [by destruct (type (heap w p))|].
  destruct (side (heap w p));
    apply price_lt_spec; unfold price_lt; unfold price_le in H3;
    by rewrite H3.
Qed.

(** X7: a market order is matched whatever the prices: when
    [match_order] is through with it, the order is filled or the contra
    side is empty. *)
Theorem market_order_sweeps pol p w b :
  reachable pol w b -> p ∉ resting b -> type (heap w p) = Market ->
  let r := match_order p w b in
  is_filled (heap r.1.2 p) = true \/
  side_orders (opposite (side (heap w p))) r.2 = [].
Proof.
  intros Hr Hp Hty. cbv zeta.
  destruct (reachable_inv _ _ _ Hr) as [Hw Hinv].
  destruct (match_order_end p w b Hw Hinv Hp)
    as [H|[H|(m & rest & _ & H & _)]]; [by right|by left|congruence].
Qed.

(** The market sell order of 300 against buy orders of 100 and 100: it
    empties the buy side and is left with 100. *)
Lemma market_order_sweeps_witness :
  let w := (s4_book InsertionOrder).1 in
  let b := (s4_book InsertionOrder).2 in
  let r := match_order 2%nat w b in
  (buy_orders_ b, remaining_size (heap r.1.2 2%nat)) = ([0; 1]%nat, 100) /\
  (is_filled (heap r.1.2 2%nat) = true \/ side_orders Buy r.2 = []).
Proof.
  split; [reflexivity|].
  apply (market_order_sweeps InsertionOrder 2%nat
           (s4_book InsertionOrder).1 (s4_book InsertionOrder).2).
  - apply s4_book_reachable.
  - apply not_resting_dec. reflexivity.
  - reflexivity.
Defined.

(** ** The best prices *)







(** ** The volume at a price *)

Lemma wrap64_add_l a b : wrap64 (wrap64 a + b) = wrap64 (a + b).
Proof. unfold wrap64. apply Zplus_mod_idemp_l. Qed.

Lemma wrap64_add_r a b : wrap64 (a + wrap64 b) = wrap64 (a + b).
Proof. unfold wrap64. apply Zplus_mod_idemp_r. Qed.

(** The loop of [volume_at_price] gives the sum modulo [2^64]. *)
Lemma volume_at_price_sum s prc w b :
  volume_at_price s prc w b
    = wrap64 (side_volume (heap w) prc (side_orders s b)).
Proof.
  unfold volume_at_price.
  assert (H : forall l acc, u64 acc ->
    foldl (fun volume p =>
             if price_eq (price (heap w p)) prc
             then wrap64 (volume + remaining_size (heap w p))
             else volume) acc l
      = wrap64 (acc + side_volume (heap w) prc l)).
  { induction l as [|q l IH]; intros acc Hacc; simpl.
    - rewrite Z.add_0_r. symmetry. by apply wrap64_small.
    - destruct (price_eq (price (heap w q)) prc).
      + rewrite IH by apply wrap64_range. rewrite wrap64_add_l.
        f_equal. lia.
      + rewrite IH by exact Hacc. reflexivity. }
  rewrite H; [reflexivity|]. unfold u64, two64. lia.
Qed.

Lemma side_volume_app h prc l1 l2 :
  side_volume h prc (l1 ++ l2) = side_volume h prc l1 + side_volume h prc l2.
Proof. induction l1 as [|q l1 IH]; simpl; [reflexivity|]. rewrite IH. lia. Qed.

Lemma side_volume_perm h prc l1 l2 :
  l1 ≡ₚ l2 -> side_volume h prc l1 = side_volume h prc l2.
Proof.
  induction 1 as [|x l1 l2 _ IH|x y l|l1 l2 l3 _ IH1 _ IH2]; simpl;
    [reflexivity|rewrite IH; reflexivity|lia|congruence].
Qed.

Lemma side_volume_ext h h' prc l :
  (forall q, q ∈ l -> price (h' q) = price (h q) /\
                      remaining_size (h' q) = remaining_size (h q)) ->
  side_volume h' prc l = side_volume h prc l.
Proof.
  induction l as [|q l IH]; intros H; simpl; [reflexivity|].
  destruct (H q ltac:(by left)) as [-> ->].
  rewrite IH; [reflexivity|]. intros q' Hq'. apply H. by right.
Qed.

(** X10: [add_order] raises the volume at the price of the order, on its
    side, by what the order has left to fill (modulo [2^64], as the sum
    is kept in a [uint64_t]) and leaves every other volume as it was. *)
Theorem volume_at_price_add_order pol p w b s prc :
  let r := add_order pol p w b in
  volume_at_price s prc r.1 r.2 =
    if bool_decide (s = side (heap w p)) && price_eq (price (heap w p)) prc
    then wrap64 (volume_at_price s prc w b + remaining_size (heap w p))
    else volume_at_price s prc w b.
Proof.
  cbv zeta. rewrite !volume_at_price_sum, add_order_side.
  assert (Eh : heap (add_order pol p w b).1 = heap w) by reflexivity.
  rewrite Eh.
  destruct (decide (s = side (heap w p))) as [Hs|Hs].
  - rewrite (bool_decide_eq_true_2 _ Hs). simpl.
    rewrite (side_volume_perm _ _ _ _ (sort_perm _ _)), side_volume_app.
    simpl. destruct (price_eq (price (heap w p)) prc).
    + rewrite wrap64_add_l. f_equal. lia.
    + f_equal. lia.
  - by rewrite (bool_decide_eq_false_2 _ Hs).
Qed.

Lemma total_size_trades_at_cons prc t ts :
  total_size (trades_at prc (t :: ts))
    = (if price_eq (trade_price t) prc then trade_size t else 0)
      + total_size (trades_at prc ts).
Proof.
  unfold trades_at. destruct (price_eq (trade_price t) prc) eqn:E.
  - by rewrite filter_cons_True.
  - rewrite filter_cons_False; [reflexivity|]. by rewrite E.
Qed.

Lemma match_loop_volume n p st prc :
  world_ok (m_world st) -> book_inv (m_world st) (m_book st) ->
  p ∉ resting (m_book st) ->
  let st2 := match_loop n p st in
  let opp := opposite (side (heap (m_world st) p)) in
  exists new,
    m_trades st2 = m_trades st ++ new /\
    side_volume (heap (m_world st)) prc (side_orders opp (m_book st))
      = side_volume (heap (m_world st2)) prc (side_orders opp (m_book st2))
        + total_size (trades_at prc new).
Proof.
  cbv zeta. revert n st.
  apply (match_loop_rel p (fun st st2 =>
    exists new,
      m_trades st2 = m_trades st ++ new /\
      side_volume (heap (m_world st)) prc
          (side_orders (opposite (side (heap (m_world st) p))) (m_book st))
        = side_volume (heap (m_world st2)) prc
            (side_orders (opposite (side (heap (m_world st) p))) (m_book st2))
          + total_size (trades_at prc new))).
  - intros st. exists []. rewrite app_nil_r. split; [reflexivity|].
    unfold trades_at. simpl. lia.
  - intros st st1 st2 Hw Hinv Hp Hbody (new & E1 & E2).
    pose proof (match_body_static _ _ _ Hbody) as Hst.
    destruct (Hst p) as (_ & Es & _). rewrite Es in E2.
    destruct (match_body_exact _ _ _ Hw Hinv Hp Hbody)
      as (m & rest & t & Hopp & Hne & Hnr & Hfp & Hfm & Ht & Hsz & Hpos
          & Hprice & Hhp & Hhm & Hho & _ & _ & _ & Hcase).
    exists (t :: new). split; [rewrite E1, Ht, <- app_assoc; reflexivity|].
    rewrite total_size_trades_at_cons, Hprice.
    cut (side_volume (heap (m_world st)) prc
           (side_orders (opposite (side (heap (m_world st) p))) (m_book st))
         = side_volume (heap (m_world st1)) prc
             (side_orders (opposite (side (heap (m_world st) p))) (m_book st1))
           + (if price_eq (price (heap (m_world st) m)) prc
              then trade_size t else 0)).
    { intros Hstep. rewrite Hstep, E2. lia. }
    rewrite Hopp.
    assert (Hrest : side_volume (heap (m_world st1)) prc rest
                    = side_volume (heap (m_world st)) prc rest).
    { apply side_volume_ext. intros q Hq.
      rewrite Hho; [done| |by intros ->].
      intros ->. apply Hp. apply elem_of_resting.
      exists (opposite (side (heap (m_world st) p))). rewrite Hopp. by right. }
    destruct (Hst m) as (_ & _ & _ & _ & _ & Epm & _).
    destruct Hcase as [(_ & Hfull & ->)|(_ & _ & _ & ->)].
    + rewrite Hrest. simpl. rewrite Hfull. lia.
    + rewrite Hopp. simpl. rewrite Hrest, Epm, Hhm.
      pose proof (remaining_size_range (heap (m_world st) p)) as R.
      unfold u64 in R.
      rewrite remaining_size_fill by lia.
      destruct (price_eq (price (heap (m_world st) m)) prc); lia.
Qed.

(** X11: what a match trades comes off the book: at every price the
    volume of the contra side before [match_order] is its volume
    afterwards plus the sizes of the trades made at that price (modulo
    [2^64], as [volume_at_price] adds up in a [uint64_t]), and the
    volumes of the side of the incoming order stay as they were. *)
Theorem match_order_conserves_volume pol p w b prc :
  reachable pol w b -> p ∉ resting b ->
  let r := match_order p w b in
  let s := side (heap w p) in
  volume_at_price (opposite s) prc w b
    = wrap64 (volume_at_price (opposite s) prc r.1.2 r.2
              + total_size (trades_at prc r.1.1)) /\
  volume_at_price s prc r.1.2 r.2 = volume_at_price s prc w b.
Proof.
  intros Hr Hp. cbv zeta.
  destruct (reachable_inv _ _ _ Hr) as [Hw Hinv].
  rewrite !volume_at_price_sum.
  destruct (match_order_parts p w b) as (Et & Eh & Es & _).
  cbv zeta in Et, Eh, Es. rewrite Et, Eh, !Es.
  pose proof (match_loop_inv
    (S (length (side_orders (opposite (side (heap w p))) b))) p
    (mkMatch w b []) Hw Hinv Hp) as Hl.
  cbv zeta in Hl. destruct Hl as (_ & _ & _ & _ & Hown & _ & Hframe).
  destruct (match_loop_volume
    (S (length (side_orders (opposite (side (heap w p))) b))) p
    (mkMatch w b []) prc Hw Hinv Hp) as (new & E1 & E2).
  set (st := match_loop _ _ _) in *. clearbody st. clear Et Eh Es.
  cbn [m_world m_book m_trades] in E1, E2, Hown, Hframe. simpl in E1.
  subst new. split.
  - rewrite wrap64_add_l. by rewrite E2.
  - rewrite Hown. f_equal. apply side_volume_ext. intros q Hq.
    rewrite Hframe; [done| |].
    + intros ->. apply Hp. apply elem_of_resting. eauto.
    + intros Hq'. pose proof (inv_nodup _ _ Hinv) as Hnd.
      rewrite resting_sides in Hnd.
      apply NoDup_app in Hnd as (_ & Hdisj & _).
      destruct (side (heap w p)); simpl in *.
      * by apply (Hdisj q).
      * by apply (Hdisj q).
Qed.

(** The sell order of 250: the buy side held 200 at the price 10 and
    holds 50 afterwards, the trades at 10 being of 100 and 50. *)
Lemma match_order_conserves_volume_witness :
  let w := (s7_book InsertionOrder).1 in
  let b := (s7_book InsertionOrder).2 in
  let r := match_order 4%nat w b in
  (volume_at_price Buy 10 w b, volume_at_price Buy 10 r.1.2 r.2,
   total_size (trades_at 10 r.1.1)) = (200, 50, 150) /\
  volume_at_price Buy 10 w b
    = wrap64 (volume_at_price Buy 10 r.1.2 r.2
              + total_size (trades_at 10 r.1.1)).
Proof.
  split; [reflexivity|].
  apply (match_order_conserves_volume InsertionOrder 4%nat
           (s7_book InsertionOrder).1 (s7_book InsertionOrder).2 10).
  - apply s7_book_reachable.
  - apply not_resting_dec. reflexivity.
Defined.

(** ** What the operations of the engine do to its state *)

Lemma fill_status_fill o n : fill_status (fill o n).
Proof.
  unfold fill_status, fill.
  destruct (is_filled (set_filled_size o _)) eqn:E; [left|right];
    by split.
Qed.

(** Every object is as it was or carries the status of a fill. *)
Lemma match_loop_status n p st q :
  heap (m_world (match_loop n p st)) q = heap (m_world st) q \/
  fill_status (heap (m_world (match_loop n p st)) q).
Proof.
  revert n st.
  apply (match_loop_rel_any p (fun st st2 =>
    heap (m_world st2) q = heap (m_world st) q \/
    fill_status (heap (m_world st2) q))).
  - by left.
  - intros st st1 st2 Hbody [IH|IH]; [|by right].
    rewrite IH. apply match_body_Some in Hbody. cbv zeta in Hbody.
    destruct Hbody as (m & rest & _ & _ & -> & _).
    unfold upd. repeat case_decide; subst;
      auto using fill_status_fill.
Qed.

Lemma match_loop_symbol n p st :
  symbol_ (m_book (match_loop n p st)) = symbol_ (m_book st).
Proof.
  revert n st.
  apply (match_loop_rel_any p (fun st st2 =>
    symbol_ (m_book st2) = symbol_ (m_book st))).
  - reflexivity.
  - intros st st1 st2 Hbody ->. apply match_body_Some in Hbody.
    cbv zeta in Hbody. destruct Hbody as (m & rest & _ & _ & _ & _ & _ & _ & _ & ->).
    destruct (is_filled _); [|reflexivity].
    by destruct (opposite _).
Qed.

(** More of what [match_order] does inside a [place_*] call: the new
    order is [o], at the address [brk w]. *)
Lemma placed_match_more w e sym book o :
  engine_inv w e -> order_books_ e !! sym = Some book ->
  order_ok o -> filled_size o = 0 ->
  let p := brk w in
  let w2 := (make_shared (now w).2 o).2 in
  let mo := match_order p w2 book in
  (forall q, q <> p ->
     order_id (heap mo.1.2 q) = order_id (heap w q) /\
     side (heap mo.1.2 q) = side (heap w q) /\
     symbol (heap mo.1.2 q) = symbol (heap w q) /\
     price (heap mo.1.2 q) = price (heap w q) /\
     timestamp (heap mo.1.2 q) = timestamp (heap w q)) /\
  (order_id (heap mo.1.2 p) = order_id o /\ side (heap mo.1.2 p) = side o /\
   type (heap mo.1.2 p) = type o /\ symbol (heap mo.1.2 p) = symbol o /\
   price (heap mo.1.2 p) = price o) /\
  side_orders (side o) mo.2 = side_orders (side o) book /\
  side_orders (opposite (side o)) mo.2
    `suffix_of` side_orders (opposite (side o)) book /\
  (side_orders (opposite (side o)) mo.2 = [] \/
   is_filled (heap mo.1.2 p) = true \/
   exists m rest,
     side_orders (opposite (side o)) mo.2 = m :: rest /\
     type o = Limit /\
     match side o with
     | Buy => (price o < price (heap w m))%Q
     | Sell => (price (heap w m) < price o)%Q
     end) /\
  (forall q, q <> p ->
     heap mo.1.2 q = heap w q \/ fill_status (heap mo.1.2 q)) /\
  (heap mo.1.2 p = o \/ fill_status (heap mo.1.2 p)) /\
  symbol_ mo.2 = symbol_ book /\
  order_map_ mo.2 `sublist_of` order_map_ book.
Proof.
  intros He Hsym Ho Hz. cbv zeta.
  pose proof He as (Hw & Hb & Hd).
  destruct (Hb _ _ Hsym) as [Hinv Hfresh].
  destruct (placed_order_ready w book o Hw Ho Hinv Hfresh)
    as (Hw2 & Hinv2 & Hp & Hhp).
  set (w2 := (make_shared (now w).2 o).2) in *.
  assert (Hle : filled_size (heap w2 (brk w)) <= size (heap w2 (brk w))).
  { rewrite Hhp, Hz. destruct Ho as (Hs & _). unfold u64 in Hs. lia. }
  assert (Hother : forall q, q <> brk w -> heap w2 q = heap w q).
  { intros q Hq. unfold w2. simpl. by apply upd_other. }
  destruct (match_order_facts (brk w) w2 book Hw2 Hinv2 Hp Hle)
    as (G1 & G2 & G3 & G4 & G5 & G6 & G7 & G8 & G9).
  pose proof (match_order_end (brk w) w2 book Hw2 Hinv2 Hp) as Hend.
  destruct (match_order_parts (brk w) w2 book) as (_ & Eh & _ & Em & Esym).
  cbv zeta in Hend, Eh, Em, Esym.
  rewrite Hhp in G5, G6, Hend.
  split.
  { intros q Hq. destruct (G4 q) as (E1 & E2 & _ & E4 & _ & E6 & E7).
    rewrite (Hother q Hq) in E1, E2, E4, E6, E7. auto. }
  split.
  { destruct (G4 (brk w)) as (E1 & E2 & E3 & E4 & _ & E6 & _).
    rewrite Hhp in E1, E2, E3, E4, E6. auto. }
  split; [exact G5|]. split; [exact G6|]. split.
  { destruct Hend as [H|[H|(m & rest & H1 & H2 & H3)]];
      [by left|right; by left|].
    right. right. exists m, rest. split; [exact H1|]. split; [exact H2|].
    assert (Hm : m <> brk w).
    { intros ->. apply G3. apply elem_of_resting.
      exists (opposite (side o)). rewrite H1. by left. }
    by rewrite (Hother m Hm) in H3. }
  split.
  { intros q Hq. rewrite Eh.
    destruct (match_loop_status
      (S (length (side_orders (opposite (side (heap w2 (brk w)))) book)))
      (brk w) (mkMatch w2 book []) q) as [H|H]; [|by right].
    left. rewrite H. simpl. by apply Hother. }
  split.
  { rewrite Eh.
    destruct (match_loop_status
      (S (length (side_orders (opposite (side (heap w2 (brk w)))) book)))
      (brk w) (mkMatch w2 book []) (brk w)) as [H|H]; [|by right].
    left. rewrite H. simpl. exact Hhp. }
  split; [rewrite Esym; apply match_loop_symbol|].
  apply match_order_sub.
Qed.

(** What [cancel_order] does to a well-formed book. *)
Lemma cancel_order_effect id w b :
  book_inv w b ->
  let r := cancel_order id w b in
  (forall s, side_orders s r.2 `sublist_of` side_orders s b) /\
  same_static (heap w) (heap r.1.2) /\
  symbol_ r.2 = symbol_ b /\
  order_map_ r.2 `sublist_of` order_map_ b /\
  (forall q, heap r.1.2 q = heap w q \/
             (status (heap r.1.2 q) = Cancelled /\ (q ∉ resting r.2) /\
              q ∈ resting b)).
Proof.
  intros Hinv. cbv zeta.
  destruct (mm_equal_range id (order_map_ b)) as [|p ps] eqn:E.
  - rewrite cancel_order_none by exact E. simpl.
    split_and!; auto using same_static_refl.
  - destruct (cancel_order_first_of_range id w b p ps Hinv E)
      as (_ & _ & Hperm & Hst & Hframe).
    cbv zeta in Hperm, Hst, Hframe.
    assert (Hq : forall q, heap (cancel_order id w b).1.2 q = heap w q \/
                 (status (heap (cancel_order id w b).1.2 q) = Cancelled /\
                  (q ∉ resting (cancel_order id w b).2) /\ q ∈ resting b)).
    { intros q. destruct (decide (q = p)) as [->|Hne]; [|left; by apply Hframe].
      right. split; [exact Hst|].
      pose proof (inv_nodup _ _ Hinv) as Hnd. rewrite Hperm in Hnd.
      apply NoDup_cons in Hnd as [Hnd _]. split; [exact Hnd|].
      rewrite Hperm. by left. }
    revert Hq.
    rewrite (cancel_order_some _ _ _ _ _ E). cbv zeta. cbn [fst snd].
    intros Hq. split_and!.
    + intros s. change (side_orders s (set_last_update_time ?t ?b'))
        with (side_orders s b').
      change (side_orders s (set_order_map ?m ?b')) with (side_orders s b').
      rewrite side_orders_set. case_decide; [subst|reflexivity].
      apply erase_first_sublist.
    + simpl. apply same_static_status.
    + simpl. by destruct (side (heap w p)).
    + simpl. destruct (side (heap w p)); apply mm_erase_sublist.
    + exact Hq.
Qed.

(** The books of the other symbols and their orders are left alone. *)
Lemma place_limit_other_books pol sym id s sz prc w e sym2 b2 :
  engine_inv w e -> u64 sz -> sym2 <> sym ->
  order_books_ e !! sym2 = Some b2 ->
  let r := place_limit_order pol sym id s sz prc w e in
  order_books_ (r_engine r) !! sym2 = Some b2 /\
  forall q, q ∈ resting b2 -> heap (r_world r) q = heap w q.
Proof.
  intros He Hsz Hne H2. cbv zeta.
  destruct (order_books_ e !! sym) as [book|] eqn:Hsym.
  2:{ unfold place_limit_order. rewrite Hsym. by split. }
  rewrite (place_limit_order_unfold _ _ _ _ _ _ _ _ _ Hsym). cbv zeta.
  destruct (placed_match_facts w e sym book
              (limit_order id s sym sz prc (now w).1) He Hsym
              (limit_order_ok _ _ _ _ _ _ Hsz) eq_refl)
    as (_ & _ & _ & _ & _ & _ & G7).
  cbn [r_world r_engine order_books_].
  split; [by rewrite lookup_insert_ne|].
  intros q Hq. destruct He as (_ & Hb & Hd).
  destruct (Hb _ _ H2) as [_ Hlt].
  assert (Hheap : heap (match_order (brk w)
            (make_shared (now w).2 (limit_order id s sym sz prc (now w).1)).2
            book).1.2 q = heap w q).
  { apply G7; [by apply Hlt|]. by apply (Hd sym2 sym b2 book). }
  by destruct (is_filled _).
Qed.

Lemma place_market_other_books sym id s sz w e sym2 b2 :
  engine_inv w e -> u64 sz -> sym2 <> sym ->
  order_books_ e !! sym2 = Some b2 ->
  let r := place_market_order sym id s sz w e in
  order_books_ (r_engine r) !! sym2 = Some b2 /\
  forall q, q ∈ resting b2 -> heap (r_world r) q = heap w q.
Proof.
  intros He Hsz Hne H2. cbv zeta.
  destruct (order_books_ e !! sym) as [book|] eqn:Hsym.
  2:{ unfold place_market_order. rewrite Hsym. by split. }
  rewrite (place_market_order_unfold _ _ _ _ _ _ _ Hsym). cbv zeta.
  destruct (placed_match_facts w e sym book
              (market_order id s sym sz (now w).1) He Hsym
              (market_order_ok _ _ _ _ _ Hsz) eq_refl)
    as (_ & _ & _ & _ & _ & _ & G7).
  cbn [r_world r_engine order_books_].
  split; [by rewrite lookup_insert_ne|].
  intros q Hq. destruct He as (_ & Hb & Hd).
  destruct (Hb _ _ H2) as [_ Hlt].
  apply G7; [by apply Hlt|]. by apply (Hd sym2 sym b2 book).
Qed.

Lemma engine_cancel_other_books id w e sym syms sym2 b2 :
  engine_inv w e ->
  mm_equal_range id (order_id_to_symbol_ e) = sym :: syms ->
  sym2 <> sym -> order_books_ e !! sym2 = Some b2 ->
  let r := engine_cancel_order id w e in
  order_books_ r.2 !! sym2 = Some b2 /\
  forall q, q ∈ resting b2 -> heap r.1.2 q = heap w q.
Proof.
  intros He E Hne H2. cbv zeta.
  destruct (order_books_ e !! sym) as [book|] eqn:Hsym.
  2:{ unfold engine_cancel_order. rewrite E, Hsym. by split. }
  rewrite (engine_cancel_order_unfold _ _ _ _ _ _ E Hsym). cbv zeta.
  cbn [fst snd order_books_].
  split; [by rewrite lookup_insert_ne|].
  intros q Hq. destruct He as (_ & Hb & Hd).
  destruct (Hb _ _ Hsym) as [Hinv _].
  destruct (cancel_order_facts id w book) as (_ & _ & G5). apply G5.
  intros Hin. apply (Hd sym2 sym b2 book Hne H2 Hsym q Hq).
  by eapply indexed_resting.
Qed.

(** No operation touches the clock, and none gives a reading back. *)
Lemma match_loop_ticks n p st :
  clock (m_world (match_loop n p st)) = clock (m_world st) /\
  (ticks (m_world st) <= ticks (m_world (match_loop n p st)))%nat.
Proof.
  revert n st.
  apply (match_loop_rel_any p (fun st st2 =>
    clock (m_world st2) = clock (m_world st) /\
    (ticks (m_world st) <= ticks (m_world st2))%nat)).
  - by split.
  - intros st st1 st2 Hbody [E1 E2].
    apply match_body_Some in Hbody. cbv zeta in Hbody.
    destruct Hbody as (m & rest & _ & _ & _ & _ & Hc & Ht & _).
    rewrite Hc in E1. rewrite Ht in E2. split; [exact E1|lia].
Qed.

Lemma match_order_clock p w b :
  clock (match_order p w b).1.2 = clock w /\
  (ticks w < ticks (match_order p w b).1.2)%nat.
Proof.
  rewrite match_order_unfold. cbv zeta. cbn [fst snd].
  destruct (match_loop_ticks
    (S (length (side_orders (opposite (side (heap w p))) b))) p
    (mkMatch w b [])) as [E1 E2].
  set (st := match_loop _ _ _) in *. clearbody st. simpl in *.
  split; [exact E1|lia].
Qed.

Lemma cancel_order_clock id w b :
  clock (cancel_order id w b).1.2 = clock w /\
  (ticks w <= ticks (cancel_order id w b).1.2)%nat.
Proof.
  destruct (mm_equal_range id (order_map_ b)) as [|p ps] eqn:E.
  - rewrite cancel_order_none by exact E. by split.
  - rewrite (cancel_order_some _ _ _ _ _ E). cbv zeta. simpl.
    split; [reflexivity|lia].
Qed.

Lemma placed_clock pol w book o :
  let mo := match_order (brk w) (make_shared (now w).2 o).2 book in
  let ab := if is_filled (heap mo.1.2 (brk w)) then (mo.1.2, mo.2)
            else add_order pol (brk w) mo.1.2 mo.2 in
  (clock mo.1.2 = clock w /\ (ticks w < ticks mo.1.2)%nat) /\
  (clock ab.1 = clock w /\ (ticks w < ticks ab.1)%nat).
Proof.
  cbv zeta.
  destruct (match_order_clock (brk w) (make_shared (now w).2 o).2 book)
    as [E1 E2].
  set (mo := match_order _ _ _) in *. clearbody mo. simpl in E1, E2.
  split; [split; [exact E1|lia]|].
  destruct (is_filled _); simpl; split; (exact E1 || lia).
Qed.

Lemma place_limit_order_clock pol sym id s sz prc w e :
  let r := place_limit_order pol sym id s sz prc w e in
  clock (r_world r) = clock w /\ (ticks w <= ticks (r_world r))%nat.
Proof.
  cbv zeta. destruct (order_books_ e !! sym) as [book|] eqn:Hsym.
  2:{ unfold place_limit_order. rewrite Hsym. by split. }
  rewrite (place_limit_order_unfold _ _ _ _ _ _ _ _ _ Hsym). cbv zeta.
  cbn [r_world].
  destruct (placed_clock pol w book (limit_order id s sym sz prc (now w).1))
    as [_ [E1 E2]].
  cbv zeta in E1, E2. split; [exact E1|lia].
Qed.

Lemma place_market_order_clock sym id s sz w e :
  let r := place_market_order sym id s sz w e in
  clock (r_world r) = clock w /\ (ticks w <= ticks (r_world r))%nat.
Proof.
  cbv zeta. destruct (order_books_ e !! sym) as [book|] eqn:Hsym.
  2:{ unfold place_market_order. rewrite Hsym. by split. }
  rewrite (place_market_order_unfold _ _ _ _ _ _ _ Hsym). cbv zeta.
  cbn [r_world].
  destruct (placed_clock InsertionOrder w book
              (market_order id s sym sz (now w).1)) as [[E1 E2] _].
  cbv zeta in E1, E2. split; [exact E1|lia].
Qed.

Lemma engine_cancel_order_clock id w e :
  let r := engine_cancel_order id w e in
  clock r.1.2 = clock w /\ (ticks w <= ticks r.1.2)%nat.
Proof.
  cbv zeta.
  destruct (mm_equal_range id (order_id_to_symbol_ e)) as [|sym syms] eqn:E.
  { unfold engine_cancel_order. rewrite E. by split. }
  destruct (order_books_ e !! sym) as [book|] eqn:Hsym.
  2:{ unfold engine_cancel_order. rewrite E, Hsym. by split. }
  rewrite (engine_cancel_order_unfold _ _ _ _ _ _ E Hsym). cbv zeta.
  cbn [fst snd]. apply cancel_order_clock.
Qed.

(** A property of the books and their orders holds in every state the
    engine reaches when a new book has it and every operation keeps it
    for the book it works on. *)
Lemma engine_reachable_books pol
    (P : World -> string -> OrderBook -> Prop) :
  (forall w sym, P w sym (new_book sym)) ->
  (forall w w' sym b,
     (forall q, q ∈ resting b -> heap w' q = heap w q) ->
     clock w' = clock w -> (ticks w <= ticks w')%nat ->
     P w sym b -> P w' sym b) ->
  (forall w e sym id s sz prc book,
     engine_inv w e -> u64 sz -> order_books_ e !! sym = Some book ->
     P w sym book ->
     let o := limit_order id s sym sz prc (now w).1 in
     let mo := match_order (brk w) (make_shared (now w).2 o).2 book in
     let ab := if is_filled (heap mo.1.2 (brk w)) then (mo.1.2, mo.2)
               else add_order pol (brk w) mo.1.2 mo.2 in
     P ab.1 sym ab.2) ->
  (forall w e sym id s sz book,
     engine_inv w e -> u64 sz -> order_books_ e !! sym = Some book ->
     P w sym book ->
     let o := market_order id s sym sz (now w).1 in
     let mo := match_order (brk w) (make_shared (now w).2 o).2 book in
     P mo.1.2 sym mo.2) ->
  (forall w e sym id book,
     engine_inv w e -> order_books_ e !! sym = Some book ->
     P w sym book ->
     let r := cancel_order id w book in
     P r.1.2 sym r.2) ->
  forall w e, engine_reachable pol w e ->
  forall sym b, order_books_ e !! sym = Some b -> P w sym b.
Proof.
  intros Hnew Hext Hlimit Hmarket Hcancel w e Hr.
  induction Hr as [w Hw|w e sym Hr IH|w e cb Hr IH
                   |w e sym id s sz prc Hr IH Hsz
                   |w e sym id s sz Hr IH Hsz|w e id Hr IH];
    intros sym0 b0.
  - simpl. by rewrite lookup_empty.
  - unfold add_order_book.
    destruct (order_books_ e !! sym) eqn:E; [apply IH|].
    simpl. rewrite lookup_insert. case_decide; [|apply IH].
    intros [= <-]. subst. apply Hnew.
  - apply IH.
  - pose proof (engine_reachable_inv _ _ _ Hr) as He.
    destruct (order_books_ e !! sym) as [book|] eqn:Hsym.
    2:{ unfold place_limit_order. rewrite Hsym. apply IH. }
    destruct (decide (sym0 = sym)) as [->|Hne].
    + rewrite (place_limit_order_unfold _ _ _ _ _ _ _ _ _ Hsym). cbv zeta.
      cbn [r_world r_engine order_books_]. rewrite lookup_insert_eq.
      intros [= <-].
      apply (Hlimit w e sym id s sz prc book He Hsz Hsym (IH _ _ Hsym)).
    + intros H0.
      destruct (order_books_ e !! sym0) as [b1|] eqn:E0.
      * destruct (place_limit_other_books pol sym id s sz prc w e sym0 b1
                    He Hsz Hne E0) as [G1 G2].
        destruct (place_limit_order_clock pol sym id s sz prc w e)
          as [G3 G4].
        cbv zeta in G1, G2, G3, G4. rewrite G1 in H0. injection H0 as <-.
        eapply Hext; [exact G2|exact G3|exact G4|]. by apply IH.
      * rewrite (place_limit_order_unfold _ _ _ _ _ _ _ _ _ Hsym) in H0.
        cbv zeta in H0. cbn [r_engine order_books_] in H0.
        rewrite lookup_insert_ne in H0 by congruence. congruence.
  - pose proof (engine_reachable_inv _ _ _ Hr) as He.
    destruct (order_books_ e !! sym) as [book|] eqn:Hsym.
    2:{ unfold place_market_order. rewrite Hsym. apply IH. }
    destruct (decide (sym0 = sym)) as [->|Hne].
    + rewrite (place_market_order_unfold _ _ _ _ _ _ _ Hsym). cbv zeta.
      cbn [r_world r_engine order_books_]. rewrite lookup_insert_eq.
      intros [= <-].
      apply (Hmarket w e sym id s sz book He Hsz Hsym (IH _ _ Hsym)).
    + intros H0.
      destruct (order_books_ e !! sym0) as [b1|] eqn:E0.
      * destruct (place_market_other_books sym id s sz w e sym0 b1
                    He Hsz Hne E0) as [G1 G2].
        destruct (place_market_order_clock sym id s sz w e) as [G3 G4].
        cbv zeta in G1, G2, G3, G4. rewrite G1 in H0. injection H0 as <-.
        eapply Hext; [exact G2|exact G3|exact G4|]. by apply IH.
      * rewrite (place_market_order_unfold _ _ _ _ _ _ _ Hsym) in H0.
        cbv zeta in H0. cbn [r_engine order_books_] in H0.
        rewrite lookup_insert_ne in H0 by congruence. congruence.
  - pose proof (engine_reachable_inv _ _ _ Hr) as He.
    destruct (mm_equal_range id (order_id_to_symbol_ e)) as [|sym syms] eqn:E.
    { unfold engine_cancel_order. rewrite E. apply IH. }
    destruct (order_books_ e !! sym) as [book|] eqn:Hsym.
    2:{ unfold engine_cancel_order. rewrite E, Hsym. apply IH. }
    destruct (decide (sym0 = sym)) as [->|Hne].
    + rewrite (engine_cancel_order_unfold _ _ _ _ _ _ E Hsym). cbv zeta.
      cbn [fst snd order_books_]. rewrite lookup_insert_eq.
      intros [= <-].
      apply (Hcancel w e sym id book He Hsym (IH _ _ Hsym)).
    + intros H0.
      destruct (order_books_ e !! sym0) as [b1|] eqn:E0.
      * destruct (engine_cancel_other_books id w e sym syms sym0 b1
                    He E Hne E0) as [G1 G2].
        destruct (engine_cancel_order_clock id w e) as [G3 G4].
        cbv zeta in G1, G2, G3, G4. rewrite G1 in H0. injection H0 as <-.
        eapply Hext; [exact G2|exact G3|exact G4|]. by apply IH.
      * rewrite (engine_cancel_order_unfold _ _ _ _ _ _ E Hsym) in H0.
        cbv zeta in H0. cbn [fst snd order_books_] in H0.
        rewrite lookup_insert_ne in H0 by congruence. congruence.
Qed.

(** ** The books of the engine are never crossed *)




Lemma one_sell_reachable pol :
  engine_reachable pol (r_world (one_sell pol)) (r_engine (one_sell pol)).
Proof.
  unfold one_sell. apply eng_place_limit.
  - apply eng_add_order_book, eng_new, world_0_ok.
  - unfold u64, two64. lia.
Qed.

Lemma two_sided_reachable pol :
  engine_reachable pol (r_world (two_sided pol)) (r_engine (two_sided pol)).
Proof.
  unfold two_sided. apply eng_place_limit; [apply one_sell_reachable|].
  unfold u64, two64. lia.
Qed.



(** ** The status of the resting orders *)

Lemma resting_status_reachable pol w e :
  engine_reachable pol w e ->
  forall sym b, order_books_ e !! sym = Some b ->
  forall q, q ∈ resting b -> resting_status (heap w q).
Proof.
  revert w e.
  apply (engine_reachable_books pol
           (fun w _ b => forall q, q ∈ resting b -> resting_status (heap w q))).
  - intros w sym q Hq. by apply elem_of_nil in Hq.
  - intros w w' sym b Hag _ _ H q Hq. rewrite Hag by exact Hq. by apply H.
  - (* place_limit_order *)
    intros w e sym id s sz prc book He Hsz Hsym IH. cbv zeta.
    pose proof He as (_ & Hb & _). destruct (Hb _ _ Hsym) as [_ Hfresh].
    destruct (placed_match_facts w e sym book
                (limit_order id s sym sz prc (now w).1) He Hsym
                (limit_order_ok _ _ _ _ _ _ Hsz) eq_refl)
      as (G1 & G2 & G3 & G4 & _).
    destruct (placed_match_more w e sym book
                (limit_order id s sym sz prc (now w).1) He Hsym
                (limit_order_ok _ _ _ _ _ _ Hsz) eq_refl)
      as (_ & _ & _ & _ & _ & M6 & M7 & _).
    cbv zeta in G1, G2, G3, G4, M6, M7.
    set (mo := match_order _ _ _) in *. clearbody mo.
    assert (Hold : forall q, q ∈ resting mo.2 -> resting_status (heap mo.1.2 q)).
    { intros q Hq.
      assert (Hq' : q ∈ resting book) by (by eapply elem_of_sublist).
      assert (Hne : q <> brk w) by (intros ->; apply Hfresh in Hq'; lia).
      destruct (M6 q Hne) as [H|[[_ H]|H]].
      - rewrite H. by apply IH.
      - rewrite (inv_open _ _ G2 q Hq) in H. discriminate.
      - by right. }
    destruct (is_filled (heap mo.1.2 (brk w))) eqn:Hf; [exact Hold|].
    cbn [fst snd]. intros q Hq.
    change (heap (add_order pol (brk w) mo.1.2 mo.2).1) with (heap mo.1.2).
    rewrite add_order_resting in Hq.
    apply elem_of_cons in Hq as [->|Hq]; [|by apply Hold].
    destruct M7 as [H|[[_ H]|H]].
    + rewrite H. by left.
    + congruence.
    + by right.
  - (* place_market_order *)
    intros w e sym id s sz book He Hsz Hsym IH. cbv zeta.
    pose proof He as (_ & Hb & _). destruct (Hb _ _ Hsym) as [_ Hfresh].
    destruct (placed_match_facts w e sym book
                (market_order id s sym sz (now w).1) He Hsym
                (market_order_ok _ _ _ _ _ Hsz) eq_refl)
      as (G1 & G2 & G3 & G4 & _).
    destruct (placed_match_more w e sym book
                (market_order id s sym sz (now w).1) He Hsym
                (market_order_ok _ _ _ _ _ Hsz) eq_refl)
      as (_ & _ & _ & _ & _ & M6 & _).
    cbv zeta in G1, G2, G3, G4, M6.
    set (mo := match_order _ _ _) in *. clearbody mo.
    intros q Hq.
    assert (Hq' : q ∈ resting book) by (by eapply elem_of_sublist).
    assert (Hne : q <> brk w) by (intros ->; apply Hfresh in Hq'; lia).
    destruct (M6 q Hne) as [H|[[_ H]|H]].
    + rewrite H. by apply IH.
    + rewrite (inv_open _ _ G2 q Hq) in H. discriminate.
    + by right.
  - (* cancel_order *)
    intros w e sym id book He Hsym IH. cbv zeta.
    pose proof He as (_ & Hb & _). destruct (Hb _ _ Hsym) as [Hinv _].
    destruct (cancel_order_effect id w book Hinv) as (_ & _ & _ & _ & C5).
    destruct (cancel_order_facts id w book) as (C6 & _).
    cbv zeta in C5, C6.
    intros q Hq. destruct (C5 q) as [H|(_ & H & _)]; [|done].
    rewrite H. apply IH. by eapply elem_of_sublist.
Qed.

(** X13: in every state the engine reaches an order that
    [get_all_orders] returns for a book, on either side, is [New] with
    nothing filled or [PartiallyFilled] and not filled, never [Filled],
    [Cancelled] or [Rejected]; so [remove_filled_orders], which this
    revision never calls, would take nothing out of any book. *)
Theorem resting_orders_are_live pol w e sym b :
  engine_reachable pol w e -> get_order_book sym e = Some b ->
  (forall q, q ∈ (get_all_orders b).1 \/ q ∈ (get_all_orders b).2 ->
     (status (heap w q) = New /\ filled_size (heap w q) = 0) \/
     (status (heap w q) = PartiallyFilled /\ is_filled (heap w q) = false)) /\
  remove_filled_orders w b = b.
Proof.
  intros Hr Hb.
  pose proof (resting_status_reachable pol w e Hr sym b Hb) as H.
  pose proof (engine_reachable_inv _ _ _ Hr) as (_ & Hinv & _).
  destruct (Hinv _ _ Hb) as [Hbi _].
  split.
  { intros q Hq. apply H. unfold resting. apply elem_of_app. exact Hq. }
  assert (Hkeep : forall l : list ptr, (forall q, q ∈ l -> q ∈ resting b) ->
    filter (fun q => is_filled (heap w q)
                     || bool_decide (status (heap w q) = Cancelled) = false) l
      = l).
  { induction l as [|q l IH]; intros Hl; [reflexivity|].
    rewrite filter_cons_True.
    - f_equal. apply IH. intros q' Hq'. apply Hl. by right.
    - assert (Hq : q ∈ resting b) by (apply Hl; by left).
      rewrite (inv_open _ _ Hbi q Hq). simpl.
      apply bool_decide_eq_false.
      destruct (H q Hq) as [[E _]|[E _]]; rewrite E; discriminate. }
  unfold remove_filled_orders.
  rewrite !Hkeep.
  - by destruct b.
  - intros q Hq. apply elem_of_app. by right.
  - intros q Hq. apply elem_of_app. by left.
Qed.

Lemma resting_orders_are_live_witness :
  let r := two_sided InsertionOrder in
  exists b,
    get_order_book "T" (r_engine r) = Some b /\
    resting b = [1%nat; 0%nat] /\
    remove_filled_orders (r_world r) b = b.
Proof.
  eexists. split; [reflexivity|]. split; [reflexivity|].
  apply (resting_orders_are_live InsertionOrder
           (r_world (two_sided InsertionOrder))
           (r_engine (two_sided InsertionOrder)) "T").
  - apply two_sided_reachable.
  - reflexivity.
Defined.

(** ** Books and symbols *)

Lemma symbol_reachable pol w e :
  engine_reachable pol w e ->
  forall sym b, order_books_ e !! sym = Some b ->
  symbol_ b = sym /\ forall q, q ∈ resting b -> symbol (heap w q) = sym.
Proof.
  revert w e.
  apply (engine_reachable_books pol
           (fun w sym b =>
              symbol_ b = sym /\
              forall q, q ∈ resting b -> symbol (heap w q) = sym)).
  - intros w sym. split; [reflexivity|].
    intros q Hq. by apply elem_of_nil in Hq.
  - intros w w' sym b Hag _ _ [H1 H2]. split; [exact H1|].
    intros q Hq. rewrite Hag by exact Hq. by apply H2.
  - (* place_limit_order *)
    intros w e sym id s sz prc book He Hsz Hsym [IH1 IH2]. cbv zeta.
    pose proof He as (_ & Hb & _). destruct (Hb _ _ Hsym) as [_ Hfresh].
    destruct (placed_match_facts w e sym book
                (limit_order id s sym sz prc (now w).1) He Hsym
                (limit_order_ok _ _ _ _ _ _ Hsz) eq_refl)
      as (_ & _ & _ & G4 & _).
    destruct (placed_match_more w e sym book
                (limit_order id s sym sz prc (now w).1) He Hsym
                (limit_order_ok _ _ _ _ _ _ Hsz) eq_refl)
      as (M1 & M2 & _ & _ & _ & _ & _ & M8 & _).
    cbv zeta in G4, M1, M2, M8.
    set (mo := match_order _ _ _) in *. clearbody mo.
    assert (Hold : forall q, q ∈ resting mo.2 -> symbol (heap mo.1.2 q) = sym).
    { intros q Hq.
      assert (Hq' : q ∈ resting book) by (by eapply elem_of_sublist).
      assert (Hne : q <> brk w) by (intros ->; apply Hfresh in Hq'; lia).
      destruct (M1 q Hne) as (_ & _ & E & _). rewrite E. by apply IH2. }
    destruct (is_filled (heap mo.1.2 (brk w))) eqn:Hf.
    + cbn [fst snd]. split; [by rewrite M8|exact Hold].
    + cbn [fst snd]. split.
      * unfold add_order. destruct (now mo.1.2). simpl.
        destruct (side (heap mo.1.2 (brk w))); simpl; by rewrite M8.
      * intros q Hq.
        change (heap (add_order pol (brk w) mo.1.2 mo.2).1)
          with (heap mo.1.2).
        rewrite add_order_resting in Hq.
        apply elem_of_cons in Hq as [->|Hq]; [|by apply Hold].
        by destruct M2 as (_ & _ & _ & -> & _).
  - (* place_market_order *)
    intros w e sym id s sz book He Hsz Hsym [IH1 IH2]. cbv zeta.
    pose proof He as (_ & Hb & _). destruct (Hb _ _ Hsym) as [_ Hfresh].
    destruct (placed_match_facts w e sym book
                (market_order id s sym sz (now w).1) He Hsym
                (market_order_ok _ _ _ _ _ Hsz) eq_refl)
      as (_ & _ & _ & G4 & _).
    destruct (placed_match_more w e sym book
                (market_order id s sym sz (now w).1) He Hsym
                (market_order_ok _ _ _ _ _ Hsz) eq_refl)
      as (M1 & _ & _ & _ & _ & _ & _ & M8 & _).
    cbv zeta in G4, M1, M8.
    set (mo := match_order _ _ _) in *. clearbody mo.
    split; [by rewrite M8|].
    intros q Hq.
    assert (Hq' : q ∈ resting book) by (by eapply elem_of_sublist).
    assert (Hne : q <> brk w) by (intros ->; apply Hfresh in Hq'; lia).
    destruct (M1 q Hne) as (_ & _ & E & _). rewrite E. by apply IH2.
  - (* cancel_order *)
    intros w e sym id book He Hsym [IH1 IH2]. cbv zeta.
    pose proof He as (_ & Hb & _). destruct (Hb _ _ Hsym) as [Hinv _].
    destruct (cancel_order_effect id w book Hinv) as (_ & C2 & C3 & _).
    destruct (cancel_order_facts id w book) as (C6 & _).
    cbv zeta in C2, C3, C6.
    split; [by rewrite C3|].
    intros q Hq. destruct (C2 q) as (_ & _ & _ & E & _). rewrite E.
    apply IH2. by eapply elem_of_sublist.
Qed.

(** X14: in every state the engine reaches the book filed under a
    symbol is the book of that symbol and the orders that rest in it
    were placed for that symbol; so [get_all_order_books] returns one
    book for each symbol, no symbol twice. *)
Theorem books_hold_their_symbol pol w e :
  engine_reachable pol w e ->
  (forall sym b, get_order_book sym e = Some b ->
     get_symbol b = sym /\
     forall q, q ∈ resting b -> symbol (heap w q) = sym) /\
  NoDup (map get_symbol (get_all_order_books e)) /\
  (forall b, b ∈ get_all_order_books e <->
             get_order_book (get_symbol b) e = Some b).
Proof.
  intros Hr. pose proof (symbol_reachable pol w e Hr) as H.
  split; [exact H|].
  unfold get_all_order_books, get_order_book.
  assert (E : map get_symbol (map_to_list (order_books_ e)).*2
              = (map_to_list (order_books_ e)).*1).
  { assert (Hall : forall kb, kb ∈ map_to_list (order_books_ e) ->
                              get_symbol kb.2 = kb.1).
    { intros [k b] Hkb. apply elem_of_map_to_list in Hkb.
      by destruct (H k b Hkb). }
    induction (map_to_list (order_books_ e)) as [|kb l IH]; [reflexivity|].
    simpl. rewrite (Hall kb) by (by left). f_equal.
    apply IH. intros kb' Hkb'. apply Hall. by right. }
  split.
  - rewrite E. apply NoDup_fst_map_to_list.
  - intros b. rewrite list_elem_of_fmap. split.
    + intros ([k b'] & -> & Hkb). apply elem_of_map_to_list in Hkb.
      simpl. destruct (H k b' Hkb) as [E' _].
      unfold get_symbol. by rewrite E'.
    + intros Hb. exists (get_symbol b, b). split; [reflexivity|].
      by apply elem_of_map_to_list.
Qed.

(** The book ["T"] with its two resting orders. *)
Lemma books_hold_their_symbol_witness :
  let r := two_sided InsertionOrder in
  exists b,
    get_order_book "T" (r_engine r) = Some b /\
    resting b = [1%nat; 0%nat] /\
    get_symbol b = "T" /\
    forall q, q ∈ resting b -> symbol (heap (r_world r) q) = "T".
Proof.
  eexists. split; [reflexivity|]. split; [reflexivity|].
  apply (proj1 (books_hold_their_symbol InsertionOrder
                  (r_world (two_sided InsertionOrder))
                  (r_engine (two_sided InsertionOrder))
                  (two_sided_reachable InsertionOrder)) "T").
  reflexivity.
Defined.

Lemma two_books_reachable pol :
  engine_reachable pol (r_world (one_sell pol)) (two_books pol).
Proof. apply eng_add_order_book, one_sell_reachable. Qed.

(** X15: an operation on the book of one symbol leaves the books of the
    other symbols and the orders resting in them exactly as they were:
    placing a limit or a market order for another symbol, and cancelling
    an id that the engine looks up in another book. *)
Theorem other_books_untouched pol w e sym2 b2 :
  engine_reachable pol w e -> get_order_book sym2 e = Some b2 ->
  (forall sym id s sz prc, u64 sz -> sym <> sym2 ->
     let r := place_limit_order pol sym id s sz prc w e in
     get_order_book sym2 (r_engine r) = Some b2 /\
     forall q, q ∈ resting b2 -> heap (r_world r) q = heap w q) /\
  (forall sym id s sz, u64 sz -> sym <> sym2 ->
     let r := place_market_order sym id s sz w e in
     get_order_book sym2 (r_engine r) = Some b2 /\
     forall q, q ∈ resting b2 -> heap (r_world r) q = heap w q) /\
  (forall id,
     head (mm_equal_range id (order_id_to_symbol_ e)) <> Some sym2 ->
     let r := engine_cancel_order id w e in
     get_order_book sym2 r.2 = Some b2 /\
     forall q, q ∈ resting b2 -> heap r.1.2 q = heap w q).
Proof.
  intros Hr H2. pose proof (engine_reachable_inv _ _ _ Hr) as He.
  unfold get_order_book in *. split_and!.
  - intros sym id s sz prc Hsz Hne.
    by apply place_limit_other_books.
  - intros sym id s sz Hsz Hne.
    by apply place_market_other_books.
  - intros id Hhd. cbv zeta.
    destruct (mm_equal_range id (order_id_to_symbol_ e)) as [|sym syms] eqn:E.
    { unfold engine_cancel_order. rewrite E. by split. }
    apply (engine_cancel_other_books id w e sym syms); auto.
    intros ->. by apply Hhd.
Qed.

(** The sell order rests in ["T"]; a buy order placed in ["O"] leaves
    ["T"] and its order alone. *)
Lemma other_books_untouched_witness :
  let w := r_world (one_sell InsertionOrder) in
  let e := two_books InsertionOrder in
  let r := place_limit_order InsertionOrder "O" "B1" Buy 50 9 w e in
  exists b2,
    get_order_book "T" e = Some b2 /\ resting b2 = [0%nat] /\
    get_order_book "T" (r_engine r) = Some b2 /\
    forall q, q ∈ resting b2 -> heap (r_world r) q = heap w q.
Proof.
  eexists. split; [reflexivity|]. split; [reflexivity|].
  destruct (other_books_untouched InsertionOrder
              (r_world (one_sell InsertionOrder)) (two_books InsertionOrder)
              "T" _ (two_books_reachable InsertionOrder) eq_refl)
    as (H & _ & _).
  apply (H "O" "B1" Buy 50 9%Q).
  - unfold u64, two64. lia.
  - discriminate.
Defined.

(** X16: [add_order_book] never replaces a book: afterwards the symbol
    has a book, the one it had before if it had one and an empty one
    otherwise, and every other symbol has what it had; the ids and the
    callbacks are as they were. *)
Theorem add_order_book_lookup sym sym' e :
  get_order_book sym' (add_order_book sym e) =
    match get_order_book sym' e with
    | Some b => Some b
    | None => if decide (sym' = sym) then Some (new_book sym) else None
    end /\
  order_id_to_symbol_ (add_order_book sym e) = order_id_to_symbol_ e /\
  trade_callbacks_ (add_order_book sym e) = trade_callbacks_ e.
Proof.
  unfold get_order_book, add_order_book.
  destruct (order_books_ e !! sym) as [b|] eqn:E.
  - split; [|by split].
    destruct (order_books_ e !! sym') as [b'|] eqn:E'; [reflexivity|].
    case_decide; [congruence|reflexivity].
  - simpl. split; [|by split]. rewrite lookup_insert.
    case_decide as H; [subst sym'|].
    + rewrite E. by rewrite decide_True.
    + rewrite decide_False by congruence.
      by destruct (order_books_ e !! sym').
Qed.

(** ** The engine of the earlier revision *)

(** X17: in the earlier revision of the engine a market order takes the
    id it is placed under out of the id index, whatever was filed there:
    a limit order that rests under the same id can no longer be cancelled
    through the engine. *)
Theorem legacy_market_order_erases_id sym id s sz w e book :
  Legacy.order_books_ e !! sym = Some book ->
  let r := Legacy.place_market_order sym id s sz w e in
  Legacy.order_id_to_symbol_ (Legacy.r_engine r) !! id = None /\
  Legacy.engine_cancel_order id (Legacy.r_world r) (Legacy.r_engine r)
    = (false, Legacy.r_world r, Legacy.r_engine r).
Proof.
  intros Hsym. cbv zeta.
  assert (H : Legacy.order_id_to_symbol_
                (Legacy.r_engine (Legacy.place_market_order sym id s sz w e))
                !! id = None).
  { unfold Legacy.place_market_order. rewrite Hsym.
    destruct (Legacy.generate_timestamp w) as [time w1].
    destruct (make_shared w1 _) as [p w2].
    destruct (Legacy.match_order p w2 book) as [[trades w3] book1].
    simpl. apply lookup_delete_eq. }
  split; [exact H|].
  unfold Legacy.engine_cancel_order. by rewrite H.
Qed.

(** The buy order ["X"] rests in the book and was filed under its id;
    after the market order ["X"] it still rests, and cannot be
    cancelled. *)
Lemma legacy_market_order_erases_id_witness :
  let r := legacy_market_x in
  Legacy.order_id_to_symbol_ (Legacy.r_engine legacy_resting_x) !! "X"
    = Some "T" /\
  (Legacy.buy_orders_ <$> Legacy.order_books_ (Legacy.r_engine r) !! "T")
    = Some [0%nat] /\
  Legacy.order_id_to_symbol_ (Legacy.r_engine r) !! "X" = None /\
  Legacy.engine_cancel_order "X" (Legacy.r_world r) (Legacy.r_engine r)
    = (false, Legacy.r_world r, Legacy.r_engine r).
Proof.
  split; [reflexivity|]. split; [reflexivity|].
  apply (legacy_market_order_erases_id "T" "X" Buy 50
           (Legacy.r_world legacy_resting_x)
           (Legacy.r_engine legacy_resting_x)
           (default (Legacy.new_book "T")
              (Legacy.order_books_ (Legacy.r_engine legacy_resting_x)
                 !! "T"))).
  reflexivity.
Defined.

Lemma legacy_match_body_map p st st' :
  Legacy.match_body p st = Some st' ->
  Legacy.order_map_ (Legacy.m_book st') = Legacy.order_map_ (Legacy.m_book st) /\
  order_id (heap (Legacy.m_world st') p)
    = order_id (heap (Legacy.m_world st) p).
Proof.
  unfold Legacy.match_body. intros H.
  destruct (Legacy.side_orders _ (Legacy.m_book st)) as [|m rest];
    [discriminate|].
  destruct (is_filled (heap (Legacy.m_world st) p)); [discriminate|].
  destruct (_ || _); [|discriminate].
  injection H as <-. simpl. split.
  - destruct (is_filled _); [|reflexivity].
    by destruct (opposite _).
  - unfold upd. repeat case_decide; subst;
      repeat (rewrite (proj1 (fill_fields _ _))); try reflexivity;
      unfold upd; repeat case_decide; try congruence;
      by rewrite ?(proj1 (fill_fields _ _)).
Qed.

Lemma legacy_match_loop_map n p st :
  Legacy.order_map_ (Legacy.m_book (Legacy.match_loop n p st))
    = Legacy.order_map_ (Legacy.m_book st) /\
  order_id (heap (Legacy.m_world (Legacy.match_loop n p st)) p)
    = order_id (heap (Legacy.m_world st) p).
Proof.
  revert st. induction n as [|n IH]; intros st; [by split|].
  simpl. destruct (Legacy.match_body p st) as [st'|] eqn:E; [|by split].
  destruct (legacy_match_body_map _ _ _ E) as [E1 E2].
  destruct (IH st') as [E3 E4]. split; congruence.
Qed.

(** X18: in the earlier revision of the book [match_order] takes a maker
    it fills off its side but leaves it in the id index; so after a
    match every id that was filed, other than that of the incoming
    order, is still filed with its order, and [cancel_order] of such an
    id returns true and marks the order [Cancelled], also when the match
    has just filled it completely. *)
Theorem legacy_filled_maker_stays_indexed p w (b : Legacy.OrderBook) id m :
  Legacy.order_map_ b !! id = Some m -> order_id (heap w p) <> id ->
  let r := Legacy.match_order p w b in
  let c := Legacy.cancel_order id r.1.2 r.2 in
  Legacy.order_map_ r.2 !! id = Some m /\
  c.1.1 = true /\ status (heap c.1.2 m) = Cancelled.
Proof.
  intros Hm Hid. cbv zeta.
  assert (H : Legacy.order_map_ (Legacy.match_order p w b).2 !! id = Some m).
  { unfold Legacy.match_order.
    destruct (legacy_match_loop_map
      (S (length (Legacy.side_orders (opposite (side (heap w p))) b))) p
      (Legacy.mkMatch w b [])) as [E1 E2].
    set (st := Legacy.match_loop _ _ _) in *. clearbody st.
    simpl in E1, E2.
    destruct (negb _ && _).
    - unfold Legacy.add_order. destruct (now (Legacy.m_world st)) as [t w1].
      simpl. destruct (side _); simpl;
        rewrite lookup_insert_ne by congruence; by rewrite E1.
    - simpl. by rewrite E1. }
  split; [exact H|].
  unfold Legacy.cancel_order. rewrite H.
  destruct (now _) as [t w2] eqn:En. simpl. split; [reflexivity|].
  unfold now in En. injection En as _ <-. simpl. by rewrite upd_same.
Qed.

(** The sell order ["SELL1"] of 100 is filled by the buy order of 150
    and has left the sell side, and yet it can be cancelled. *)
Lemma legacy_filled_maker_stays_indexed_witness :
  let r := Legacy.match_order 1%nat legacy_book.1 legacy_book.2 in
  let c := Legacy.cancel_order "SELL1" r.1.2 r.2 in
  (status (heap r.1.2 0%nat), Legacy.sell_orders_ r.2) = (Filled, []) /\
  Legacy.order_map_ r.2 !! "SELL1" = Some 0%nat /\
  c.1.1 = true /\ status (heap c.1.2 0%nat) = Cancelled.
Proof.
  split; [reflexivity|].
  apply (legacy_filled_maker_stays_indexed 1%nat legacy_book.1 legacy_book.2
           "SELL1" 0%nat).
  - reflexivity.
  - discriminate.
Defined.

(** ** The ids the engine knows *)

Section multimap_more.
Context {K V : Type} `{EqDecision K} `{EqDecision V}.
Implicit Types (k : K) (v : V) (m : list (K * V)).

Lemma mm_equal_range_filter k m :
  mm_equal_range k m = (filter (fun kv => kv.1 = k) m).*2.
Proof.
  induction m as [|[k' v'] m IH]; [reflexivity|]. simpl.
  destruct (decide (k' = k)) as [->|Hne].
  - rewrite filter_cons_True by done. simpl. by rewrite IH.
  - rewrite filter_cons_False by done. exact IH.
Qed.

Lemma mm_equal_range_perm k m m' :
  m ≡ₚ m' -> mm_equal_range k m ≡ₚ mm_equal_range k m'.
Proof. intros H. rewrite !mm_equal_range_filter. by rewrite H. Qed.

Lemma mm_equal_range_sublist k m m' :
  m `sublist_of` m' -> mm_equal_range k m `sublist_of` mm_equal_range k m'.
Proof.
  induction 1 as [|[k' v'] l1 l2 _ IH|[k' v'] l1 l2 _ IH]; simpl.
  - constructor.
  - destruct (decide (k' = k)); [by constructor|exact IH].
  - destruct (decide (k' = k)); [by constructor|exact IH].
Qed.

Lemma mm_equal_range_insert_perm pol k k' v m :
  mm_equal_range k (mm_insert pol k' v m)
    ≡ₚ (if decide (k' = k) then [v] else []) ++ mm_equal_range k m.
Proof.
  rewrite (mm_equal_range_perm _ _ _ (mm_insert_perm pol k' v m)).
  simpl. by destruct (decide (k' = k)).
Qed.

Lemma mm_equal_range_insert_fresh pol k v m :
  mm_equal_range k m = [] -> mm_equal_range k (mm_insert pol k v m) = [v].
Proof.
  intros Hnone. pose proof (mm_equal_range_insert_perm pol k k v m) as Hp.
  rewrite Hnone, decide_True in Hp by done. simpl in Hp.
  by apply Permutation_singleton_r in Hp.
Qed.
End multimap_more.

Lemma index_covers_reachable pol w e :
  engine_reachable pol w e -> index_covers e.
Proof.
  intros Hr.
  induction Hr as [w Hw|w e sym Hr IH|w e cb Hr IH
                   |w e sym id s sz prc Hr IH Hsz
                   |w e sym id s sz Hr IH Hsz|w e id Hr IH];
    intros sym0 b0 id0.
  - simpl. by rewrite lookup_empty.
  - unfold add_order_book.
    destruct (order_books_ e !! sym) eqn:E; [apply IH|].
    simpl. rewrite lookup_insert. case_decide; [|apply IH].
    intros [= <-]. simpl. lia.
  - apply IH.
  - pose proof (engine_reachable_inv _ _ _ Hr) as He.
    destruct (order_books_ e !! sym) as [book|] eqn:Hsym.
    2:{ unfold place_limit_order. rewrite Hsym. apply IH. }
    rewrite (place_limit_order_unfold _ _ _ _ _ _ _ _ _ Hsym). cbv zeta.
    cbn [r_engine order_books_ order_id_to_symbol_].
    destruct (placed_match_more w e sym book
                (limit_order id s sym sz prc (now w).1) He Hsym
                (limit_order_ok _ _ _ _ _ _ Hsz) eq_refl)
      as (_ & M2 & _ & _ & _ & _ & _ & _ & M9).
    cbv zeta in M2, M9. destruct M2 as (M2 & _).
    change (order_id (limit_order id s sym sz prc (now w).1)) with id in M2.
    set (mo := match_order _ _ _) in *. clearbody mo.
    rewrite (mm_equal_range_insert_perm pol id0 id sym).
    rewrite filter_app, length_app.
    rewrite lookup_insert. case_decide as Hs0.
    + subst sym0. intros [= <-].
      assert (Hmo : (length (mm_equal_range id0 (order_map_ mo.2))
                     <= length (mm_equal_range id0 (order_map_ book)))%nat).
      { apply sublist_length, mm_equal_range_sublist, M9. }
      specialize (IH sym book id0 Hsym).
      destruct (is_filled (heap mo.1.2 (brk w))); cbn [snd].
      * lia.
      * rewrite add_order_map, M2.
        rewrite (mm_equal_range_insert_perm pol id0 id (brk w)), length_app.
        destruct (decide (id = id0)); simpl.
        -- rewrite filter_cons_True by done. simpl. lia.
        -- lia.
    + intros H0. specialize (IH sym0 b0 id0 H0). lia.
  - pose proof (engine_reachable_inv _ _ _ Hr) as He.
    destruct (order_books_ e !! sym) as [book|] eqn:Hsym.
    2:{ unfold place_market_order. rewrite Hsym. apply IH. }
    rewrite (place_market_order_unfold _ _ _ _ _ _ _ Hsym). cbv zeta.
    cbn [r_engine order_books_ order_id_to_symbol_].
    destruct (placed_match_more w e sym book
                (market_order id s sym sz (now w).1) He Hsym
                (market_order_ok _ _ _ _ _ Hsz) eq_refl)
      as (_ & _ & _ & _ & _ & _ & _ & _ & M9).
    cbv zeta in M9.
    set (mo := match_order _ _ _) in *. clearbody mo.
    rewrite lookup_insert. case_decide as Hs0.
    + subst sym0. intros [= <-].
      assert (Hmo : (length (mm_equal_range id0 (order_map_ mo.2))
                     <= length (mm_equal_range id0 (order_map_ book)))%nat).
      { apply sublist_length, mm_equal_range_sublist, M9. }
      specialize (IH sym book id0 Hsym). lia.
    + apply IH.
  - destruct (mm_equal_range id (order_id_to_symbol_ e)) as [|sym syms] eqn:E.
    { unfold engine_cancel_order. rewrite E. apply IH. }
    destruct (order_books_ e !! sym) as [book|] eqn:Hsym.
    2:{ unfold engine_cancel_order. rewrite E, Hsym. apply IH. }
    rewrite (engine_cancel_order_unfold _ _ _ _ _ _ E Hsym). cbv zeta.
    cbn [fst snd order_books_ order_id_to_symbol_].
    destruct (mm_equal_range id (order_map_ book)) as [|p ps] eqn:Ep.
    + rewrite cancel_order_none by exact Ep. cbn [fst snd].
      rewrite insert_id by exact Hsym. apply IH.
    + rewrite (cancel_order_some _ _ _ _ _ Ep). cbv zeta. cbn [fst snd].
      rewrite lookup_insert. case_decide as Hs0.
      * subst sym0. intros [= <-]. simpl.
        specialize (IH sym book id0 Hsym).
        destruct (decide (id0 = id)) as [->|Hne].
        -- rewrite (mm_equal_range_erase_head _ _ _ _ Ep).
           rewrite (mm_equal_range_erase_head _ _ _ _ E).
           rewrite Ep, E in IH. rewrite filter_cons_True in IH by done.
           simpl in IH. lia.
        -- rewrite !mm_equal_range_erase_other by done. exact IH.
      * intros H0. specialize (IH sym0 b0 id0 H0).
        destruct (decide (id0 = id)) as [->|Hne].
        -- rewrite (mm_equal_range_erase_head _ _ _ _ E).
           rewrite E in IH. rewrite filter_cons_False in IH by congruence.
           exact IH.
        -- rewrite mm_equal_range_erase_other by done. exact IH.
Qed.

(** X19: the engine knows every resting order by its id: in every state
    it reaches, an order that rests in the book of a symbol is filed
    under its id in the id index of that book, and the id is filed with
    that symbol in the id index of the engine. *)
Theorem resting_orders_are_indexed pol w e sym b p :
  engine_reachable pol w e -> get_order_book sym e = Some b ->
  p ∈ resting b ->
  (order_id (heap w p), p) ∈ order_map_ b /\
  (order_id (heap w p), sym) ∈ order_id_to_symbol_ e.
Proof.
  intros Hr Hb Hp.
  pose proof (engine_reachable_inv _ _ _ Hr) as (_ & Hinv & _).
  destruct (Hinv _ _ Hb) as [Hbi _].
  pose proof (resting_indexed _ _ _ Hbi Hp) as Hin.
  split; [exact Hin|].
  pose proof (index_covers_reachable _ _ _ Hr sym b
                (order_id (heap w p)) Hb) as Hc.
  apply elem_of_mm_equal_range in Hin.
  destruct (mm_equal_range (order_id (heap w p)) (order_map_ b))
    as [|x xs] eqn:E; [by apply elem_of_nil in Hin|].
  simpl in Hc.
  destruct (filter (eq sym) (mm_equal_range (order_id (heap w p))
                               (order_id_to_symbol_ e)))
    as [|y ys] eqn:E'; [simpl in Hc; lia|].
  assert (Hy : y ∈ filter (eq sym)
                 (mm_equal_range (order_id (heap w p))
                    (order_id_to_symbol_ e))) by (rewrite E'; by left).
  apply list_elem_of_filter in Hy as [<- Hy].
  by apply elem_of_mm_equal_range.
Qed.

Lemma resting_orders_are_indexed_witness :
  let r := two_sided InsertionOrder in
  exists b,
    get_order_book "T" (r_engine r) = Some b /\
    (order_id (heap (r_world r) 1%nat), 1%nat) ∈ order_map_ b /\
    (order_id (heap (r_world r) 1%nat), "T")
      ∈ order_id_to_symbol_ (r_engine r).
Proof.
  eexists. split; [reflexivity|].
  apply (resting_orders_are_indexed InsertionOrder
           (r_world (two_sided InsertionOrder))
           (r_engine (two_sided InsertionOrder)) "T").
  - apply two_sided_reachable.
  - reflexivity.
  - apply resting_dec. reflexivity.
Defined.

(** X20: a limit order placed under an id the engine does not know yet,
    and not filled on arrival, can be cancelled: [cancel_order] of the
    engine returns true, marks the order [Cancelled], takes it off its
    book, where the other orders stay, and puts the id index of the
    engine back as it was; a second [cancel_order] of the id then
    returns false and changes nothing. *)
Theorem placed_order_can_be_cancelled pol sym id s sz prc w e book :
  engine_reachable pol w e -> u64 sz ->
  get_order_book sym e = Some book ->
  mm_equal_range id (order_id_to_symbol_ e) = [] ->
  let r := place_limit_order pol sym id s sz prc w e in
  let p := brk w in
  is_filled (heap (r_world r) p) = false ->
  let c1 := engine_cancel_order id (r_world r) (r_engine r) in
  let c2 := engine_cancel_order id c1.1.2 c1.2 in
  c1.1.1 = true /\ status (heap c1.1.2 p) = Cancelled /\
  (exists br b1,
     get_order_book sym (r_engine r) = Some br /\
     get_order_book sym c1.2 = Some b1 /\
     p ∈ resting br /\ (p ∉ resting b1) /\ resting br ≡ₚ p :: resting b1) /\
  order_id_to_symbol_ c1.2 = order_id_to_symbol_ e /\
  c2 = (false, c1.1.2, c1.2).
Proof.
  intros Hr Hsz Hsym Hfresh. cbv zeta. unfold get_order_book in *.
  pose proof (engine_reachable_inv _ _ _ Hr) as He.
  pose proof (index_covers_reachable _ _ _ Hr sym book id Hsym) as Hc.
  rewrite Hfresh in Hc. simpl in Hc.
  assert (Hnone : mm_equal_range id (order_map_ book) = []).
  { destruct (mm_equal_range id (order_map_ book)); [done|simpl in Hc; lia]. }
  rewrite (place_limit_order_unfold _ _ _ _ _ _ _ _ _ Hsym). cbv zeta.
  cbn [r_world r_engine].
  destruct (placed_match_facts w e sym book
              (limit_order id s sym sz prc (now w).1) He Hsym
              (limit_order_ok _ _ _ _ _ _ Hsz) eq_refl)
    as (G1 & G2 & G3 & _).
  destruct (placed_match_more w e sym book
              (limit_order id s sym sz prc (now w).1) He Hsym
              (limit_order_ok _ _ _ _ _ _ Hsz) eq_refl)
    as (_ & M2 & _ & _ & _ & _ & _ & _ & M9).
  cbv zeta in G1, G2, G3, M2, M9. destruct M2 as (M2 & _).
  change (order_id (limit_order id s sym sz prc (now w).1)) with id in M2.
  set (mo := match_order _ _ _) in *. clearbody mo.
  destruct (is_filled (heap mo.1.2 (brk w))) eqn:Hf.
  { cbn [fst]. intros Hf'. congruence. }
  intros _.
  assert (Hnone' : mm_equal_range id (order_map_ mo.2) = []).
  { pose proof (mm_equal_range_sublist id _ _ M9) as Hs.
    rewrite Hnone in Hs. by apply sublist_nil_r in Hs. }
  set (a := add_order pol (brk w) mo.1.2 mo.2).
  assert (Hra : mm_equal_range id (order_map_ a.2) = [brk w]).
  { unfold a. rewrite add_order_map, M2.
    by apply mm_equal_range_insert_fresh. }
  assert (Hia : book_inv a.1 a.2).
  { apply add_order_inv; auto. }
  destruct (cancel_order_first_of_range id a.1 a.2 (brk w) [] Hia Hra)
    as (C1 & C2 & C3 & C4 & _). cbv zeta in C1, C2, C3, C4.
  assert (Hidx : mm_equal_range id
                   (mm_insert pol id sym (order_id_to_symbol_ e)) = [sym])
    by (by apply mm_equal_range_insert_fresh).
  assert (Hbook : (<[sym := a.2]> (order_books_ e)) !! sym = Some a.2)
    by apply lookup_insert_eq.
  rewrite (engine_cancel_order_unfold id a.1
             (mkEngine (<[sym := a.2]> (order_books_ e))
                (mm_insert pol id sym (order_id_to_symbol_ e))
                (trade_callbacks_ e)) sym [] a.2 Hidx Hbook).
  cbv zeta. cbn [fst snd order_books_ order_id_to_symbol_ trade_callbacks_].
  rewrite C1.
  assert (Eidx : mm_erase id sym (mm_insert pol id sym (order_id_to_symbol_ e))
                 = order_id_to_symbol_ e) by (by apply mm_erase_insert).
  rewrite Eidx.
  split; [reflexivity|]. split; [exact C4|]. split.
  { exists a.2, (cancel_order id a.1 a.2).2.
    split; [exact Hbook|]. split; [apply lookup_insert_eq|].
    assert (Hin : brk w ∈ resting a.2).
    { unfold a. rewrite add_order_resting. by left. }
    split; [exact Hin|]. split; [|exact C3].
    pose proof (inv_nodup _ _ Hia) as Hnd. rewrite C3 in Hnd.
    by apply NoDup_cons in Hnd as [? _]. }
  split; [reflexivity|].
  unfold engine_cancel_order at 1.
  cbn [order_id_to_symbol_]. by rewrite Hfresh.
Qed.

(** The buy order ["B1"] of 50 at 9 placed while the sell order of 100
    at 10 rests: it is cancelled, the sell order stays, and a second
    cancel fails. *)
Lemma placed_order_can_be_cancelled_witness :
  let w := r_world (one_sell InsertionOrder) in
  let e := r_engine (one_sell InsertionOrder) in
  let r := place_limit_order InsertionOrder "T" "B1" Buy 50 9 w e in
  let c1 := engine_cancel_order "B1" (r_world r) (r_engine r) in
  let c2 := engine_cancel_order "B1" c1.1.2 c1.2 in
  (resting <$> get_order_book "T" c1.2) = Some [0%nat] /\
  c1.1.1 = true /\ status (heap c1.1.2 1%nat) = Cancelled /\
  order_id_to_symbol_ c1.2 = order_id_to_symbol_ e /\
  c2 = (false, c1.1.2, c1.2).
Proof.
  split; [reflexivity|].
  destruct (placed_order_can_be_cancelled InsertionOrder "T" "B1" Buy 50 9
              (r_world (one_sell InsertionOrder))
              (r_engine (one_sell InsertionOrder))
              (default (new_book "T")
                 (get_order_book "T" (r_engine (one_sell InsertionOrder))))
              (one_sell_reachable InsertionOrder))
    as (H1 & H2 & _ & H4 & H5).
  - unfold u64, two64. lia.
  - reflexivity.
  - reflexivity.
  - reflexivity.
  - auto.
Defined.

(** ** What a placed order trades *)

Lemma placed_match_account w e sym book o :
  engine_inv w e -> order_books_ e !! sym = Some book ->
  order_ok o -> filled_size o = 0 ->
  let p := brk w in
  let w2 := (make_shared (now w).2 o).2 in
  let mo := match_order p w2 book in
  Forall (fun t => 0 < trade_size t) mo.1.1 /\
  filled_size (heap mo.1.2 p) = total_size mo.1.1 /\
  size (heap mo.1.2 p) = size o /\
  0 <= total_size mo.1.1 <= size o /\
  remaining_size (heap mo.1.2 p) = size o - total_size mo.1.1.
Proof.
  intros He Hsym Ho Hz. cbv zeta.
  pose proof He as (Hw & Hb & _). destruct (Hb _ _ Hsym) as [Hinv Hfresh].
  destruct (placed_order_ready w book o Hw Ho Hinv Hfresh)
    as (Hw2 & Hinv2 & Hp & Hhp).
  destruct (placed_match_facts w e sym book o He Hsym Ho Hz)
    as (G1 & _ & _ & _ & _ & G6 & _).
  cbv zeta in G1, G6.
  set (w2 := (make_shared (now w).2 o).2) in *.
  destruct (match_order_parts (brk w) w2 book) as (Et & Eh & _).
  cbv zeta in Et, Eh.
  pose proof (match_loop_inv
    (S (length (side_orders (opposite (side (heap w2 (brk w)))) book)))
    (brk w) (mkMatch w2 book []) Hw2 Hinv2 Hp) as Hl.
  cbv zeta in Hl. destruct Hl as (_ & _ & _ & Hst & _).
  destruct (match_loop_account
    (S (length (side_orders (opposite (side (heap w2 (brk w)))) book)))
    (brk w) (mkMatch w2 book []) Hw2 Hinv2 Hp) as (new & E1 & E2 & E3).
  set (st := match_loop _ _ _) in *. clearbody st.
  cbn [m_world m_trades] in E1, E3, Hst. simpl in E1. subst new.
  rewrite Hhp, Hz in E3. simpl in E3.
  destruct (Hst (brk w)) as (_ & _ & _ & _ & Es & _). rewrite Hhp in Es.
  rewrite Eh in G6. rewrite E3, Es in G6.
  set (mo := match_order _ _ _) in *. clearbody mo.
  rewrite Et, Eh, E3, Es.
  assert (Hnn : 0 <= total_size (m_trades st)).
  { clear -E2. induction E2 as [|t ts Ht _ IH]; simpl; lia. }
  split; [exact E2|]. split; [reflexivity|]. split; [reflexivity|].
  split; [lia|].
  unfold remaining_size. rewrite Es, E3. apply wrap64_small.
  destruct Ho as (Hs & _). unfold u64 in *. lia.
Qed.

(** X21: an order of size [sz] placed through the engine trades at most
    [sz] in all: the sizes of the trades returned add up to the filled
    size of the order, every one of them is positive, and what the order
    has left is [sz] less that sum. *)
Theorem placed_order_accounting pol sym id s sz prc w e book :
  engine_reachable pol w e -> u64 sz -> get_order_book sym e = Some book ->
  (let r := place_limit_order pol sym id s sz prc w e in
   Forall (fun t => 0 < trade_size t) (r_trades r) /\
   0 <= total_size (r_trades r) <= sz /\
   filled_size (heap (r_world r) (brk w)) = total_size (r_trades r) /\
   remaining_size (heap (r_world r) (brk w)) = sz - total_size (r_trades r)) /\
  (let r := place_market_order sym id s sz w e in
   Forall (fun t => 0 < trade_size t) (r_trades r) /\
   0 <= total_size (r_trades r) <= sz /\
   filled_size (heap (r_world r) (brk w)) = total_size (r_trades r) /\
   remaining_size (heap (r_world r) (brk w)) = sz - total_size (r_trades r)).
Proof.
  intros Hr Hsz Hsym. unfold get_order_book in Hsym.
  pose proof (engine_reachable_inv _ _ _ Hr) as He. split; cbv zeta.
  - rewrite (place_limit_order_unfold _ _ _ _ _ _ _ _ _ Hsym). cbv zeta.
    cbn [r_trades r_world].
    destruct (placed_match_account w e sym book
                (limit_order id s sym sz prc (now w).1) He Hsym
                (limit_order_ok _ _ _ _ _ _ Hsz) eq_refl)
      as (A1 & A2 & A3 & A4 & A5).
    cbv zeta in A1, A2, A3, A4, A5.
    change (size (limit_order id s sym sz prc (now w).1)) with sz in A4, A5.
    set (mo := match_order _ _ _) in *. clearbody mo.
    assert (Eh : heap (if is_filled (heap mo.1.2 (brk w))
                       then (mo.1.2, mo.2)
                       else add_order pol (brk w) mo.1.2 mo.2).1
                 = heap mo.1.2) by (by destruct (is_filled _)).
    rewrite Eh. auto.
  - rewrite (place_market_order_unfold _ _ _ _ _ _ _ Hsym). cbv zeta.
    cbn [r_trades r_world].
    destruct (placed_match_account w e sym book
                (market_order id s sym sz (now w).1) He Hsym
                (market_order_ok _ _ _ _ _ Hsz) eq_refl)
      as (A1 & A2 & A3 & A4 & A5).
    cbv zeta in A1, A2, A3, A4, A5.
    change (size (market_order id s sym sz (now w).1)) with sz in A4, A5.
    auto.
Qed.

(** A buy order of 150 at 10 against the resting sell order of 100: one
    trade of 100, and 50 are left. *)
Lemma placed_order_accounting_witness :
  let w := r_world (one_sell InsertionOrder) in
  let e := r_engine (one_sell InsertionOrder) in
  let r := place_limit_order InsertionOrder "T" "B1" Buy 150 10 w e in
  map trade_size (r_trades r) = [100] /\
  filled_size (heap (r_world r) (brk w)) = total_size (r_trades r) /\
  remaining_size (heap (r_world r) (brk w)) = 150 - total_size (r_trades r).
Proof.
  split; [reflexivity|].
  destruct (placed_order_accounting InsertionOrder "T" "B1" Buy 150 10
              (r_world (one_sell InsertionOrder))
              (r_engine (one_sell InsertionOrder))
              (default (new_book "T")
                 (get_order_book "T" (r_engine (one_sell InsertionOrder))))
              (one_sell_reachable InsertionOrder))
    as [(_ & _ & H3 & H4) _].
  - unfold u64, two64. lia.
  - reflexivity.
  - auto.
Defined.

(** X22: [cancel_order] of an id that is not filed returns false and
    changes nothing; otherwise it returns true and takes what the
    cancelled order, the first one filed under the id, had left to fill
    out of the volume at its price on its side, leaving every other
    volume as it was. *)
Theorem cancel_order_volume pol id w b s prc :
  reachable pol w b ->
  let r := cancel_order id w b in
  match mm_equal_range id (order_map_ b) with
  | [] => r = (false, w, b)
  | p :: _ =>
      r.1.1 = true /\
      volume_at_price s prc w b =
        wrap64 (volume_at_price s prc r.1.2 r.2 +
                if bool_decide (s = side (heap w p))
                   && price_eq (price (heap w p)) prc
                then remaining_size (heap w p) else 0)
  end.
Proof.
  intros Hr. cbv zeta. destruct (reachable_inv _ _ _ Hr) as [Hw Hinv].
  destruct (mm_equal_range id (order_map_ b)) as [|p ps] eqn:E.
  { by apply cancel_order_none. }
  rewrite (cancel_order_some _ _ _ _ _ E). cbv zeta. cbn [fst snd].
  split; [reflexivity|].
  rewrite !volume_at_price_sum, wrap64_add_l.
  change (side_orders s (set_last_update_time ?t ?b'))
    with (side_orders s b').
  change (side_orders s (set_order_map ?m ?b')) with (side_orders s b').
  rewrite side_orders_set.
  assert (Hin : (id, p) ∈ order_map_ b).
  { apply elem_of_mm_equal_range. rewrite E. by left. }
  pose proof (indexed_resting _ _ _ _ Hinv Hin) as Hrest.
  assert (Hs : p ∈ side_orders (side (heap w p)) b).
  { apply elem_of_resting in Hrest as [s' Hs'].
    by rewrite (inv_side _ _ Hinv _ _ Hs'). }
  assert (Hext : forall l,
    side_volume
      (heap (now (store w p (set_status (heap w p) Cancelled))).2) prc l
      = side_volume (heap w) prc l).
  { intros l. apply side_volume_ext. intros q _. simpl. unfold upd.
    by case_decide; subst. }
  rewrite Hext. f_equal.
  destruct (decide (s = side (heap w p))) as [->|Hne].
  - rewrite bool_decide_eq_true_2 by done. simpl.
    rewrite (side_volume_perm _ _ _ _ (erase_first_perm _ _ Hs)). simpl.
    destruct (price_eq (price (heap w p)) prc); lia.
  - rewrite bool_decide_eq_false_2 by done. simpl. lia.
Qed.

(** The buy orders at 10, 10, 11 and 9: cancelling ["BUY1"] takes its
    100 out of the 200 at the price 10. *)
Lemma cancel_order_volume_witness :
  let w := (s7_book InsertionOrder).1 in
  let b := (s7_book InsertionOrder).2 in
  let r := cancel_order "BUY1" w b in
  (volume_at_price Buy 10 w b, volume_at_price Buy 10 r.1.2 r.2)
    = (200, 100) /\
  r.1.1 = true /\
  volume_at_price Buy 10 w b
    = wrap64 (volume_at_price Buy 10 r.1.2 r.2 + 100).
Proof.
  split; [reflexivity|].
  exact (cancel_order_volume InsertionOrder "BUY1"
           (s7_book InsertionOrder).1 (s7_book InsertionOrder).2 Buy 10
           (s7_book_reachable InsertionOrder)).
Defined.

(** ** Clock readings *)

Lemma match_loop_clock n p st :
  let st2 := match_loop n p st in
  exists new,
    m_trades st2 = m_trades st ++ new /\
    map trade_timestamp new
      = map (fun i => wrap64 (clock (m_world st) (ticks (m_world st) + i)))
          (seq 0 (length new)) /\
    ticks (m_world st2) = (ticks (m_world st) + length new)%nat /\
    clock (m_world st2) = clock (m_world st).
Proof.
  cbv zeta. revert n st.
  apply (match_loop_rel_any p (fun st st2 =>
    exists new,
      m_trades st2 = m_trades st ++ new /\
      map trade_timestamp new
        = map (fun i => wrap64 (clock (m_world st) (ticks (m_world st) + i)))
            (seq 0 (length new)) /\
      ticks (m_world st2) = (ticks (m_world st) + length new)%nat /\
      clock (m_world st2) = clock (m_world st))).
  - intros st. exists []. rewrite app_nil_r. simpl.
    split_and!; auto.
  - intros st st1 st2 Hbody (new & E1 & E2 & E3 & E4).
    apply match_body_Some in Hbody. cbv zeta in Hbody.
    destruct Hbody as (m & rest & _ & _ & _ & _ & Hc & Ht & Htr & _).
    rewrite Hc, Ht in E2. rewrite Ht in E3. rewrite Hc in E4.
    eexists (_ :: new). split; [rewrite E1, Htr, <- app_assoc; reflexivity|].
    split; [|split; [simpl; lia|exact E4]].
    cbn [map length seq]. f_equal.
    + rewrite Nat.add_0_r.
      by match goal with
         | |- context [match ?s with Buy => _ | Sell => _ end] => destruct s
         end.
    + rewrite E2, <- seq_shift, map_map. apply map_ext. intros i.
      do 2 f_equal. lia.
Qed.

(** X23: [match_order] reads the clock once for each trade, after the
    fill, and once more at its end: the trades carry the readings in the
    order in which they were taken and [last_update_time_] is the one
    taken after them. *)
Theorem trades_stamped_in_clock_order p w b :
  let r := match_order p w b in
  map trade_timestamp r.1.1
    = map (fun i => wrap64 (clock w (ticks w + i))) (seq 0 (length r.1.1)) /\
  last_update_time_ r.2 = wrap64 (clock w (ticks w + length r.1.1)) /\
  ticks r.1.2 = S (ticks w + length r.1.1) /\
  clock r.1.2 = clock w.
Proof.
  cbv zeta. rewrite match_order_unfold. cbv zeta. cbn [fst snd].
  destruct (match_loop_clock
    (S (length (side_orders (opposite (side (heap w p))) b))) p
    (mkMatch w b [])) as (new & E1 & E2 & E3 & E4).
  cbv zeta in E1, E2, E3, E4.
  set (st := match_loop _ _ _) in *. clearbody st.
  cbn [m_world m_trades] in E1, E2, E3, E4. simpl in E1. subst new.
  split; [exact E2|]. simpl. rewrite E3, E4. auto.
Qed.

(** ** The best prices after [add_order] *)



(** ** The earlier revision of [match_order] *)

Lemma legacy_match_body_facts p st st' :
  Legacy.match_body p st = Some st' ->
  same_static (heap (Legacy.m_world st)) (heap (Legacy.m_world st')) /\
  (forall s, Legacy.side_orders s (Legacy.m_book st')
               `sublist_of` Legacy.side_orders s (Legacy.m_book st)).
Proof.
  unfold Legacy.match_body. intros H.
  destruct (Legacy.side_orders _ (Legacy.m_book st)) as [|m rest] eqn:E;
    [discriminate|].
  destruct (is_filled (heap (Legacy.m_world st) p)); [discriminate|].
  destruct (_ || _); [|discriminate].
  injection H as <-. simpl. split.
  - eapply same_static_trans; [apply same_static_fill|].
    apply same_static_fill.
  - intros s. destruct (is_filled _); [|reflexivity].
    destruct (side (heap (Legacy.m_world st) p)), s; simpl in *;
      try reflexivity; rewrite E; by apply sublist_cons.
Qed.

Lemma legacy_match_loop_facts n p st :
  same_static (heap (Legacy.m_world st))
    (heap (Legacy.m_world (Legacy.match_loop n p st))) /\
  (forall s, Legacy.side_orders s (Legacy.m_book (Legacy.match_loop n p st))
               `sublist_of` Legacy.side_orders s (Legacy.m_book st)).
Proof.
  revert st. induction n as [|n IH]; intros st.
  - split; [apply same_static_refl|reflexivity].
  - simpl. destruct (Legacy.match_body p st) as [st'|] eqn:E.
    + destruct (legacy_match_body_facts _ _ _ E) as [H1 H2].
      destruct (IH st') as [H3 H4]. split.
      * by eapply same_static_trans.
      * intros s. etrans; [apply H4|apply H2].
    + split; [apply same_static_refl|reflexivity].
Qed.

(** X25: in the earlier revision [match_order] itself puts the incoming
    order into the book: a limit order that is not filled when the
    matching is over rests on its side and is filed under its id when
    [match_order] returns, and a market order never is. *)
Theorem legacy_match_order_books_remainder p w (b : Legacy.OrderBook) :
  let r := Legacy.match_order p w b in
  (type (heap w p) = Limit -> is_filled (heap r.1.2 p) = false ->
   p ∈ Legacy.side_orders (side (heap w p)) r.2 /\
   p ∈ Legacy.get_all_orders r.2 /\
   Legacy.order_map_ r.2 !! order_id (heap w p) = Some p) /\
  (type (heap w p) = Market -> p ∉ Legacy.get_all_orders b ->
   p ∉ Legacy.get_all_orders r.2).
Proof.
  cbv zeta. unfold Legacy.match_order.
  destruct (legacy_match_loop_facts
    (S (length (Legacy.side_orders (opposite (side (heap w p))) b))) p
    (Legacy.mkMatch w b [])) as [Hst Hsub].
  set (st := Legacy.match_loop _ _ _) in *. clearbody st.
  simpl in Hst, Hsub.
  destruct (Hst p) as (Eid & Es & Et & _).
  rewrite Et. split.
  - intros Hty. rewrite Hty, bool_decide_eq_true_2 by done.
    rewrite andb_true_r.
    destruct (is_filled (heap (Legacy.m_world st) p)) eqn:Hf; simpl.
    { intros H. congruence. }
    intros _.
    assert (Hp : p ∈ filter
                   (fun q => is_filled (heap (Legacy.m_world st) q) = false)
                   (sort (Legacy.side_before (side (heap w p))
                            (heap (Legacy.m_world st)))
                      (Legacy.side_orders (side (heap w p))
                         (Legacy.m_book st) ++ [p]))).
    { apply list_elem_of_filter. split; [exact Hf|].
      rewrite sort_perm. apply elem_of_app. right. by left. }
    unfold Legacy.add_order, Legacy.get_all_orders. rewrite Es, Eid.
    destruct (side (heap w p)); simpl in *.
    + split; [exact Hp|]. split; [apply elem_of_app; by left|].
      apply lookup_insert_eq.
    + split; [exact Hp|]. split; [apply elem_of_app; by right|].
      apply lookup_insert_eq.
  - intros Hty Hp. rewrite Hty.
    rewrite bool_decide_eq_false_2 by discriminate.
    rewrite andb_false_r. simpl. unfold Legacy.get_all_orders in *. simpl.
    intros Hin. apply Hp.
    apply elem_of_app in Hin as [Hin|Hin];
      apply list_elem_of_filter in Hin as [_ Hin]; apply elem_of_app.
    + left. eapply elem_of_sublist; [exact Hin|apply (Hsub Buy)].
    + right. eapply elem_of_sublist; [exact Hin|apply (Hsub Sell)].
Qed.

(** The buy order of 150 at 10 against the sell order of 100: it is
    left with 50 and rests when [match_order] returns. *)
Lemma legacy_match_order_books_remainder_witness :
  let r := Legacy.match_order 1%nat legacy_book.1 legacy_book.2 in
  remaining_size (heap r.1.2 1%nat) = 50 /\
  1%nat ∈ Legacy.side_orders Buy r.2 /\
  1%nat ∈ Legacy.get_all_orders r.2 /\
  Legacy.order_map_ r.2 !! "BUY1" = Some 1%nat.
Proof.
  split; [reflexivity|].
  apply (legacy_match_order_books_remainder 1%nat
           legacy_book.1 legacy_book.2); reflexivity.
Defined.

(** ** The ids of the demonstration *)

Lemma pretty_N_go_head x s :
  (0 < x)%N ->
  exists c rest, pretty_N_go x s = String c rest /\ c <> "0"%char.
Proof.
  revert s. induction (N.lt_wf_0 x) as [x _ IH]. intros s Hx.
  rewrite pretty_N_go_step by done.
  destruct (decide (x < 10)%N) as [Hlt|Hge].
  - rewrite N.div_small by done. rewrite pretty_N_go_0.
    eexists _, _. split; [reflexivity|].
    rewrite N.mod_small by done.
    assert (x = 1 \/ x = 2 \/ x = 3 \/ x = 4 \/ x = 5 \/ x = 6
            \/ x = 7 \/ x = 8 \/ x = 9)%N as Hc by lia.
    destruct Hc as [->|[->|[->|[->|[->|[->|[->|[->| ->]]]]]]]]; discriminate.
  - apply IH.
    + apply N.div_lt; lia.
    + apply N.div_str_pos. lia.
Qed.

Lemma pretty_Z_head (c : Z) :
  0 < c -> exists ch rest, pretty c = String ch rest /\ ch <> "0"%char.
Proof.
  destruct c as [|c|c]; try lia. intros _.
  unfold pretty, pretty_Z, pretty, pretty_positive, pretty, pretty_N.
  rewrite decide_False by discriminate.
  apply pretty_N_go_head. lia.
Qed.

Lemma zeros_app_inj ka kb ca ra cb rb :
  ca <> "0"%char -> cb <> "0"%char ->
  zeros ka +:+ String ca ra = zeros kb +:+ String cb rb ->
  String ca ra = String cb rb.
Proof.
  intros Ha Hb. revert kb. induction ka as [|ka IH]; intros [|kb]; simpl.
  - auto.
  - intros [= -> _]. congruence.
  - intros [= <- _]. congruence.
  - intros [= H]. by apply IH in H.
Qed.

Lemma generate_order_id_Some c id c' :
  generate_order_id c = Some (id, c') ->
  c < INT_MAX /\ c' = c + 1 /\ id = "ORD" +:+ setw_fill0 6 (pretty (c + 1)).
Proof.
  unfold generate_order_id. case_decide; [|discriminate].
  by intros [= <- <-].
Qed.

Lemma generate_order_id_inj c1 c2 id c1' c2' :
  0 <= c1 -> 0 <= c2 ->
  generate_order_id c1 = Some (id, c1') ->
  generate_order_id c2 = Some (id, c2') -> c1 = c2.
Proof.
  intros H1 H2 E1 E2.
  apply generate_order_id_Some in E1 as (_ & _ & ->).
  apply generate_order_id_Some in E2 as (_ & _ & E).
  simpl in E. injection E as E. unfold setw_fill0 in E.
  destruct (pretty_Z_head (c1 + 1) ltac:(lia)) as (ca & ra & Ea & Hca).
  destruct (pretty_Z_head (c2 + 1) ltac:(lia)) as (cb & rb & Eb & Hcb).
  rewrite Ea, Eb in E. apply zeros_app_inj in E; [|done..].
  rewrite <- Ea, <- Eb in E. apply (inj pretty) in E. lia.
Qed.

Lemma generate_order_ids_from n c id :
  id ∈ generate_order_ids n c ->
  exists c0 c1, c <= c0 /\ generate_order_id c0 = Some (id, c1).
Proof.
  revert c. induction n as [|n IH]; intros c; simpl.
  - intros H. by apply elem_of_nil in H.
  - destruct (generate_order_id c) as [[id' c']|] eqn:E.
    + intros [->|Hin]%elem_of_cons.
      * exists c, c'. split; [lia|exact E].
      * apply generate_order_id_Some in E as (_ & -> & _).
        destruct (IH _ Hin) as (c0 & c1 & Hle & E0).
        exists c0, c1. split; [lia|exact E0].
    + intros H. by apply elem_of_nil in H.
Qed.

(** X26: [generate_order_id] never hands out the same id twice: the ids
    of any number of calls, the counter starting at 0, are pairwise
    different, and there is one for each call as long as the [int]
    counter has not reached its largest value. *)
Theorem generate_order_id_never_repeats n :
  NoDup (generate_order_ids n 0) /\
  (Z.of_nat n <= INT_MAX -> length (generate_order_ids n 0) = n).
Proof.
  assert (H : forall c, 0 <= c ->
    NoDup (generate_order_ids n c) /\
    (c + Z.of_nat n <= INT_MAX -> length (generate_order_ids n c) = n)).
  { induction n as [|n IH]; intros c Hc; simpl.
    - split; [constructor|reflexivity].
    - destruct (generate_order_id c) as [[id c']|] eqn:E.
      + pose proof E as E'.
        apply generate_order_id_Some in E' as (Hlt & -> & _).
        destruct (IH (c + 1) ltac:(lia)) as [IH1 IH2]. split.
        * constructor; [|exact IH1]. intros Hin.
          apply generate_order_ids_from in Hin as (c0 & c1 & Hle & E0).
          pose proof (generate_order_id_inj c c0 id _ _ Hc ltac:(lia) E E0).
          lia.
        * intros Hn. simpl. f_equal. apply IH2. lia.
      + split; [constructor|]. intros Hn.
        unfold generate_order_id in E. case_decide; [discriminate|]. lia. }
  destruct (H 0 ltac:(lia)) as [H1 H2]. split; [exact H1|].
  intros Hn. apply H2. lia.
Qed.

(** The first ids, and the one after the 999999th, which is longer. *)
Example generate_order_id_first :
  generate_order_ids 3 0 = ["ORD000001"; "ORD000002"; "ORD000003"] /\
  generate_order_id 999999 = Some ("ORD1000000", 1000000) /\
  generate_order_id INT_MAX = None.
Proof. vm_compute. auto. Qed.

(** ** A filled order in the book *)

(** X27: [add_order] does not look at what the order has left, and
    [match_order] does not either: an order that is completely filled
    and rests at the head of the contra side all the same is traded with
    like any other.  The trade has the size 0, the filled order leaves
    the book, and the incoming order, with nothing more filled than
    before, is marked [PartiallyFilled]. *)
Theorem filled_maker_gives_empty_trade p st m rest :
  let w := m_world st in
  let opp := opposite (side (heap w p)) in
  side_orders opp (m_book st) = m :: rest -> m <> p ->
  order_ok (heap w p) -> order_ok (heap w m) ->
  is_filled (heap w p) = false ->
  filled_size (heap w m) = size (heap w m) ->
  (type (heap w p) = Market \/
   match side (heap w p) with
   | Buy => (price (heap w m) <= price (heap w p))%Q
   | Sell => (price (heap w p) <= price (heap w m))%Q
   end) ->
  exists st' t,
    match_body p st = Some st' /\
    m_trades st' = m_trades st ++ [t] /\
    trade_size t = 0 /\ trade_price t = price (heap w m) /\
    side_orders opp (m_book st') = rest /\
    filled_size (heap (m_world st') p) = filled_size (heap w p) /\
    status (heap (m_world st') p) = PartiallyFilled.
Proof.
  cbv zeta. intros Hopp Hne Hokp Hokm Hfp Hfm Hcross.
  assert (Hrm : remaining_size (heap (m_world st) m) = 0).
  { unfold remaining_size. rewrite Hfm, Z.sub_diag. reflexivity. }
  destruct (remaining_size_open _ Hokp Hfp) as [_ Hrp].
  assert (Hmin : Z.min (remaining_size (heap (m_world st) p))
                   (remaining_size (heap (m_world st) m)) = 0)
    by (rewrite Hrm; lia).
  assert (Hcond : bool_decide (type (heap (m_world st) p) = Market)
                  || match side (heap (m_world st) p) with
                     | Buy => price_le (price (heap (m_world st) m))
                                (price (heap (m_world st) p))
                     | Sell => price_le (price (heap (m_world st) p))
                                 (price (heap (m_world st) m))
                     end = true).
  { destruct Hcross as [H|H].
    - by rewrite bool_decide_eq_true_2.
    - apply orb_true_iff. right.
      destruct (side (heap (m_world st) p)); by apply price_le_spec. }
  destruct (match_body p st) as [st'|] eqn:E.
  2:{ unfold match_body in E. rewrite Hopp, Hfp, Hcond in E. discriminate. }
  pose proof E as E'. apply match_body_Some in E'. cbv zeta in E'.
  destruct E' as (m' & rest' & Hopp' & _ & Hh & _ & _ & _ & Ht & Hb).
  rewrite Hopp in Hopp'. injection Hopp' as <- <-.
  rewrite Hmin in Hh, Ht, Hb.
  assert (Hh1 : upd (heap (m_world st)) p (fill (heap (m_world st) p) 0) m
                = heap (m_world st) m) by (by apply upd_other).
  rewrite Hh1 in Hh, Ht, Hb.
  assert (Hhp : heap (m_world st') p = fill (heap (m_world st) p) 0).
  { rewrite Hh. rewrite upd_other by congruence. apply upd_same. }
  assert (Hhm : heap (m_world st') m = fill (heap (m_world st) m) 0)
    by (rewrite Hh; apply upd_same).
  rewrite <- Hh in Ht, Hb. rewrite Hhm in Hb.
  assert (Efm : is_filled (fill (heap (m_world st) m) 0) = true).
  { apply is_filled_true.
    destruct (fill_fields (heap (m_world st) m) 0) as (_&_&_&_&E1&_&_&E3).
    rewrite E1, E3, Z.add_0_r, wrap64_small; [lia|apply Hokm]. }
  rewrite Efm in Hb.
  eexists st', _. split; [reflexivity|]. split; [exact Ht|].
  split; [by destruct (side (heap (m_world st') p))|].
  split; [by destruct (side (heap (m_world st') p))|].
  split; [rewrite Hb; by destruct (side (heap (m_world st) p))|].
  rewrite Hhp.
  destruct (fill_fields (heap (m_world st) p) 0) as (_&_&_&_&E1&_&_&E3).
  assert (E4 : filled_size (fill (heap (m_world st) p) 0)
               = filled_size (heap (m_world st) p)).
  { rewrite E3, Z.add_0_r. apply wrap64_small. apply Hokp. }
  split; [exact E4|].
  unfold fill.
  assert (Ef : is_filled (set_filled_size (heap (m_world st) p)
                 (wrap64 (filled_size (heap (m_world st) p) + 0))) = false).
  { apply is_filled_false. simpl. apply is_filled_false in Hfp.
    rewrite Z.add_0_r, wrap64_small; [lia|apply Hokp]. }
  by rewrite Ef.
Qed.

(** The filled sell order of 100 at 10 rests; the buy order of 50 at 10
    trades 0 with it and is left with its 50. *)
Lemma filled_maker_gives_empty_trade_witness :
  side_orders Sell (m_book filled_maker_state) = [0%nat] /\
  is_filled (heap (m_world filled_maker_state) 0%nat) = true /\
  exists st' t,
    match_body 1%nat filled_maker_state = Some st' /\
    m_trades st' = m_trades filled_maker_state ++ [t] /\
    trade_size t = 0 /\ trade_price t = 10%Q /\
    side_orders Sell (m_book st') = [] /\
    filled_size (heap (m_world st') 1%nat) = 0 /\
    status (heap (m_world st') 1%nat) = PartiallyFilled.
Proof.
  split; [reflexivity|]. split; [reflexivity|].
  apply (filled_maker_gives_empty_trade 1%nat filled_maker_state 0%nat []).
  - reflexivity.
  - discriminate.
  - unfold order_ok, u64, two64. simpl. lia.
  - unfold order_ok, u64.
    repeat split; vm_compute; (reflexivity || discriminate).
  - reflexivity.
  - reflexivity.
  - right. simpl. apply Qle_refl.
Defined.

(** ** Timestamps and ties *)







